(** * ONE WAY interpreter (ow.py): shallow embedding and verified properties

    The interpreter of ow.py is embedded function by function:
    the value model, [_get], the built-in commands, the block classes,
    the loader loop and the top-level handler that prints diagnostics.

    Conventions.
    - A Python [str] is a list of Unicode code points ([N]); [lit] turns an
      ASCII constant of the source into such a list.
    - A Python [Fraction] is a [Q] kept in lowest terms: every operation that
      builds one goes through [Qred], as the Fraction constructor does.
    - A stack (a Python list used through [append]/[pop]) is stored top
      first: [append] is [cons], [pop] takes the head, and [reversed(stack)]
      is the list as stored.
    - [raise SyntaxError] inside [_eval] is the result [None].
    - Python integers are unbounded, but CPython refuses to convert between
      [int] and [str] when more than [max_str_digits] digits are involved
      (4300 unless the interpreter is configured otherwise): [str(int)] and
      [int(str)] then raise ValueError.
    - Standard output encodes as UTF-8 and rejects lone surrogates with
      UnicodeEncodeError; standard error escapes what it cannot encode and
      never fails.
    - The depth of the Python call stack is taken to be unbounded:
      RecursionError is outside the model.
    - Commands run in a state monad over the machine (the two stacks, the
      console, the random draws); [call] takes fuel because a [while_]
      block may loop for ever. *)

From Stdlib Require Import List Bool NArith ZArith QArith Qround Qreduction Qcanon.
From Stdlib Require Import Lia String Ascii DecimalN.
From Stdlib Require Import Lqa.
Import ListNotations.

Module Ow.

#[local] Open Scope N_scope.

(** ** Strings *)

Definition char := N.
Definition str := list char.

Definition lit (s : string) : str :=
  List.map N_of_ascii (list_ascii_of_string s).

Fixpoint str_eqb (a b : str) : bool :=
  match a, b with
  | [], [] => true
  | x :: a', y :: b' => (x =? y) && str_eqb a' b'
  | _, _ => false
  end.

Fixpoint startswith (x prefix : str) {struct prefix} : bool :=
  match prefix, x with
  | [], _ => true
  | p :: prefix', c :: x' => (c =? p) && startswith x' prefix'
  | _ :: _, [] => false
  end.

Definition removeprefix (prefix x : str) : str :=
  if startswith x prefix then skipn (List.length prefix) x else x.

Definition ch_newline : char := 10.
Definition ch_space : char := 32.
Definition ch_quote : char := 34.
Definition ch_minus : char := 45.
Definition ch_dot : char := 46.
Definition ch_slash : char := 47.
Definition ch_backslash : char := 92.
Definition ch_n : char := 110.

(** [x.replace(old, new)] for a one-character [old]. *)
Fixpoint replace1 (old : char) (new : str) (x : str) : str :=
  match x with
  | [] => []
  | c :: x' => (if c =? old then new else [c]) ++ replace1 old new x'
  end.

(** ** Decimal text of integers: [str(int)] and [int(str)] *)

Fixpoint uint_digits (d : Decimal.uint) : list N :=
  match d with
  | Decimal.Nil => []
  | Decimal.D0 d' => 0 :: uint_digits d'
  | Decimal.D1 d' => 1 :: uint_digits d'
  | Decimal.D2 d' => 2 :: uint_digits d'
  | Decimal.D3 d' => 3 :: uint_digits d'
  | Decimal.D4 d' => 4 :: uint_digits d'
  | Decimal.D5 d' => 5 :: uint_digits d'
  | Decimal.D6 d' => 6 :: uint_digits d'
  | Decimal.D7 d' => 7 :: uint_digits d'
  | Decimal.D8 d' => 8 :: uint_digits d'
  | Decimal.D9 d' => 9 :: uint_digits d'
  end.

Definition str_of_N (n : N) : str :=
  List.map (fun d => 48 + d) (uint_digits (N.to_uint n)).

(** The default of [sys.get_int_max_str_digits()]. *)
Definition max_str_digits : nat := 4300.

(** The decimal text of an integer. *)
Definition int_text (z : Z) : str :=
  match z with
  | Zneg p => ch_minus :: str_of_N (Npos p)
  | _ => str_of_N (Z.to_N z)
  end.

(** [str(z)] for a Python int: [None] is the ValueError raised when the
    text would have more than [max_str_digits] digits. *)
Definition str_of_int (z : Z) : option str :=
  if (List.length (str_of_N (Z.abs_N z)) <=? max_str_digits)%nat
  then Some (int_text z)
  else None.

(** [str(n)] for a length or a line number; these count objects held in
    memory and stay far below the limit on digits. *)
Definition str_of_nat (n : nat) : str := str_of_N (N.of_nat n).

Definition is_digit (c : char) : bool := (48 <=? c) && (c <=? 57).

(** Value of a run of ASCII digits, most significant first. *)
Definition digits_val (ds : str) : N :=
  fold_left (fun acc c => 10 * acc + (c - 48)) ds 0.

(** [int(ds)] for a run of ASCII digits: [None] is the ValueError raised
    for more than [max_str_digits] digits. *)
Definition int_of_digits (ds : str) : option N :=
  if (List.length ds <=? max_str_digits)%nat then Some (digits_val ds)
  else None.

Fixpoint span_digits (x : str) : str * str :=
  match x with
  | c :: x' =>
      if is_digit c then let (ds, rest) := span_digits x' in (c :: ds, rest)
      else ([], x)
  | [] => ([], [])
  end.

Fixpoint pow10 (k : nat) : positive :=
  match k with
  | O => 1%positive
  | S k' => (10 * pow10 k')%positive
  end.

(** ** Values *)

(** The classes a [type] value can be: [bool], [num] (Fraction), [str],
    [type], and [abc.ABCMeta], the class of [num] itself, which [typeof]
    brings in. *)
Inductive ty := TBool | TNum | TStr | TType | TABCMeta.

Inductive value :=
| VBool (b : bool)
| VNum (q : Q)
| VStr (s : str)
| VType (t : ty).

Definition stack := list value.

(** [type(x)]. Fraction is an abstract base class, so its class is
    [ABCMeta]; the class of every other class here is [type]. *)
Definition type_of (x : value) : ty :=
  match x with
  | VBool _ => TBool
  | VNum _ => TNum
  | VStr _ => TStr
  | VType TNum => TABCMeta
  | VType _ => TType
  end.

Definition ty_eqb (a b : ty) : bool :=
  match a, b with
  | TBool, TBool | TNum, TNum | TStr, TStr | TType, TType
  | TABCMeta, TABCMeta => true
  | _, _ => false
  end.

(** [type(a) == type(b) and a == b] *)
Definition value_eqb (a b : value) : bool :=
  match a, b with
  | VBool x, VBool y => Bool.eqb x y
  | VNum x, VNum y => Qeq_bool x y
  | VStr x, VStr y => str_eqb x y
  | VType x, VType y => ty_eqb x y
  | _, _ => false
  end.

(** A number is in lowest terms, as every Fraction is. *)
Definition canonical (x : value) : Prop :=
  match x with
  | VNum q => Qred q = q
  | _ => True
  end.

(** ** [Fraction(str)], on the strings [_eval] lets through

    [_eval] calls [num(x)] only after its scan, so [x] is an optional
    leading [-] followed by ASCII digits with at most one [.] or [/].
    On such strings the constructor accepts [d+], [d+/d+] and [d*.d*]
    with a digit first or right after the dot; it raises ValueError
    otherwise, also from the [int] of a run of digits that is too long,
    and ZeroDivisionError for a zero denominator (all [None]). An absent
    numerator is read as [0]; the digits after the dot are converted on
    their own and scaled in. *)
Definition Fraction_of_str (x : str) : option Q :=
  let neg := startswith x [ch_minus] in
  let body := removeprefix [ch_minus] x in
  let sign (n : N) : Z := if neg then (- Z.of_N n)%Z else Z.of_N n in
  let (nu, rest) := span_digits body in
  match rest with
  | [] =>
      match nu with
      | [] => None
      | _ =>
          match int_of_digits nu with
          | Some numerator => Some (Qred (sign numerator # 1))
          | None => None
          end
      end
  | c :: rest' =>
      let (de, rest'') := span_digits rest' in
      match rest'' with
      | _ :: _ => None
      | [] =>
          if c =? ch_slash then
            match nu, de with
            | [], _ | _, [] => None
            | _, _ =>
                match int_of_digits nu, int_of_digits de with
                | Some numerator, Some (Npos d) =>
                    Some (Qred (sign numerator # d))
                | _, _ => None
                end
            end
          else if c =? ch_dot then
            match nu, de with
            | [], [] => None
            | _, _ =>
                match int_of_digits nu, int_of_digits de with
                | Some numerator, Some decimal =>
                    let scale := pow10 (List.length de) in
                    Some (Qred (sign (numerator * Npos scale + decimal)
                                # scale))
                | _, _ => None
                end
            end
          else None
      end
  end.

(** ** [_eval] and [_repr] *)

(** The [while i < len(x)] loop of the quoted branch: [xs] is [x[i:]],
    [r] the text decoded so far. *)
Fixpoint eval_quoted (xs : str) (r : str) : option str :=
  match xs with
  | [] => Some r
  | c :: xs' =>
      if c =? ch_backslash then
        match xs' with
        | [] => None
        | e :: xs'' =>
            if e =? ch_n then eval_quoted xs'' (r ++ [ch_newline])
            else if e =? ch_backslash then eval_quoted xs'' (r ++ [ch_backslash])
            else None
        end
      else eval_quoted xs' (r ++ [c])
  end.

(** The [for i, c in enumerate(...)] scan of the numeral branch; [false]
    when it raises. *)
Fixpoint eval_scan (cs : str) (s : bool) : bool :=
  match cs with
  | [] => true
  | c :: cs' =>
      if (c =? ch_dot) || (c =? ch_slash) then
        if s then false else eval_scan cs' true
      else if negb (is_digit c) then false
      else eval_scan cs' s
  end.

Definition _eval (x : str) : option value :=
  if str_eqb x (lit "bool") then Some (VType TBool)
  else if str_eqb x (lit "false") then Some (VBool false)
  else if str_eqb x (lit "num") then Some (VType TNum)
  else if str_eqb x (lit "str") then Some (VType TStr)
  else if str_eqb x (lit "true") then Some (VBool true)
  else if str_eqb x (lit "type") then Some (VType TType)
  else if startswith x [ch_quote] then
    option_map VStr (eval_quoted (skipn 1 x) [])
  else if eval_scan (removeprefix [ch_minus] x) false then
    option_map VNum (Fraction_of_str x)
  else None.

(** The last two branches of [_repr]: [num] for the class Fraction, the
    [__name__] of any other class. *)
Definition type_name (t : ty) : str :=
  match t with
  | TBool => lit "bool"
  | TNum => lit "num"
  | TStr => lit "str"
  | TType => lit "type"
  | TABCMeta => lit "ABCMeta"
  end.

(** The branch of [_repr] for a Fraction; [None] is the ValueError of
    [str_of_int]. *)
Definition repr_num (q : Q) : option str :=
  if (Qden q =? 1)%positive then str_of_int (Qnum q)
  else
    match str_of_int (Qnum q), str_of_int (Zpos (Qden q)) with
    | Some numerator, Some denominator =>
        Some (numerator ++ [ch_slash] ++ denominator)
    | _, _ => None
    end.

(** [_repr(x)]; [None] when it raises ValueError. *)
Definition _repr (x : value) : option str :=
  match x with
  | VBool b => Some (if b then lit "true" else lit "false")
  | VNum q => repr_num q
  | VStr s =>
      Some (ch_quote ::
            replace1 ch_newline [ch_backslash; ch_n]
              (replace1 ch_backslash [ch_backslash; ch_backslash] s))
  | VType t => Some (type_name t)
  end.

(** ** Raised objects *)

Inductive raisable_class := ProgramError | ProgramException.

(** A [ProgramRaisable] instance: its class and its two slots. *)
Record ProgramRaisable := mkRaisable {
  cls : raisable_class;
  name : str;
  desc : str
}.

(** Python exceptions that no handler of ow.py catches: they end the
    interpreter with a traceback. *)
Inductive pyexc :=
| IndexError
| TypeError
| AttributeError
| EOFError
| ValueError
| NameError
| UnicodeEncodeError.

(** ** Machine state

    The two module-level lists, the console, and the source of random
    draws: [randrange] takes [entropy draws] and advances [draws]. *)
Record machine := mkMachine {
  primary : stack;
  secondary : stack;
  stdin : list str;
  stdout : str;
  entropy : nat -> N;
  draws : nat
}.

(** What a [stack_] argument refers to: one of the two global lists. *)
Inductive sref := ref_primary | ref_secondary.

Definition read (stack_ : sref) (m : machine) : stack :=
  match stack_ with
  | ref_primary => primary m
  | ref_secondary => secondary m
  end.

Definition write (stack_ : sref) (s : stack) (m : machine) : machine :=
  match stack_ with
  | ref_primary => mkMachine s (secondary m) (stdin m) (stdout m) (entropy m) (draws m)
  | ref_secondary => mkMachine (primary m) s (stdin m) (stdout m) (entropy m) (draws m)
  end.

Inductive result (A : Type) :=
| Ok (a : A) (m : machine)
| Raised (e : ProgramRaisable) (m : machine)
| Uncaught (e : pyexc) (m : machine)
| OutOfFuel (m : machine).
Arguments Ok {A} a m.
Arguments Raised {A} e m.
Arguments Uncaught {A} e m.
Arguments OutOfFuel {A} m.

Definition M (A : Type) := machine -> result A.

Definition ret {A} (a : A) : M A := fun m => Ok a m.

Definition bind {A B} (c : M A) (k : A -> M B) : M B :=
  fun m =>
    match c m with
    | Ok a m' => k a m'
    | Raised e m' => Raised e m'
    | Uncaught e m' => Uncaught e m'
    | OutOfFuel m' => OutOfFuel m'
    end.

Notation "x <- c ;; k" := (bind c (fun x => k))
  (at level 61, c at next level, right associativity).
Notation "c ;;; k" := (bind c (fun _ => k))
  (at level 61, right associativity).

Definition raise {A} (c : raisable_class) (n d : string) : M A :=
  fun m => Raised (mkRaisable c (lit n) (lit d)) m.

Definition raise_str {A} (c : raisable_class) (n : string) (d : str) : M A :=
  fun m => Raised (mkRaisable c (lit n) d) m.

(** A Python exception that nothing catches. *)
Definition crash {A} (e : pyexc) : M A :=
  fun m => Uncaught e m.

Definition final {A} (r : result A) : machine :=
  match r with
  | Ok _ m | Raised _ m | Uncaught _ m | OutOfFuel m => m
  end.

(** ** [_get] *)

(** The class passed as [t]; the index is the static type of the result. *)
Inductive pytype : Type -> Type :=
| t_bool : pytype bool
| t_num : pytype Q
| t_str : pytype str
| t_object : pytype value.

(** [isinstance(x, t)], returning [x] at the static type when it holds. *)
Definition isinstance {A} (x : value) (t : pytype A) : option A :=
  match t in pytype T return option T with
  | t_bool => match x with VBool b => Some b | _ => None end
  | t_num => match x with VNum q => Some q | _ => None end
  | t_str => match x with VStr s => Some s | _ => None end
  | t_object => Some x
  end.

(** [_repr(t)] *)
Definition pytype_repr {A} (t : pytype A) : str :=
  match t with
  | t_bool => lit "bool"
  | t_num => lit "num"
  | t_str => lit "str"
  | t_object => lit "object"
  end.

Definition append (stack_ : sref) (x : value) : M unit :=
  fun m => Ok tt (write stack_ (x :: read stack_ m) m).

(** [stack_.extend(xs)]: the elements are appended in iteration order, so
    the last of them ends on top. *)
Definition extend (stack_ : sref) (xs : list value) : M unit :=
  fun m => Ok tt (write stack_ (List.rev xs ++ read stack_ m) m).

Definition _get {A} (stack_ : sref) (t : pytype A) : M A :=
  fun m =>
    match read stack_ m with
    | [] => raise ProgramException "PopException" "cannot pop from empty stack" m
    | x :: rest =>
        let m' := write stack_ rest m in
        match isinstance x t with
        | Some a => Ok a m'
        | None =>
            match _repr (VType (type_of x)) with
            | Some type_x =>
                raise_str ProgramException "TypeException"
                  (lit "recieved value of type " ++ type_x
                   ++ lit " (expected " ++ pytype_repr t ++ lit ")") m'
            | None => crash ValueError m'
            end
        end
    end.

(** ** Built-in commands *)

Definition Qltb (a b : Q) : bool := negb (Qle_bool b a).

Definition num_of_Z (z : Z) : value := VNum (z # 1).

Definition add (stack_ : sref) : M unit :=
  a <- _get stack_ t_num ;; b <- _get stack_ t_num ;;
  append stack_ (VNum (Qred (a + b))).

(** [a and b] evaluates [b] only when [a] is true. *)
Definition and_ (stack_ : sref) : M unit :=
  a <- _get stack_ t_bool ;;
  if a then (b <- _get stack_ t_bool ;; append stack_ (VBool b))
  else append stack_ (VBool a).

Definition chr_ (stack_ : sref) : M unit :=
  x <- _get stack_ t_num ;;
  if negb (Qden x =? 1)%positive
     || negb ((0 <=? Qnum x)%Z && (Qnum x <=? 1114111)%Z)
  then
    match _repr (VNum x) with
    | Some repr_x =>
        raise_str ProgramException "UnicodeException"
          ([ch_quote] ++ repr_x ++ [ch_quote]
           ++ lit " is not a valid Unicode code point")
    | None => crash ValueError
    end
  else append stack_ (VStr [Z.to_N (Qnum x)]).

Definition concat (stack_ : sref) : M unit :=
  a <- _get stack_ t_str ;; b <- _get stack_ t_str ;;
  append stack_ (VStr (a ++ b)).

Definition divide (stack_ : sref) : M unit :=
  a <- _get stack_ t_num ;; b <- _get stack_ t_num ;;
  if Qeq_bool b 0
  then raise ProgramException "ZeroDivisionException" "cannot divide by 0"
  else append stack_ (VNum (Qred (a / b))).

Definition drop (stack_ : sref) : M unit :=
  _get stack_ t_object ;;; ret tt.

Definition dupe (stack_ : sref) : M unit :=
  x <- _get stack_ t_object ;; extend stack_ [x; x].

Definition equal (stack_ : sref) : M unit :=
  a <- _get stack_ t_object ;; b <- _get stack_ t_object ;;
  append stack_ (VBool (value_eqb a b)).

Definition eval_ (stack_ : sref) : M unit :=
  x <- _get stack_ t_str ;;
  match _eval x with
  | Some v => append stack_ v
  | None =>
      raise_str ProgramException "LiteralException"
        ([ch_quote] ++ x ++ [ch_quote] ++ lit " is not a valid literal")
  end.

(** [flip] ignores its argument and names the two global lists. *)
Definition flip (stack_ : sref) : M unit :=
  x <- _get ref_primary t_object ;; append ref_secondary x.

Definition greater (stack_ : sref) : M unit :=
  a <- _get stack_ t_num ;; b <- _get stack_ t_num ;;
  append stack_ (VBool (Qltb b a)).

(** [input()]: the next line of standard input, EOFError when there is
    none. *)
Definition input_ (stack_ : sref) : M unit :=
  fun m =>
    match stdin m with
    | [] => Uncaught EOFError m
    | l :: ls =>
        append stack_ (VStr l)
          (mkMachine (primary m) (secondary m) ls (stdout m) (entropy m) (draws m))
    end.

Definition len_ (stack_ : sref) : M unit :=
  x <- _get stack_ t_str ;;
  append stack_ (num_of_Z (Z.of_nat (List.length x))).

Definition less (stack_ : sref) : M unit :=
  a <- _get stack_ t_num ;; b <- _get stack_ t_num ;;
  append stack_ (VBool (Qltb a b)).

Definition multiply (stack_ : sref) : M unit :=
  a <- _get stack_ t_num ;; b <- _get stack_ t_num ;;
  append stack_ (VNum (Qred (a * b))).

Definition not_ (stack_ : sref) : M unit :=
  a <- _get stack_ t_bool ;; append stack_ (VBool (negb a)).

(** [a or b] evaluates [b] only when [a] is false. *)
Definition or_ (stack_ : sref) : M unit :=
  a <- _get stack_ t_bool ;;
  if a then append stack_ (VBool a)
  else (b <- _get stack_ t_bool ;; append stack_ (VBool b)).

Definition ord_ (stack_ : sref) : M unit :=
  x <- _get stack_ t_str ;;
  match x with
  | [c] => append stack_ (num_of_Z (Z.of_N c))
  | _ =>
      raise_str ProgramException "LengthException"
        (lit "recieved string of length " ++ str_of_nat (List.length x)
         ++ lit " (expected 1)")
  end.

(** A code point of the surrogate range, which UTF-8 does not encode. *)
Definition is_surrogate (c : char) : bool := (55296 <=? c) && (c <=? 57343).

(** [print] of [x] with an empty [end]: the text alone goes to standard
    output. The text is encoded as a whole first, so nothing is written
    when that raises UnicodeEncodeError. *)
Definition console_write (x : str) : M unit :=
  fun m =>
    if existsb is_surrogate x then crash UnicodeEncodeError m
    else
      Ok tt (mkMachine (primary m) (secondary m) (stdin m) (stdout m ++ x)
               (entropy m) (draws m)).

Definition print_ (stack_ : sref) : M unit :=
  x <- _get stack_ t_str ;; console_write x.

(** [partial(push, value_)] *)
Definition push (value_ : value) (stack_ : sref) : M unit :=
  append stack_ value_.

(** [randrange(n)]: the next draw reduced below [n]; ValueError for an
    empty range. *)
Definition randrange (n : Z) : M Z :=
  fun m =>
    if (n <=? 0)%Z then Uncaught ValueError m
    else
      Ok (Z.of_N (entropy m (draws m)) mod n)%Z
         (mkMachine (primary m) (secondary m) (stdin m) (stdout m)
            (entropy m) (S (draws m))).

Definition random (stack_ : sref) : M unit :=
  a <- _get stack_ t_num ;; b <- _get stack_ t_num ;;
  if Qeq_bool a b
  then raise ProgramException "RangeException" "random range is of size 0"
  else
    s <- _get stack_ t_num ;;
    if Qeq_bool s 0
    then raise ProgramException "StepSizeException" "step size cannot be 0"
    else if Bool.eqb (Qltb a b) (Qltb 0 s)
    then k <- randrange (Qceiling ((b - a) / s)) ;;
         append stack_ (VNum (Qred (a + (k # 1) * s)))
    else raise ProgramException "StepSizeException"
           "step size sign must match boundary difference sign".

Definition repr_ (stack_ : sref) : M unit :=
  x <- _get stack_ t_object ;;
  match _repr x with
  | Some r => append stack_ (VStr r)
  | None => crash ValueError
  end.

(** Iterating [reversed(s)] yields the characters of [s], last first, each
    as a string of length 1. *)
Definition split (stack_ : sref) : M unit :=
  x <- _get stack_ t_str ;;
  extend stack_ (List.map (fun c => VStr [c]) (List.rev x)).

Definition subtract (stack_ : sref) : M unit :=
  a <- _get stack_ t_num ;; b <- _get stack_ t_num ;;
  append stack_ (VNum (Qred (a - b))).

Definition typeof (stack_ : sref) : M unit :=
  x <- _get stack_ t_object ;; append stack_ (VType (type_of x)).

(** ** Commands and blocks *)

(** The function objects of the module, by the key they have in the
    loader's table. *)
Inductive opname :=
| op_add
| op_and
| op_chr
| op_concat
| op_divide
| op_drop
| op_dupe
| op_equal
| op_eval
| op_flip
| op_greater
| op_input
| op_len
| op_less
| op_multiply
| op_not
| op_or
| op_ord
| op_print
| op_random
| op_repr
| op_split
| op_subtract
| op_typeof.

Definition builtin (o : opname) : sref -> M unit :=
  match o with
  | op_add => add
  | op_and => and_
  | op_chr => chr_
  | op_concat => concat
  | op_divide => divide
  | op_drop => drop
  | op_dupe => dupe
  | op_equal => equal
  | op_eval => eval_
  | op_flip => flip
  | op_greater => greater
  | op_input => input_
  | op_len => len_
  | op_less => less
  | op_multiply => multiply
  | op_not => not_
  | op_or => or_
  | op_ord => ord_
  | op_print => print_
  | op_random => random
  | op_repr => repr_
  | op_split => split
  | op_subtract => subtract
  | op_typeof => typeof
  end.

(** The classes deriving from [Block]. [if_else] carries [len(_if)], the
    bound of its two slices. *)
Inductive block_class := Block | if_ | if_else (len_if : nat) | second | while_.

#[local] Set Warnings "-register-all".

(** A command: a built-in function, a [partial(push, v)], or a block
    instance with the list it holds. *)
Inductive command :=
| Builtin (o : opname)
| Partial (value_ : value)
| Blk (c : block_class) (body : list command).

Fixpoint for_each (run : command -> sref -> M unit)
    (body : list command) (stack_ : sref) : M unit :=
  match body with
  | [] => ret tt
  | c :: body' => run c stack_ ;;; for_each run body' stack_
  end.

(** [command(stack_)]. [fuel] bounds the depth of calls plus the number of
    iterations of [while_] loops; [OutOfFuel] reports the machine at the
    cut. *)
Fixpoint call (fuel : nat) (c : command) (stack_ : sref) : M unit :=
  match fuel with
  | O => fun m => OutOfFuel m
  | S fuel' =>
      match c with
      | Builtin o => builtin o stack_
      | Partial value_ => push value_ stack_
      | Blk Block body => for_each (call fuel') body stack_
      | Blk if_ body =>
          b <- _get stack_ t_bool ;;
          if b then for_each (call fuel') body stack_ else ret tt
      | Blk (if_else n) body =>
          b <- _get stack_ t_bool ;;
          for_each (call fuel') (if b then firstn n body else skipn n body) stack_
      | Blk second body => for_each (call fuel') body ref_secondary
      | Blk while_ body =>
          b <- _get stack_ t_bool ;;
          if b then for_each (call fuel') body stack_ ;;; call fuel' c stack_
          else ret tt
      end
  end.

(** ** Loader *)

Inductive loaded (A : Type) :=
| Loaded (a : A)
| LoadRaised (e : ProgramRaisable)
| LoadUncaught (e : pyexc).
Arguments Loaded {A} a.
Arguments LoadRaised {A} e.
Arguments LoadUncaught {A} e.

Definition program_error {A} (n : string) (d : str) : loaded A :=
  LoadRaised (mkRaisable ProgramError (lit n) d).

(** The dict of the last branch: [None] is KeyError. The three block
    entries are fresh empty instances. *)
Definition command_table (line : str) : option command :=
  if str_eqb line (lit "add") then Some (Builtin op_add)
  else if str_eqb line (lit "and") then Some (Builtin op_and)
  else if str_eqb line (lit "chr") then Some (Builtin op_chr)
  else if str_eqb line (lit "concat") then Some (Builtin op_concat)
  else if str_eqb line (lit "divide") then Some (Builtin op_divide)
  else if str_eqb line (lit "drop") then Some (Builtin op_drop)
  else if str_eqb line (lit "dupe") then Some (Builtin op_dupe)
  else if str_eqb line (lit "equal") then Some (Builtin op_equal)
  else if str_eqb line (lit "eval") then Some (Builtin op_eval)
  else if str_eqb line (lit "flip") then Some (Builtin op_flip)
  else if str_eqb line (lit "greater") then Some (Builtin op_greater)
  else if str_eqb line (lit "if") then Some (Blk if_ [])
  else if str_eqb line (lit "input") then Some (Builtin op_input)
  else if str_eqb line (lit "len") then Some (Builtin op_len)
  else if str_eqb line (lit "less") then Some (Builtin op_less)
  else if str_eqb line (lit "multiply") then Some (Builtin op_multiply)
  else if str_eqb line (lit "not") then Some (Builtin op_not)
  else if str_eqb line (lit "or") then Some (Builtin op_or)
  else if str_eqb line (lit "ord") then Some (Builtin op_ord)
  else if str_eqb line (lit "print") then Some (Builtin op_print)
  else if str_eqb line (lit "random") then Some (Builtin op_random)
  else if str_eqb line (lit "repr") then Some (Builtin op_repr)
  else if str_eqb line (lit "second") then Some (Blk second [])
  else if str_eqb line (lit "split") then Some (Builtin op_split)
  else if str_eqb line (lit "subtract") then Some (Builtin op_subtract)
  else if str_eqb line (lit "typeof") then Some (Builtin op_typeof)
  else if str_eqb line (lit "while") then Some (Blk while_ [])
  else None.

Definition is_second (c : command) : bool :=
  match c with
  | Blk second _ => true
  | _ => false
  end.

(** [target.append(obj)] on a block, with the override of class [second]. *)
Definition block_append (c : block_class) (body : list command)
    (obj : command) : loaded command :=
  match c with
  | second =>
      if is_second obj
      then program_error "SecondError" (lit "cannot nest second blocks")
      else Loaded (Blk c (body ++ [obj]))
  | _ => Loaded (Blk c (body ++ [obj]))
  end.

(** [target[-1] = obj] on a non-empty block, with the override of class
    [second]. *)
Definition block_set_last (c : block_class) (body : list command)
    (obj : command) : loaded command :=
  match c with
  | second =>
      if is_second obj
      then program_error "SecondError" (lit "cannot nest second blocks")
      else Loaded (Blk c (removelast body ++ [obj]))
  | _ => Loaded (Blk c (removelast body ++ [obj]))
  end.

(** [target[-1]] on a list: [None] is IndexError. *)
Definition last_item (body : list command) : option command :=
  match body with
  | [] => None
  | c :: body' => Some (last body' c)
  end.

(** The three branches that follow the descent, for the line left after
    the indentation was removed. A [target] that is not a block has no
    [append] and no subscript. *)
Definition statement (line : str) (target : command) : loaded command :=
  if startswith line (lit "push ") then
    match target with
    | Blk c body =>
        match _eval (skipn 5 line) with
        | Some v => block_append c body (Partial v)
        | None =>
            program_error "LiteralError"
              ([ch_quote] ++ skipn 5 line ++ [ch_quote] ++ lit " is not a valid literal")
        end
    | _ => LoadUncaught AttributeError
    end
  else if str_eqb line (lit "else") then
    match target with
    | Blk c body =>
        match last_item body with
        | None => LoadUncaught IndexError
        | Some (Blk if_ _if) =>
            block_set_last c body (Blk (if_else (List.length _if)) _if)
        | Some _ =>
            program_error "ElseError" (lit "else must have a matching if")
        end
    | _ => LoadUncaught TypeError
    end
  else
    match target with
    | Blk c body =>
        match command_table line with
        | Some obj => block_append c body obj
        | None =>
            program_error "CommandError"
              ([ch_quote] ++ line ++ [ch_quote] ++ lit " is not a recognized command")
        end
    | _ => LoadUncaught AttributeError
    end.

(** Number of leading two-space units and the line without them: the
    effect of [while line.startswith("  "): ... line = line[2:]] on
    [line]. *)
Fixpoint indentation (line : str) : nat * str :=
  match line with
  | a :: b :: line' =>
      if (a =? ch_space) && (b =? ch_space)
      then let (d, rest) := indentation line' in (S d, rest)
      else (O, line)
  | _ => (O, line)
  end.

(** The descent [target = target[-1]], once per unit of indentation, then
    the statement at the target reached. The block is updated in place
    in the source; here the updated child is put back as last item. *)
Fixpoint descend (d : nat) (line : str) (target : command) : loaded command :=
  match d with
  | O => statement line target
  | S d' =>
      match target with
      | Blk c body =>
          match last_item body with
          | None => program_error "IndentationError" (lit "unexpected indent")
          | Some child =>
              match descend d' line child with
              | Loaded child' => Loaded (Blk c (removelast body ++ [child']))
              | LoadRaised e => LoadRaised e
              | LoadUncaught e => LoadUncaught e
              end
          end
      | _ => program_error "IndentationError" (lit "unexpected indent")
      end
  end.

Definition load_line (line : str) (main : command) : loaded command :=
  let (d, rest) := indentation line in descend d rest main.

(** Outcome of the [for line_number, line in enumerate(source, 1)] loop,
    with the value [line_number] is left with ([None]: never bound). *)
Inductive load_result :=
| LoadOk (main : command) (line_number : option nat)
| LoadFail (e : ProgramRaisable) (line_number : nat)
| LoadCrash (e : pyexc) (line_number : nat).

Fixpoint load_from (source : list str) (next : nat) (line_number : option nat)
    (main : command) : load_result :=
  match source with
  | [] => LoadOk main line_number
  | line :: source' =>
      match load_line line main with
      | Loaded main' => load_from source' (S next) (Some next) main'
      | LoadRaised e => LoadFail e next
      | LoadUncaught e => LoadCrash e next
      end
  end.

Definition load (source : list str) : load_result :=
  load_from source 1 None (Blk Block []).

(** The list comprehension over [readlines()]: lines that are a lone
    newline are dropped, the newline is removed from the others. *)
Definition read_source (lines : list str) : list str :=
  List.map (replace1 ch_newline [])
    (List.filter (fun line => negb (str_eqb line [ch_newline])) lines).

(** ** Top level *)

Inductive ending :=
| Finished
| Reported (e : ProgramRaisable)
| Crashed (e : pyexc)
| StillRunning.

(** What a run leaves: program output, the arguments of the successive
    [print(..., file=stderr)] calls, the two stacks and how it ended. *)
Record transcript := mkTranscript {
  t_stdout : str;
  t_stderr : list str;
  t_primary : stack;
  t_secondary : stack;
  t_ending : ending
}.

Definition header (e : ProgramRaisable) (line_number : nat) : str :=
  name e ++ lit "#" ++ str_of_nat line_number ++ lit ": " ++ desc e.

(** A [for v in reversed(stack): print("  " + _repr(v), file=stderr)]
    loop: the lines it prints, and whether it got to its end; it stops at
    the first value on which [_repr] raises. *)
Fixpoint dump_stack (s : stack) : list str * bool :=
  match s with
  | [] => ([], true)
  | v :: s' =>
      match _repr v with
      | Some r =>
          let (lines, done) := dump_stack s' in ((lit "  " ++ r) :: lines, done)
      | None => ([], false)
      end
  end.

(** The dump of the two stacks: what is printed, and whether the dump got
    to its end. *)
Definition dump (m : machine) : list str * bool :=
  let (top, done) := dump_stack (primary m) in
  if done then
    let (bottom, done') := dump_stack (secondary m) in
    ([lit "Primary stack_ ["] ++ top
     ++ [lit "]" ++ [ch_newline] ++ lit "Secondary stack: ["] ++ bottom
     ++ (if done' then [lit "]"] else []),
     done')
  else ([lit "Primary stack_ ["] ++ top, false).

(** The [except ProgramRaisable as e] handler: what it prints, and whether
    it got to its end; when it did not, the ValueError of [_repr] ends
    the interpreter. *)
Definition handler (e : ProgramRaisable) (line_number : nat) (m : machine)
    : list str * bool :=
  match cls e with
  | ProgramException =>
      let (lines, done) := dump m in (header e line_number :: lines, done)
  | ProgramError => ([header e line_number], true)
  end.

Definition boot (input : list str) (rnd : nat -> N) : machine :=
  mkMachine [] [] input [] rnd O.

(** The [else] branch that follows a successful read of the file. *)
Definition main (fuel : nat) (source : list str) (input : list str)
    (rnd : nat -> N) : transcript :=
  let m0 := boot input rnd in
  match load source with
  | LoadFail e n =>
      let (lines, done) := handler e n m0 in
      mkTranscript [] lines [] []
        (if done then Reported e else Crashed ValueError)
  | LoadCrash e _ => mkTranscript [] [] [] [] (Crashed e)
  | LoadOk prog line_number =>
      match call fuel prog ref_primary m0 with
      | Ok _ m => mkTranscript (stdout m) [] (primary m) (secondary m) Finished
      | Raised e m =>
          match line_number with
          | Some n =>
              let (lines, done) := handler e n m in
              mkTranscript (stdout m) lines (primary m) (secondary m)
                (if done then Reported e else Crashed ValueError)
          | None =>
              mkTranscript (stdout m) [] (primary m) (secondary m)
                (Crashed NameError)
          end
      | Uncaught e m =>
          mkTranscript (stdout m) [] (primary m) (secondary m) (Crashed e)
      | OutOfFuel m =>
          mkTranscript (stdout m) [] (primary m) (secondary m) StillRunning
      end
  end.

(** * Vocabulary of the statements *)

(** ** Raised objects *)

(** The objects raised, as the statements name them. *)
Definition PopException : ProgramRaisable :=
  mkRaisable ProgramException (lit "PopException")
    (lit "cannot pop from empty stack").

Definition TypeException (d : str) : ProgramRaisable :=
  mkRaisable ProgramException (lit "TypeException") d.

Definition RangeException : ProgramRaisable :=
  mkRaisable ProgramException (lit "RangeException")
    (lit "random range is of size 0").

Definition StepSizeException (d : string) : ProgramRaisable :=
  mkRaisable ProgramException (lit "StepSizeException") (lit d).

Definition LiteralProblem (c : raisable_class) (n : string) (x : str)
    : ProgramRaisable :=
  mkRaisable c (lit n) ([ch_quote] ++ x ++ [ch_quote] ++ lit " is not a valid literal").

Definition SecondError : ProgramRaisable :=
  mkRaisable ProgramError (lit "SecondError") (lit "cannot nest second blocks").

(** ** Pops of the built-ins *)

(** The list a built-in pops from: [flip] names [primary], every other
    built-in uses its argument. *)
Definition operand (o : opname) (stack_ : sref) : sref :=
  match o with
  | op_flip => ref_primary
  | _ => stack_
  end.

(** The classes asked of [_get] by a built-in, in the order of the calls;
    [None] stands for [object]. *)
Definition requests (o : opname) : list (option ty) :=
  match o with
  | op_add | op_divide | op_greater | op_less | op_multiply | op_subtract =>
      [Some TNum; Some TNum]
  | op_and | op_or => [Some TBool; Some TBool]
  | op_concat => [Some TStr; Some TStr]
  | op_equal => [None; None]
  | op_chr => [Some TNum]
  | op_not => [Some TBool]
  | op_eval | op_len | op_ord | op_print | op_split => [Some TStr]
  | op_drop | op_dupe | op_flip | op_repr | op_typeof => [None]
  | op_random => [Some TNum; Some TNum; Some TNum]
  | op_input => []
  end.

(** [isinstance] against a requested class. *)
Definition instance_of (x : value) (t : option ty) : bool :=
  match t with
  | None => true
  | Some t' => ty_eqb (type_of x) t'
  end.

(** Whether a built-in that popped [x] first reaches its second [_get]:
    [and] stops on false and [or] on true. *)
Definition goes_on (o : opname) (x : value) : bool :=
  match o, x with
  | op_and, VBool b => b
  | op_or, VBool b => negb b
  | _, _ => true
  end.

(** The machine after one draw. *)
Definition drawn (m : machine) : machine :=
  mkMachine (primary m) (secondary m) (stdin m) (stdout m) (entropy m)
    (S (draws m)).

(** ** Literals *)


(** The text of an integer: a minus sign when negative, then the digits
    of the absolute value. *)
Definition sign_text (z : Z) : str :=
  match z with
  | Zneg _ => [ch_minus]
  | _ => []
  end.

(** The two [replace] calls of [_repr], character by character. *)
Definition escape (c : char) : str :=
  if c =? ch_backslash then [ch_backslash; ch_backslash]
  else if c =? ch_newline then [ch_backslash; ch_n]
  else [c].

(** ** Commands and the two stacks *)

(** A built-in function, as opposed to a push or a block. *)
Definition is_builtin (c : command) : bool :=
  match c with
  | Builtin _ => true
  | _ => false
  end.

(** Whether [flip] occurs anywhere in a command. *)
Fixpoint has_flip (c : command) : bool :=
  match c with
  | Builtin op_flip => true
  | Builtin _ | Partial _ => false
  | Blk _ body => existsb has_flip body
  end.

(** No [flip] and no [second] anywhere inside. *)
Fixpoint plain (c : command) : bool :=
  match c with
  | Builtin op_flip => false
  | Builtin _ | Partial _ => true
  | Blk second _ => false
  | Blk _ body => forallb plain body
  end.

(** The machine with its two stacks exchanged. *)
Definition exchange (m : machine) : machine :=
  mkMachine (secondary m) (primary m) (stdin m) (stdout m) (entropy m) (draws m).

(** A result with its machine transformed. *)
Definition on_machine {A} (f : machine -> machine) (r : result A) : result A :=
  match r with
  | Ok a m => Ok a (f m)
  | Raised e m => Raised e (f m)
  | Uncaught e m => Uncaught e (f m)
  | OutOfFuel m => OutOfFuel (f m)
  end.

(** A computation that leaves [primary] as it found it, however it
    ends. *)
Definition keeps_primary {A} (c : M A) : Prop :=
  forall m, primary (final (c m)) = primary m.

(** [c2] does on the machine what [c1] does on the machine with its
    stacks exchanged. *)
Definition mirrored {A} (c1 c2 : M A) : Prop :=
  forall m, c2 m = on_machine exchange (c1 (exchange m)).

(** ** Shape of loaded programs *)

(** The block reached from [target] after [d] steps [target = target[-1]]. *)
Fixpoint cursor (d : nat) (target : command) : option command :=
  match d with
  | O => Some target
  | S d' =>
      match target with
      | Blk _ body =>
          match last_item body with
          | Some child => cursor d' child
          | None => None
          end
      | _ => None
      end
  end.

(** No [second] block has a [second] block among its items. *)
Fixpoint well_nested (c : command) : bool :=
  match c with
  | Blk k body =>
      match k with
      | second => negb (existsb is_second body)
      | _ => true
      end && forallb well_nested body
  | _ => true
  end.

(** Two blocks of the same class. *)
Definition same_class (a b : command) : Prop :=
  match a, b with
  | Blk k _, Blk k' _ => k = k'
  | _, _ => False
  end.

(** A [second] block that contains another one, at any depth.
    [inside] tells whether [c] already lies in a [second] block. *)
Fixpoint nested_second (inside : bool) (c : command) : bool :=
  match c with
  | Blk second body => inside || existsb (nested_second true) body
  | Blk _ body => existsb (nested_second inside) body
  | _ => false
  end.

(** ** Sample machines and programs *)

(** A string above a boolean on the primary stack. *)
Definition abc_machine : machine :=
  mkMachine [VStr (lit "abc"); VBool true] [] [] [] (fun _ => 0) O.

(** 7 on top of 2. *)
Definition seven_two_machine : machine :=
  mkMachine [VNum 7; VNum 2] [] [] [] (fun _ => 0) O.

(** A single string where a number is wanted. *)
Definition lone_string_machine : machine :=
  mkMachine [VStr (lit "x")] [] [] [] (fun _ => 0) O.

(** From the top: 5, 1, -1; every draw is 6. *)
Definition countdown_machine : machine :=
  mkMachine [VNum 5; VNum 1; VNum (-1 # 1)] [] [] [] (fun _ => 6) O.

(** From the top: 1, 5, 2; every draw is 0. *)
Definition step_on_top_machine : machine :=
  mkMachine [VNum 1; VNum 5; VNum 2] [] [] [] (fun _ => 0) O.

(** Values on both stacks. *)
Definition one_two_machine : machine :=
  mkMachine [VNum 1] [VNum 2; VNum 3] [] [] (fun _ => 0) O.

(** A [second] in an [if] in a [second]. *)
Definition second_if_second : list str :=
  [lit "second"; lit "  if"; lit "    second"].

(** [add] on line 1, [push 1] on line 2. *)
Definition add_then_push : list str := [lit "add"; lit "push 1"].

(** ** Vocabulary of the further properties *)

(** A single false. *)
Definition lone_false_machine : machine :=
  mkMachine [VBool false] [] [] [] (fun _ => 0) O.

(** The code point of [a]. *)
Definition letter_machine : machine :=
  mkMachine [VNum 97] [] [] [] (fun _ => 0) O.

(** [c], [n] times in a row. *)
Fixpoint times (n : nat) (c : M unit) : M unit :=
  match n with
  | O => ret tt
  | S n' => c ;;; times n' c
  end.

(** A run that did not stop for lack of fuel. *)
Definition finished {A} (r : result A) : Prop :=
  match r with
  | OutOfFuel _ => False
  | _ => True
  end.

(** The console and the draws of [m'] continue those of [m]: output is
    only added at the end, input is only consumed from the front, draws
    are only counted up. *)
Definition continues (m m' : machine) : Prop :=
  (exists out, stdout m' = stdout m ++ out)
  /\ (exists n, stdin m' = skipn n (stdin m))
  /\ (draws m <= draws m')%nat
  /\ entropy m' = entropy m.

(** How a run may end: the Python exceptions left uncaught are the
    EOFError of [input] on exhausted input, the UnicodeEncodeError of
    [print] and the ValueError of a conversion with too many digits; what
    is raised is a ProgramException. *)
Definition orderly {A} (r : result A) : Prop :=
  match r with
  | Uncaught e m =>
      (e = EOFError /\ stdin m = []) \/ e = UnicodeEncodeError
      \/ e = ValueError
  | Raised e _ => cls e = ProgramException
  | _ => True
  end.

(** A computation that, from every machine, continues the console and
    ends in an orderly way. *)
Definition tame {A} (c : M A) : Prop :=
  forall m, continues m (final (c m)) /\ orderly (c m).

(** Both stacks hold numbers in lowest terms only. *)
Definition canonical_machine (m : machine) : Prop :=
  Forall canonical (primary m) /\ Forall canonical (secondary m).

(** The literals of a command are in lowest terms. *)
Fixpoint canonical_command (c : command) : Prop :=
  match c with
  | Builtin _ => True
  | Partial v => canonical v
  | Blk _ body =>
      (fix all (l : list command) : Prop :=
         match l with
         | [] => True
         | c' :: l' => canonical_command c' /\ all l'
         end) body
  end.

(** What [_get] hands over when the stacks are canonical. *)
Definition canonical_as {A} (t : pytype A) : A -> Prop :=
  match t in pytype T return T -> Prop with
  | t_num => fun q => Qred q = q
  | t_object => canonical
  | _ => fun _ => True
  end.

(** A computation that keeps canonical stacks canonical and whose result
    satisfies [g]. *)
Definition sane {A} (g : A -> Prop) (c : M A) : Prop :=
  forall m, canonical_machine m ->
    canonical_machine (final (c m)) /\ forall a m', c m = Ok a m' -> g a.

(** Every [if_else] block has at least the items its [if] had. *)
Fixpoint slices_in_bounds (c : command) : bool :=
  match c with
  | Blk k body =>
      match k with
      | if_else n => (n <=? List.length body)%nat
      | _ => true
      end && forallb slices_in_bounds body
  | _ => true
  end.

(** The run of a file: its lines as [readlines()] gives them, filtered,
    then loaded and executed. *)
Definition run_file (fuel : nat) (lines input : list str) (rnd : nat -> N)
    : transcript :=
  main fuel (read_source lines) input rnd.

Definition IndentationError : ProgramRaisable :=
  mkRaisable ProgramError (lit "IndentationError") (lit "unexpected indent").

(** A line that is a literal push or the name of a built-in, and the
    command it stands for. *)
Definition plain_statement (line : str) (obj : command) : Prop :=
  (exists tok v, line = lit "push " ++ tok /\ _eval tok = Some v
                 /\ obj = Partial v)
  \/ (exists o, command_table line = Some (Builtin o) /\ obj = Builtin o).

(** A line one level deeper. *)
Definition indented (line : str) : str := ch_space :: ch_space :: line.

(** A computation that never stops for lack of fuel. *)
Definition total {A} (c : M A) : Prop := forall m, finished (c m).

(** No [while_] block anywhere inside. *)
Fixpoint while_free (c : command) : bool :=
  match c with
  | Blk while_ _ => false
  | Blk _ body => forallb while_free body
  | _ => true
  end.

(** Depth of nesting: 0 for a built-in or a push. *)
Fixpoint depth (c : command) : nat :=
  match c with
  | Blk _ body => S (list_max (List.map depth body))
  | _ => O
  end.

(** Number of decimal digits of an integer. *)
Definition digit_count (z : Z) : nat := List.length (str_of_N (Z.abs_N z)).

(** [max_str_digits] ones, a dot and a one. *)
Definition long_numeral : str :=
  List.repeat 49 max_str_digits ++ [ch_dot; 49].

(** The sign a numeral text gives its value: -1 after a minus sign. *)
Definition sign_of (z : Z) : Z :=
  match z with
  | Zneg _ => (-1)%Z
  | _ => 1%Z
  end.

(** * Properties *)

(** ** The two stacks as references *)

Lemma read_write (stack_ : sref) (s : stack) (m : machine) :
  read stack_ (write stack_ s m) = s.
Proof. destruct stack_; reflexivity. Qed.

Lemma write_write (stack_ : sref) (s s' : stack) (m : machine) :
  write stack_ s (write stack_ s' m) = write stack_ s m.
Proof. destruct stack_; reflexivity. Qed.

Lemma get_cons {A} (stack_ : sref) (t : pytype A) (m : machine)
    (x : value) (rest : stack) (a : A) :
  read stack_ m = x :: rest ->
  isinstance x t = Some a ->
  _get stack_ t m = Ok a (write stack_ rest m).
Proof. intros Hr Hi. unfold _get. now rewrite Hr, Hi. Qed.

Lemma get_nil {A} (stack_ : sref) (t : pytype A) (m : machine) :
  read stack_ m = [] ->
  _get stack_ t m =
  Raised (mkRaisable ProgramException (lit "PopException")
            (lit "cannot pop from empty stack")) m.
Proof. intros Hr. unfold _get. now rewrite Hr. Qed.

Lemma Qltb_lt (a b : Q) : Qltb a b = true <-> (a < b)%Q.
Proof.
  unfold Qltb. rewrite negb_true_iff. split; intros H.
  - apply Qnot_le_lt. intros Hle. apply Qle_bool_iff in Hle. congruence.
  - destruct (Qle_bool b a) eqn:E; [|reflexivity].
    apply Qle_bool_iff in E. exfalso. exact (Qlt_not_le _ _ H E).
Qed.

(** ** split *)

(** Appending one by one is what [extend] does. *)
Lemma extend_by_appends (stack_ : sref) (xs : list value) (m : machine) :
  extend stack_ xs m =
  fold_left (fun k x => k ;;; append stack_ x) xs (ret tt) m.
Proof.
  revert m. induction xs as [|x xs IH] using rev_ind; intros m.
  - unfold extend. simpl. unfold ret. destruct stack_, m; reflexivity.
  - rewrite fold_left_app. simpl. unfold bind at 1. rewrite <- IH.
    unfold extend, append. rewrite rev_app_distr, read_write, write_write.
    reflexivity.
Qed.

(** C9. For every string [s] on top of the stack, [split] pops it and
    pushes its characters one at a time as strings of length 1, last
    character first; the stack then holds, from the top, the characters of
    [s] from left to right ([len(s)] of them) above what was below [s]. *)
Theorem split_leftmost_on_top (stack_ : sref) (m : machine) (s : str)
    (rest : stack) :
  read stack_ m = VStr s :: rest ->
  split stack_ m
  = Ok tt (write stack_ (List.map (fun c => VStr [c]) s ++ rest) m)
  /\ split stack_ m
     = fold_left (fun k c => k ;;; append stack_ (VStr [c])) (List.rev s)
         (ret tt) (write stack_ rest m)
  /\ List.length (List.map (fun c => VStr [c]) s) = List.length s.
Proof.
  intros Hr. unfold split, bind.
  rewrite (get_cons stack_ t_str m (VStr s) rest s Hr eq_refl).
  repeat split.
  - unfold extend. rewrite read_write, write_write.
    now rewrite <- map_rev, rev_involutive.
  - rewrite extend_by_appends.
    generalize (write stack_ rest m) as m'. generalize (ret tt) as k0.
    induction (List.rev s) as [|c cs IH]; intros k0 m'; simpl; [reflexivity|].
    apply IH.
  - apply length_map.
Qed.

Lemma split_leftmost_on_top_witness :
  read ref_primary abc_machine = [VStr (lit "abc"); VBool true]
  /\ split ref_primary abc_machine
     = Ok tt (write ref_primary
                [VStr (lit "a"); VStr (lit "b"); VStr (lit "c"); VBool true]
                abc_machine).
Proof.
  split; [reflexivity|].
  exact (proj1 (split_leftmost_on_top ref_primary abc_machine
                  (lit "abc") [VBool true] eq_refl)).
Defined.

(** ** Order of the operands *)

(** C10. In every order-sensitive binary built-in the value popped first
    (the top of the stack before the call) is the left operand:
    [subtract] pushes top minus second, [divide] pushes top divided by
    second and its zero check is on the second value popped,
    [greater]/[less] compare top against second, and [concat] pushes the
    top string followed by the second. *)
Theorem first_popped_is_left_operand (stack_ : sref) (m : machine)
    (rest : stack) :
  (forall a b : Q, read stack_ m = VNum a :: VNum b :: rest ->
     subtract stack_ m
     = Ok tt (write stack_ (VNum (Qred (a - b)) :: rest) m)
     /\ (Qeq_bool b 0 = true ->
         divide stack_ m
         = Raised (mkRaisable ProgramException (lit "ZeroDivisionException")
                     (lit "cannot divide by 0")) (write stack_ rest m))
     /\ (Qeq_bool b 0 = false ->
         divide stack_ m
         = Ok tt (write stack_ (VNum (Qred (a / b)) :: rest) m))
     /\ (exists g, greater stack_ m = Ok tt (write stack_ (VBool g :: rest) m)
                   /\ (g = true <-> (a > b)%Q))
     /\ (exists l, less stack_ m = Ok tt (write stack_ (VBool l :: rest) m)
                   /\ (l = true <-> (a < b)%Q)))
  /\ (forall a b : str, read stack_ m = VStr a :: VStr b :: rest ->
        concat stack_ m = Ok tt (write stack_ (VStr (a ++ b) :: rest) m)).
Proof.
  split.
  - intros a b Hr.
    assert (G1 : _get stack_ t_num m = Ok a (write stack_ (VNum b :: rest) m))
      by (apply (get_cons stack_ t_num m (VNum a)); [exact Hr | reflexivity]).
    assert (G2 : _get stack_ t_num (write stack_ (VNum b :: rest) m)
                 = Ok b (write stack_ rest m)).
    { rewrite (get_cons stack_ t_num _ (VNum b) rest b);
        [now rewrite write_write | apply read_write | reflexivity]. }
    repeat split.
    + unfold subtract, bind. rewrite G1, G2. unfold append.
      now rewrite read_write, write_write.
    + intros Hz. unfold divide, bind. now rewrite G1, G2, Hz.
    + intros Hz. unfold divide, bind. rewrite G1, G2, Hz. unfold append.
      now rewrite read_write, write_write.
    + exists (Qltb b a). split; [|apply Qltb_lt].
      unfold greater, bind. rewrite G1, G2. unfold append.
      now rewrite read_write, write_write.
    + exists (Qltb a b). split; [|apply Qltb_lt].
      unfold less, bind. rewrite G1, G2. unfold append.
      now rewrite read_write, write_write.
  - intros a b Hr. unfold concat, bind.
    rewrite (get_cons stack_ t_str m (VStr a) (VStr b :: rest) a Hr eq_refl).
    rewrite (get_cons stack_ t_str _ (VStr b) rest b (read_write _ _ _) eq_refl).
    unfold append. now rewrite !write_write, read_write.
Qed.

Lemma first_popped_is_left_operand_witness :
  read ref_primary seven_two_machine = [VNum 7; VNum 2]
  /\ subtract ref_primary seven_two_machine
     = Ok tt (write ref_primary [VNum (Qred (7 - 2))] seven_two_machine).
Proof.
  split; [reflexivity|].
  exact (proj1 (proj1 (first_popped_is_left_operand ref_primary
                         seven_two_machine []) 7%Q 2%Q eq_refl)).
Defined.

(** ** Pops and their exceptions *)

Lemma descend_raises_program_error (d : nat) (line : str) (target : command)
    (e : ProgramRaisable) :
  descend d line target = LoadRaised e -> cls e = ProgramError.
Proof.
  revert target. induction d as [|d IH]; intros target H.
  - simpl in H.
    unfold statement, block_append, block_set_last, program_error in H.
    repeat match type of H with
           | context [if ?b then _ else _] => destruct b
           | context [match ?x with _ => _ end] => destruct x
           end; inversion H; reflexivity.
  - simpl in H. destruct target as [| |c body]; try (inversion H; reflexivity).
    destruct (last_item body) as [child|]; [|inversion H; reflexivity].
    destruct (descend d line child) eqn:E; inversion H; subst.
    exact (IH _ E).
Qed.

Lemma load_raises_program_error (source : list str) (e : ProgramRaisable)
    (n : nat) :
  load source = LoadFail e n -> cls e = ProgramError.
Proof.
  unfold load. generalize 1%nat (@None nat) (Blk Block []).
  induction source as [|line source IH]; intros k ln prog H; simpl in H.
  - discriminate.
  - unfold load_line in H. destruct (indentation line) as [d rest].
    destruct (descend d rest prog) eqn:E.
    + exact (IH _ _ _ H).
    + inversion H; subst. exact (descend_raises_program_error _ _ _ _ E).
    + discriminate.
Qed.

Ltac run_builtin :=
  unfold builtin, add, and_, chr_, concat, divide, drop, dupe, equal, eval_,
    flip, greater, len_, less, multiply, not_, or_, ord_, print_, random,
    repr_, split, subtract, typeof, bind, _get, raise, raise_str,
    PopException, TypeException;
  simpl.

(** C8. For every built-in and every state of the stacks: a [_get] that
    finds its list empty raises PopException and one that pops a value
    that is not an instance of the class asked raises TypeException, at
    the first, the second and (for [random]) the third pop alike. Both are
    instances of ProgramException, and the loader only ever raises
    ProgramError. *)
Theorem pop_and_type_exceptions (o : opname) (stack_ : sref) (m : machine) :
  (forall t more,
      requests o = t :: more -> read (operand o stack_) m = [] ->
      builtin o stack_ m = Raised PopException m)
  /\ (forall t more x rest,
      requests o = t :: more -> read (operand o stack_) m = x :: rest ->
      instance_of x t = false ->
      exists d, builtin o stack_ m
                = Raised (TypeException d) (write (operand o stack_) rest m))
  /\ (forall t t' more x,
      requests o = t :: t' :: more -> read (operand o stack_) m = [x] ->
      instance_of x t = true -> goes_on o x = true ->
      builtin o stack_ m
      = Raised PopException (write (operand o stack_) [] m))
  /\ (forall t t' more x y rest,
      requests o = t :: t' :: more ->
      read (operand o stack_) m = x :: y :: rest ->
      instance_of x t = true -> goes_on o x = true ->
      instance_of y t' = false ->
      exists d, builtin o stack_ m
                = Raised (TypeException d) (write (operand o stack_) rest m))
  /\ (forall a b,
      o = op_random -> read stack_ m = [VNum a; VNum b] ->
      Qeq_bool a b = false ->
      builtin o stack_ m = Raised PopException (write stack_ [] m))
  /\ (forall a b z rest,
      o = op_random -> read stack_ m = VNum a :: VNum b :: z :: rest ->
      Qeq_bool a b = false -> instance_of z (Some TNum) = false ->
      exists d, builtin o stack_ m
                = Raised (TypeException d) (write stack_ rest m))
  /\ cls PopException = ProgramException
  /\ (forall d, cls (TypeException d) = ProgramException)
  /\ (forall source e n, load source = LoadFail e n -> cls e = ProgramError).
Proof.
  repeat apply conj.
  - intros t more Hq Hr.
    destruct o; try discriminate Hq; destruct stack_, m; simpl in Hr; subst;
      reflexivity.
  - intros t more x rest Hq Hr Hi.
    destruct o; try discriminate Hq; inversion Hq; subst; clear Hq;
      destruct stack_, m; simpl in Hr; subst;
      destruct x as [[|]| | |[]]; try discriminate Hi; run_builtin; eexists; reflexivity.
  - intros t t' more x Hq Hr Hi Hg.
    destruct o; try discriminate Hq; inversion Hq; subst; clear Hq;
      destruct stack_, m; simpl in Hr; subst;
      destruct x as [[|]| | |[]]; try discriminate Hi; try discriminate Hg;
      reflexivity.
  - intros t t' more x y rest Hq Hr Hi Hg Hi'.
    destruct o; try discriminate Hq; inversion Hq; subst; clear Hq;
      destruct stack_, m; simpl in Hr; subst;
      destruct x as [[|]| | |[]]; try discriminate Hi; try discriminate Hg;
      destruct y as [[|]| | |[]]; try discriminate Hi'; run_builtin; eexists; reflexivity.
  - intros a b -> Hr Hab.
    destruct stack_, m; simpl in Hr; subst; run_builtin; rewrite Hab;
      reflexivity.
  - intros a b z rest -> Hr Hab Hi.
    destruct stack_, m; simpl in Hr; subst; destruct z as [[|]| | |[]]; try discriminate Hi;
      run_builtin; rewrite Hab; eexists; reflexivity.
  - reflexivity.
  - reflexivity.
  - exact load_raises_program_error.
Qed.

Lemma pop_and_type_exceptions_witness :
  requests op_add = [Some TNum; Some TNum]
  /\ read (operand op_add ref_primary) lone_string_machine = [VStr (lit "x")]
  /\ instance_of (VStr (lit "x")) (Some TNum) = false
  /\ exists d, builtin op_add ref_primary lone_string_machine
               = Raised (TypeException d)
                   (write (operand op_add ref_primary) [] lone_string_machine).
Proof.
  repeat split.
  exact (proj1 (proj2 (pop_and_type_exceptions op_add ref_primary
                         lone_string_machine))
           (Some TNum) [Some TNum] (VStr (lit "x")) [] eq_refl eq_refl eq_refl).
Defined.

(** ** random *)

Lemma Qeq_bool_false (a b : Q) : Qeq_bool a b = false -> ~ (a == b)%Q.
Proof. intros H E. apply Qeq_bool_iff in E. congruence. Qed.

Lemma Qltb_false_neq (a b : Q) :
  Qltb a b = false -> Qeq_bool a b = false -> (b < a)%Q.
Proof.
  intros Hl He. apply Qeq_bool_false in He.
  destruct (Q_dec a b) as [[H|H]|H].
  - apply Qltb_lt in H. congruence.
  - exact H.
  - contradiction.
Qed.

(** With distinct bounds and a step of the sign of their difference the
    number of steps is positive, so [randrange] has a non-empty range. *)
Lemma range_size_positive (a b s : Q) :
  Qeq_bool a b = false -> Qeq_bool s 0 = false ->
  Bool.eqb (Qltb a b) (Qltb 0 s) = true ->
  (0 < Qceiling ((b - a) / s))%Z.
Proof.
  intros Hab Hs Hsign. apply eqb_prop in Hsign.
  assert (Hpos : (0 < (b - a) / s)%Q).
  { destruct (Qltb a b) eqn:Eab.
    - symmetry in Hsign. apply Qltb_lt in Eab, Hsign.
      apply Qlt_shift_div_l; [exact Hsign|].
      rewrite Qmult_0_l. unfold Qminus. now rewrite <- Qlt_minus_iff.
    - symmetry in Hsign.
      assert (Hba : (b < a)%Q) by now apply Qltb_false_neq.
      assert (Hs0 : (s < 0)%Q).
      { apply Qltb_false_neq; [exact Hsign|].
        destruct (Qeq_bool 0 s) eqn:E; [|reflexivity].
        apply Qeq_bool_iff in E. apply Qeq_bool_false in Hs.
        exfalso. apply Hs. now symmetry. }
      assert (E : ((b - a) / s == (a - b) / (- s))%Q).
      { field. intros Hz. apply Qeq_bool_false in Hs. contradiction. }
      rewrite E. apply Qlt_shift_div_l.
      + apply (Qopp_lt_compat s 0) in Hs0. exact Hs0.
      + rewrite Qmult_0_l. unfold Qminus. now rewrite <- Qlt_minus_iff. }
  rewrite Zlt_Qlt. eapply Qlt_le_trans; [exact Hpos | apply Qle_ceiling].
Qed.

(** C4, as the code has it. [random] pops the start of the range first,
    then its end, then the step. Equal bounds raise RangeException before
    the step is popped; a step of 0, or one whose sign differs from that
    of end minus start, raises StepSizeException; otherwise the value
    pushed is start + k * step for the draw k below
    ceil((end - start) / step). *)
Theorem random_pops_bounds_then_step (stack_ : sref) (m : machine)
    (a b : Q) (below : stack) :
  read stack_ m = VNum a :: VNum b :: below ->
  (Qeq_bool a b = true ->
   random stack_ m = Raised RangeException (write stack_ below m))
  /\ (forall s rest,
      Qeq_bool a b = false -> below = VNum s :: rest ->
      (Qeq_bool s 0 = true ->
       random stack_ m
       = Raised (StepSizeException "step size cannot be 0")
           (write stack_ rest m))
      /\ (Qeq_bool s 0 = false ->
          Bool.eqb (Qltb a b) (Qltb 0 s) = false ->
          random stack_ m
          = Raised (StepSizeException
                      "step size sign must match boundary difference sign")
              (write stack_ rest m))
      /\ (Qeq_bool s 0 = false ->
          Bool.eqb (Qltb a b) (Qltb 0 s) = true ->
          let n := Qceiling ((b - a) / s) in
          let k := (Z.of_N (entropy m (draws m)) mod n)%Z in
          (0 <= k < n)%Z
          /\ random stack_ m
             = Ok tt (drawn (write stack_
                               (VNum (Qred (a + (k # 1) * s)) :: rest) m)))).
Proof.
  intros Hr.
  assert (G1 : _get stack_ t_num m = Ok a (write stack_ (VNum b :: below) m))
    by (apply (get_cons stack_ t_num m (VNum a)); [exact Hr | reflexivity]).
  assert (G2 : _get stack_ t_num (write stack_ (VNum b :: below) m)
               = Ok b (write stack_ below m)).
  { rewrite (get_cons stack_ t_num _ (VNum b) below b);
      [now rewrite write_write | apply read_write | reflexivity]. }
  split.
  - intros Hab. unfold random, bind. now rewrite G1, G2, Hab.
  - intros s rest Hab ->.
    assert (G3 : _get stack_ t_num (write stack_ (VNum s :: rest) m)
                 = Ok s (write stack_ rest m)).
    { rewrite (get_cons stack_ t_num _ (VNum s) rest s);
        [now rewrite write_write | apply read_write | reflexivity]. }
    repeat split.
    + intros Hs. unfold random, bind. now rewrite G1, G2, Hab, G3, Hs.
    + intros Hs Hsign. unfold random, bind.
      now rewrite G1, G2, Hab, G3, Hs, Hsign.
    + apply Z.mod_pos_bound. now apply range_size_positive.
    + apply Z.mod_pos_bound. now apply range_size_positive.
    + pose proof (range_size_positive a b s Hab H H0) as Hn.
      apply Z.leb_gt in Hn.
      unfold random, bind. rewrite G1, G2, Hab, G3, H, H0.
      unfold randrange. rewrite Hn. unfold append.
      destruct stack_, m; reflexivity.
Qed.

Lemma random_pops_bounds_then_step_witness :
  read ref_primary countdown_machine = [VNum 5; VNum 1; VNum (-1 # 1)]
  /\ random ref_primary countdown_machine
     = Ok tt (mkMachine [VNum 3] [] [] [] (fun _ => 6) 1%nat).
Proof.
  split; [reflexivity|].
  exact (proj2 (proj2 (proj2
           (proj2 (random_pops_bounds_then_step ref_primary countdown_machine
                     5%Q 1%Q [VNum (-1 # 1)] eq_refl)
              (-1 # 1)%Q [] eq_refl eq_refl)) eq_refl eq_refl)).
Defined.

(** C4 as stated fails: with 1 on top of 5 on top of 2, reading the top as
    the step and the two below as upper and lower bound would push one of
    2, 3, 4; the code takes 1 as start, 5 as end and 2 as step and pushes
    1. *)
Lemma random_step_first_counterexample :
  ~ (forall stack_ m step upper lower rest,
        read stack_ m = VNum step :: VNum upper :: VNum lower :: rest ->
        Qeq_bool upper lower = false -> Qeq_bool step 0 = false ->
        Bool.eqb (Qltb lower upper) (Qltb 0 step) = true ->
        exists k, (0 <= k < Qceiling ((upper - lower) / step))%Z
                  /\ random stack_ m
                     = Ok tt (drawn (write stack_
                                (VNum (Qred (lower + (k # 1) * step)) :: rest)
                                m))).
Proof.
  intros H.
  destruct (H ref_primary step_on_top_machine 1%Q 5%Q 2%Q [] eq_refl eq_refl
              eq_refl eq_refl) as [k [Hk E]].
  change (Qceiling ((5 - 2) / 1)) with 3%Z in Hk.
  assert (Hc : k = 0%Z \/ k = 1%Z \/ k = 2%Z) by lia.
  destruct Hc as [-> | [-> | ->]]; vm_compute in E; discriminate E.
Qed.

(** ** Quoted literals *)

Lemma eval_quote (body : str) :
  _eval (ch_quote :: body) = option_map VStr (eval_quoted body []).
Proof. reflexivity. Qed.





(** ** Decimal text *)

Section DecimalText.

Let digit_step (acc c : N) : N := 10 * acc + (c - 48).

(** Reading digits with an accumulator, in the terms of the standard
    conversions. *)
Let resume (acc : N) (d : Decimal.uint) : N :=
  match acc with
  | N0 => N.of_uint d
  | Npos p => Npos (Pos.of_uint_acc d p)
  end.

Lemma resume_digit (k : N) (p : positive) (d : Decimal.uint) :
  resume (10 * Npos p + k) d
  = Npos (Pos.of_uint_acc d (match k with
                             | N0 => 10 * p
                             | Npos q => q + 10 * p
                             end)%positive).
Proof.
  destruct k as [|q]; [reflexivity|].
  change (10 * N.pos p + N.pos q) with (N.pos (10 * p + q)).
  unfold resume. now rewrite Pos.add_comm.
Qed.

Lemma read_uint_digits (d : Decimal.uint) :
  forall acc,
    fold_left digit_step (List.map (fun k => 48 + k) (uint_digits d)) acc
    = resume acc d.
Proof.
  induction d; intros acc; simpl;
    try (rewrite IHd; unfold digit_step;
         destruct acc;
         [reflexivity
         | match goal with
           | |- context [10 * N.pos ?p + (?c - 48)] =>
               let k := eval compute in (c - 48) in
               change (c - 48) with k; rewrite resume_digit; reflexivity
           end]).
  destruct acc; reflexivity.
Qed.

Lemma digits_val_str_of_N (n : N) : digits_val (str_of_N n) = n.
Proof.
  unfold digits_val, str_of_N.
  change (fun acc c : N => 10 * acc + (c - 48)) with digit_step.
  rewrite read_uint_digits. simpl. apply DecimalN.Unsigned.of_to.
Qed.

Lemma uint_digits_are_digits (d : Decimal.uint) :
  forallb is_digit (List.map (fun k => 48 + k) (uint_digits d)) = true.
Proof. induction d; simpl; auto. Qed.

Lemma str_of_N_digits (n : N) : forallb is_digit (str_of_N n) = true.
Proof. apply uint_digits_are_digits. Qed.

Lemma str_of_N_not_empty (n : N) : str_of_N n <> [].
Proof.
  intros E. pose proof (digits_val_str_of_N n) as H. rewrite E in H.
  simpl in H. subst n. discriminate E.
Qed.

End DecimalText.

(** ** Round trip through [_repr] *)

Lemma digit_bounds (c : char) : is_digit c = true <-> 48 <= c <= 57.
Proof.
  unfold is_digit. rewrite andb_true_iff, !N.leb_le. tauto.
Qed.

Lemma digit_not_separator (c : char) :
  is_digit c = true -> (c =? ch_dot) || (c =? ch_slash) = false.
Proof.
  intros H. apply digit_bounds in H. apply orb_false_iff.
  unfold ch_dot, ch_slash. split; apply N.eqb_neq; lia.
Qed.

Lemma digit_not_minus (c : char) : is_digit c = true -> (c =? ch_minus) = false.
Proof.
  intros H. apply digit_bounds in H. unfold ch_minus. apply N.eqb_neq. lia.
Qed.

Lemma span_digits_all (ds : str) :
  forallb is_digit ds = true -> span_digits ds = (ds, []).
Proof.
  induction ds as [|c ds IH]; simpl; [reflexivity|].
  intros H. apply andb_true_iff in H as [Hc Hds].
  now rewrite Hc, (IH Hds).
Qed.

Lemma span_digits_until (ds : str) (c : char) (rest : str) :
  forallb is_digit ds = true -> is_digit c = false ->
  span_digits (ds ++ c :: rest) = (ds, c :: rest).
Proof.
  intros Hds Hc. induction ds as [|k ds IH]; simpl.
  - now rewrite Hc.
  - simpl in Hds. apply andb_true_iff in Hds as [Hk Hds].
    now rewrite Hk, (IH Hds).
Qed.

Lemma eval_scan_digits (ds rest : str) (s : bool) :
  forallb is_digit ds = true ->
  eval_scan (ds ++ rest) s = eval_scan rest s.
Proof.
  induction ds as [|c ds IH]; simpl; [reflexivity|].
  intros H. apply andb_true_iff in H as [Hc Hds].
  now rewrite (digit_not_separator c Hc), Hc, (IH Hds).
Qed.

(** A token whose first character is a digit or a minus sign reaches the
    numeral branch of [_eval]. *)
Lemma eval_numeral_branch (c : char) (x : str) :
  is_digit c || (c =? ch_minus) = true ->
  _eval (c :: x)
  = if eval_scan (removeprefix [ch_minus] (c :: x)) false
    then option_map VNum (Fraction_of_str (c :: x))
    else None.
Proof.
  intros H. apply orb_true_iff in H as [H|H].
  - apply digit_bounds in H.
    assert (E : c = 48 \/ c = 49 \/ c = 50 \/ c = 51 \/ c = 52 \/ c = 53
                \/ c = 54 \/ c = 55 \/ c = 56 \/ c = 57) by lia.
    repeat (destruct E as [-> | E]; [reflexivity|]). subst c. reflexivity.
  - apply N.eqb_eq in H. subst c. reflexivity.
Qed.

Lemma int_text_parts (z : Z) :
  int_text z = sign_text z ++ str_of_N (Z.abs_N z).
Proof. destruct z; reflexivity. Qed.

Lemma str_of_int_some (z : Z) (s : str) :
  str_of_int z = Some s ->
  s = int_text z /\ (digit_count z <= max_str_digits)%nat.
Proof.
  unfold str_of_int, digit_count.
  destruct (Nat.leb_spec (List.length (str_of_N (Z.abs_N z))) max_str_digits);
    [|discriminate].
  intros E. split; [congruence | assumption].
Qed.

Lemma str_of_int_none (z : Z) :
  str_of_int z = None <-> (max_str_digits < digit_count z)%nat.
Proof.
  unfold str_of_int, digit_count.
  destruct (Nat.leb_spec (List.length (str_of_N (Z.abs_N z))) max_str_digits);
    split; try discriminate; try reflexivity; lia.
Qed.

Lemma str_of_int_short (z : Z) :
  (digit_count z <= max_str_digits)%nat -> str_of_int z = Some (int_text z).
Proof.
  intros H. destruct (str_of_int z) as [s|] eqn:E.
  - apply str_of_int_some in E as [-> _]. reflexivity.
  - apply str_of_int_none in E. lia.
Qed.

Lemma int_of_digits_short (ds : str) :
  (List.length ds <= max_str_digits)%nat ->
  int_of_digits ds = Some (digits_val ds).
Proof.
  intros H. unfold int_of_digits.
  destruct (Nat.leb_spec (List.length ds) max_str_digits); [reflexivity | lia].
Qed.

Lemma int_of_digits_long (ds : str) :
  (max_str_digits < List.length ds)%nat -> int_of_digits ds = None.
Proof.
  intros H. unfold int_of_digits.
  destruct (Nat.leb_spec (List.length ds) max_str_digits); [lia | reflexivity].
Qed.

Section SignedDigits.

Variable z : Z.
Variable ds : str.
Hypothesis ds_digits : forallb is_digit ds = true.
Hypothesis ds_not_empty : ds <> [].
Hypothesis ds_value : digits_val ds = Z.abs_N z.

Let signed (n : N) : Z :=
  if startswith (sign_text z ++ ds) [ch_minus] then (- Z.of_N n)%Z
  else Z.of_N n.

Lemma first_of_signed :
  exists c x, sign_text z ++ ds = c :: x
              /\ is_digit c || (c =? ch_minus) = true.
Proof.
  destruct z; simpl.
  1,2: destruct ds as [|c x]; [contradiction|];
       exists c, x; split; [reflexivity|];
       simpl in ds_digits; apply andb_true_iff in ds_digits as [-> _];
       reflexivity.
  exists ch_minus, ds. split; reflexivity.
Qed.

Lemma removeprefix_signed (rest : str) :
  removeprefix [ch_minus] (sign_text z ++ ds ++ rest) = ds ++ rest.
Proof.
  destruct z; simpl; try reflexivity.
  all: destruct ds as [|c x]; [contradiction|];
       simpl in ds_digits; apply andb_true_iff in ds_digits as [Hc _];
       unfold removeprefix; simpl; now rewrite (digit_not_minus c Hc).
Qed.

Lemma startswith_signed (rest : str) :
  startswith (sign_text z ++ ds ++ rest) [ch_minus]
  = match z with Zneg _ => true | _ => false end.
Proof.
  destruct z; simpl; try reflexivity.
  all: destruct ds as [|c x]; [contradiction|];
       simpl in ds_digits; apply andb_true_iff in ds_digits as [Hc _];
       simpl; now rewrite (digit_not_minus c Hc).
Qed.

Lemma signed_value (rest : str) :
  (if startswith (sign_text z ++ ds ++ rest) [ch_minus]
   then (- Z.of_N (digits_val ds))%Z else Z.of_N (digits_val ds)) = z.
Proof.
  rewrite startswith_signed, ds_value. destruct z; simpl; reflexivity.
Qed.

(** [Fraction] of the text of an integer. *)
Lemma Fraction_of_int_text :
  (List.length ds <= max_str_digits)%nat ->
  Fraction_of_str (sign_text z ++ ds) = Some (Qred (z # 1)).
Proof.
  intros ds_short. unfold Fraction_of_str.
  pose proof (removeprefix_signed []) as R. rewrite app_nil_r in R.
  pose proof (signed_value []) as V. rewrite app_nil_r in V.
  rewrite R, (span_digits_all ds ds_digits).
  rewrite (int_of_digits_short ds ds_short), V.
  destruct ds; [contradiction | reflexivity].
Qed.

(** [Fraction] of the text of a ratio. *)
Lemma Fraction_of_ratio_text (de : str) (d : positive) :
  forallb is_digit de = true -> digits_val de = Npos d ->
  (List.length ds <= max_str_digits)%nat ->
  (List.length de <= max_str_digits)%nat ->
  Fraction_of_str (sign_text z ++ ds ++ ch_slash :: de)
  = Some (Qred (z # d)).
Proof.
  intros Hde Hd ds_short Hshort. unfold Fraction_of_str.
  rewrite (removeprefix_signed (ch_slash :: de)).
  rewrite (span_digits_until ds ch_slash de ds_digits eq_refl).
  rewrite (span_digits_all de Hde).
  rewrite (int_of_digits_short ds ds_short), (int_of_digits_short de Hshort).
  rewrite (signed_value (ch_slash :: de)), Hd.
  change (ch_slash =? ch_slash) with true. cbv iota.
  destruct ds; [contradiction|].
  destruct de; [discriminate Hd | reflexivity].
Qed.

Lemma eval_int_text :
  (List.length ds <= max_str_digits)%nat ->
  _eval (sign_text z ++ ds) = Some (VNum (Qred (z # 1))).
Proof.
  intros ds_short. destruct first_of_signed as [c [x [E Hc]]].
  rewrite E, (eval_numeral_branch c x Hc), <- E.
  pose proof (removeprefix_signed []) as R. rewrite app_nil_r in R.
  rewrite R. rewrite <- (app_nil_r ds) at 1.
  rewrite (eval_scan_digits ds [] false ds_digits).
  simpl eval_scan. cbv iota. now rewrite (Fraction_of_int_text ds_short).
Qed.

Lemma eval_ratio_text (de : str) (d : positive) :
  forallb is_digit de = true -> digits_val de = Npos d ->
  (List.length ds <= max_str_digits)%nat ->
  (List.length de <= max_str_digits)%nat ->
  _eval (sign_text z ++ ds ++ ch_slash :: de) = Some (VNum (Qred (z # d))).
Proof.
  intros Hde Hd ds_short Hshort.
  destruct first_of_signed as [c [x [E Hc]]].
  assert (E' : sign_text z ++ ds ++ ch_slash :: de
               = c :: x ++ ch_slash :: de)
    by (rewrite app_assoc, E; reflexivity).
  rewrite E', (eval_numeral_branch c _ Hc), <- E'.
  rewrite (removeprefix_signed (ch_slash :: de)).
  rewrite (eval_scan_digits ds _ false ds_digits).
  change (eval_scan (ch_slash :: de) false) with (eval_scan de true).
  rewrite <- (app_nil_r de) at 1.
  rewrite (eval_scan_digits de [] true Hde).
  simpl eval_scan. cbv iota.
  now rewrite (Fraction_of_ratio_text de d Hde Hd ds_short Hshort).
Qed.

End SignedDigits.

(** A numeral with a separator gets through the scan of [_eval]. *)
Lemma eval_separated (z : Z) (ds de : str) (c : char) :
  forallb is_digit ds = true -> ds <> [] -> digits_val ds = Z.abs_N z ->
  forallb is_digit de = true -> c = ch_slash \/ c = ch_dot ->
  _eval (sign_text z ++ ds ++ c :: de)
  = option_map VNum (Fraction_of_str (sign_text z ++ ds ++ c :: de)).
Proof.
  intros Hds Hne Hval Hde Hc.
  destruct (first_of_signed z ds Hds Hne Hval) as [k [x [E Hk]]].
  assert (E' : sign_text z ++ ds ++ c :: de = k :: x ++ c :: de)
    by (rewrite app_assoc, E; reflexivity).
  rewrite E', (eval_numeral_branch k _ Hk), <- E'.
  rewrite (removeprefix_signed z ds Hds Hne Hval (c :: de)).
  rewrite (eval_scan_digits ds _ false Hds).
  replace (eval_scan (c :: de) false) with (eval_scan de true)
    by (destruct Hc as [-> | ->]; reflexivity).
  rewrite <- (app_nil_r de) at 1.
  rewrite (eval_scan_digits de [] true Hde). reflexivity.
Qed.

(** What [Fraction] does with the two runs of digits of such a numeral. *)
Lemma Fraction_of_separated (z : Z) (ds de : str) (c : char) :
  forallb is_digit ds = true -> ds <> [] -> digits_val ds = Z.abs_N z ->
  forallb is_digit de = true -> c = ch_slash \/ c = ch_dot ->
  Fraction_of_str (sign_text z ++ ds ++ c :: de)
  = match int_of_digits ds, int_of_digits de with
    | Some numerator, Some decimal =>
        if c =? ch_slash then
          match de, decimal with
          | _ :: _, Npos d => Some (Qred (sign_of z * Z.of_N numerator # d))
          | _, _ => None
          end
        else
          Some (Qred (sign_of z
                      * Z.of_N (numerator * Npos (pow10 (List.length de))
                                + decimal)
                      # pow10 (List.length de)))
    | _, _ => None
    end.
Proof.
  intros Hds Hne Hval Hde Hc. unfold Fraction_of_str.
  rewrite (removeprefix_signed z ds Hds Hne Hval (c :: de)).
  rewrite (span_digits_until ds c de Hds)
    by (destruct Hc as [-> | ->]; reflexivity).
  rewrite (span_digits_all de Hde).
  rewrite (startswith_signed z ds Hds Hne Hval (c :: de)).
  assert (Hs : forall n : N,
             (if match z with Zneg _ => true | _ => false end
              then (- Z.of_N n)%Z else Z.of_N n)
             = (sign_of z * Z.of_N n)%Z)
    by (intros n; destruct z; cbn [sign_of]; lia).
  destruct ds as [|k ds']; [contradiction|].
  destruct Hc as [-> | ->].
  - change (ch_slash =? ch_slash) with true. cbv iota.
    destruct de as [|k' de'].
    + destruct (int_of_digits (k :: ds')); [|reflexivity].
      now destruct (int_of_digits []).
    + destruct (int_of_digits (k :: ds')) as [n|]; [|reflexivity].
      destruct (int_of_digits (k' :: de')) as [[|d]|]; try reflexivity.
      now rewrite Hs.
  - change (ch_dot =? ch_slash) with false.
    change (ch_dot =? ch_dot) with true. cbv iota.
    destruct (int_of_digits (k :: ds')) as [n|]; [|reflexivity].
    destruct (int_of_digits de) as [d|]; [|reflexivity].
    now rewrite Hs.
Qed.

Lemma eval_zero_denominator (z : Z) (ds de : str) :
  forallb is_digit ds = true -> ds <> [] -> digits_val ds = Z.abs_N z ->
  forallb is_digit de = true -> digits_val de = 0 ->
  _eval (sign_text z ++ ds ++ ch_slash :: de) = None.
Proof.
  intros Hds Hne Hval Hde Hd.
  rewrite (eval_separated z ds de ch_slash Hds Hne Hval Hde (or_introl eq_refl)).
  rewrite (Fraction_of_separated z ds de ch_slash Hds Hne Hval Hde
             (or_introl eq_refl)).
  destruct (int_of_digits ds); [|reflexivity].
  unfold int_of_digits.
  destruct (List.length de <=? max_str_digits)%nat; [|reflexivity].
  rewrite Hd. change (ch_slash =? ch_slash) with true. cbv iota.
  now destruct de.
Qed.

Lemma eval_decimal_text (z : Z) (ds de : str) :
  forallb is_digit ds = true -> ds <> [] -> digits_val ds = Z.abs_N z ->
  forallb is_digit de = true ->
  (List.length ds <= max_str_digits)%nat ->
  (List.length de <= max_str_digits)%nat ->
  _eval (sign_text z ++ ds ++ ch_dot :: de)
  = Some (VNum (Qred ((z * Zpos (pow10 (List.length de))
                       + sign_of z * Z.of_N (digits_val de))
                      # pow10 (List.length de)))).
Proof.
  intros Hds Hne Hval Hde Hs He.
  rewrite (eval_separated z ds de ch_dot Hds Hne Hval Hde (or_intror eq_refl)).
  rewrite (Fraction_of_separated z ds de ch_dot Hds Hne Hval Hde
             (or_intror eq_refl)).
  rewrite (int_of_digits_short ds Hs), (int_of_digits_short de He), Hval.
  change (ch_dot =? ch_slash) with false. cbv iota. cbn [option_map].
  match goal with
  | |- Some (VNum (Qred (?a # _))) = Some (VNum (Qred (?b # _))) =>
      replace a with b; [reflexivity|]
  end.
  rewrite N2Z.inj_add, N2Z.inj_mul.
  destruct z; cbn [sign_of Z.abs_N Z.of_N]; lia.
Qed.

(** A run of more than [max_str_digits] digits makes the numeral
    invalid. *)
Lemma eval_long_run (z : Z) (ds de : str) (c : char) :
  forallb is_digit ds = true -> ds <> [] -> digits_val ds = Z.abs_N z ->
  forallb is_digit de = true -> c = ch_slash \/ c = ch_dot ->
  (max_str_digits < List.length ds)%nat
  \/ (max_str_digits < List.length de)%nat ->
  _eval (sign_text z ++ ds ++ c :: de) = None.
Proof.
  intros Hds Hne Hval Hde Hc Hlong.
  rewrite (eval_separated z ds de c Hds Hne Hval Hde Hc).
  rewrite (Fraction_of_separated z ds de c Hds Hne Hval Hde Hc).
  destruct Hlong as [H|H]; rewrite (int_of_digits_long _ H);
    [reflexivity | now destruct (int_of_digits ds)].
Qed.

Lemma eval_long_int_text (z : Z) (ds : str) :
  forallb is_digit ds = true -> ds <> [] -> digits_val ds = Z.abs_N z ->
  (max_str_digits < List.length ds)%nat ->
  _eval (sign_text z ++ ds) = None.
Proof.
  intros Hds Hne Hval Hlong.
  destruct (first_of_signed z ds Hds Hne Hval) as [c [x [E Hc]]].
  rewrite E, (eval_numeral_branch c x Hc), <- E.
  pose proof (removeprefix_signed z ds Hds Hne Hval []) as R.
  rewrite app_nil_r in R. rewrite R. rewrite <- (app_nil_r ds) at 1.
  rewrite (eval_scan_digits ds [] false Hds).
  simpl eval_scan. cbv iota. unfold Fraction_of_str.
  rewrite R, (span_digits_all ds Hds), (int_of_digits_long ds Hlong).
  now destruct ds.
Qed.

Lemma eval_repr_num (q : Q) (s : str) :
  Qred q = q -> repr_num q = Some s -> _eval s = Some (VNum q).
Proof.
  intros Hq. destruct q as [z d]. unfold repr_num. simpl Qnum. simpl Qden.
  assert (Hdig := str_of_N_digits (Z.abs_N z)).
  assert (Hne := str_of_N_not_empty (Z.abs_N z)).
  assert (Hval := digits_val_str_of_N (Z.abs_N z)).
  destruct (str_of_int z) as [n|] eqn:En;
    [|destruct (d =? 1)%positive; discriminate].
  apply str_of_int_some in En as [-> Hz]. rewrite int_text_parts.
  destruct (d =? 1)%positive eqn:Ed.
  - apply Pos.eqb_eq in Ed. subst d. intros E. inversion E; subst s.
    rewrite (eval_int_text z _ Hdig Hne Hval Hz). now rewrite Hq.
  - destruct (str_of_int (Z.pos d)) as [t|] eqn:Et; [|discriminate].
    apply str_of_int_some in Et as [-> Hd]. intros E. inversion E; subst s.
    rewrite <- app_assoc. simpl app.
    rewrite (eval_ratio_text z _ Hdig Hne Hval (str_of_N (Npos d)) d
               (str_of_N_digits _) (digits_val_str_of_N _) Hz Hd).
    now rewrite Hq.
Qed.

Lemma replace1_app (old : char) (new a b : str) :
  replace1 old new (a ++ b) = replace1 old new a ++ replace1 old new b.
Proof.
  induction a as [|c a IH]; simpl; [reflexivity|].
  now rewrite IH, app_assoc.
Qed.

Lemma repr_str_by_char (s : str) :
  replace1 ch_newline [ch_backslash; ch_n]
    (replace1 ch_backslash [ch_backslash; ch_backslash] s)
  = List.concat (List.map escape s).
Proof.
  induction s as [|c s IH]; simpl; [reflexivity|].
  rewrite replace1_app, IH. f_equal. unfold escape.
  destruct (c =? ch_backslash) eqn:Eb; [reflexivity|].
  simpl. destruct (c =? ch_newline); reflexivity.
Qed.

Lemma eval_quoted_escaped (s : str) :
  forall r, eval_quoted (List.concat (List.map escape s)) r = Some (r ++ s).
Proof.
  induction s as [|c s IH]; intros r; simpl.
  - now rewrite app_nil_r.
  - unfold escape at 1.
    destruct (c =? ch_backslash) eqn:Eb.
    + apply N.eqb_eq in Eb. subst c. simpl. rewrite IH.
      now rewrite <- app_assoc.
    + destruct (c =? ch_newline) eqn:En.
      * apply N.eqb_eq in En. subst c. simpl. rewrite IH.
        now rewrite <- app_assoc.
      * simpl. rewrite Eb, IH. now rewrite <- app_assoc.
Qed.

Lemma eval_repr (v : value) (s : str) :
  canonical v -> v <> VType TABCMeta -> _repr v = Some s -> _eval s = Some v.
Proof.
  destruct v as [[|]|q|t|[| | | |]]; intros Hc Hm E; simpl in E;
    try (inversion E; reflexivity).
  - now apply eval_repr_num.
  - inversion E; subst s.
    rewrite eval_quote, repr_str_by_char, eval_quoted_escaped. reflexivity.
  - contradiction.
Qed.

Lemma repr_fails_iff (v : value) :
  _repr v = None
  <-> exists q, v = VNum q
                /\ ((max_str_digits < digit_count (Qnum q))%nat
                    \/ (max_str_digits < digit_count (Zpos (Qden q)))%nat).
Proof.
  split.
  - destruct v as [b|q|t|t]; try discriminate. simpl. intros E.
    exists q. split; [reflexivity|]. unfold repr_num in E.
    destruct (str_of_int (Qnum q)) eqn:En.
    + right. apply str_of_int_none.
      destruct (Qden q =? 1)%positive; [discriminate|].
      destruct (str_of_int (Z.pos (Qden q))); [discriminate | reflexivity].
    + left. now apply str_of_int_none.
  - intros [q [-> H]]. simpl. unfold repr_num.
    destruct (Qden q =? 1)%positive eqn:Ed.
    + destruct H as [H|H]; [now apply str_of_int_none|].
      apply Pos.eqb_eq in Ed. rewrite Ed in H. vm_compute in H. lia.
    + destruct H as [H|H]; apply str_of_int_none in H; rewrite H;
        [reflexivity | now destruct (str_of_int (Qnum q))].
Qed.

Lemma Fraction_of_str_canonical (x : str) (q : Q) :
  Fraction_of_str x = Some q -> Qred q = q.
Proof.
  unfold Fraction_of_str. intros H.
  repeat match type of H with
         | context [let (_, _) := ?p in _] => destruct p
         | context [if ?b then _ else _] => destruct b
         | context [match ?l with _ => _ end] => destruct l
         end;
    try discriminate H;
    match type of H with
    | Some (Qred ?a) = Some _ =>
        assert (E : q = Qred a) by congruence;
        rewrite E; apply Qred_involutive
    end.
Qed.

Lemma eval_canonical (x : str) (v : value) : _eval x = Some v -> canonical v.
Proof.
  unfold _eval. intros H.
  repeat match type of H with
         | (if ?b then _ else _) = _ => destruct b
         end; try (inversion H; exact I).
  - destruct (eval_quoted (skipn 1 x) []); inversion H. exact I.
  - destruct (Fraction_of_str x) eqn:E; inversion H.
    exact (Fraction_of_str_canonical x q E).
Qed.

Lemma eval_not_metaclass (x : str) : _eval x <> Some (VType TABCMeta).
Proof.
  unfold _eval.
  repeat match goal with
         | |- (if ?b then _ else _) <> _ => destruct b
         end; try discriminate.
  - destruct (eval_quoted (skipn 1 x) []); discriminate.
  - destruct (Fraction_of_str x); discriminate.
Qed.

Lemma forallb_repeat {A} (f : A -> bool) (x : A) (n : nat) :
  f x = true -> forallb f (List.repeat x n) = true.
Proof. intros H. induction n as [|n IH]; simpl; [reflexivity | now rewrite H]. Qed.

Lemma read_digits_above (ds : str) :
  forall acc,
    acc * Npos (pow10 (List.length ds))
    <= fold_left (fun a c => 10 * a + (c - 48)) ds acc.
Proof.
  induction ds as [|c ds IH]; intros acc; cbn [fold_left].
  - simpl. lia.
  - eapply N.le_trans; [|apply IH].
    change (Npos (pow10 (List.length (c :: ds))))
      with (10 * Npos (pow10 (List.length ds))).
    generalize (c - 48) (Npos (pow10 (List.length ds))). intros d p.
    replace (acc * (10 * p)) with (10 * acc * p) by ring.
    rewrite N.mul_add_distr_r. apply N.le_add_r.
Qed.

Lemma read_digits_below (ds : str) :
  forallb is_digit ds = true ->
  forall acc,
    fold_left (fun a c => 10 * a + (c - 48)) ds acc
    < (acc + 1) * Npos (pow10 (List.length ds)).
Proof.
  induction ds as [|c ds IH]; intros Hd acc; cbn [fold_left].
  - simpl. lia.
  - simpl in Hd. apply andb_true_iff in Hd as [Hc Hd].
    apply digit_bounds in Hc.
    eapply N.lt_le_trans; [apply (IH Hd)|].
    change (Npos (pow10 (List.length (c :: ds))))
      with (10 * Npos (pow10 (List.length ds))).
    assert (Hk : c - 48 <= 9) by lia.
    revert Hk. generalize (c - 48) (Npos (pow10 (List.length ds))).
    intros d p Hk.
    replace ((acc + 1) * (10 * p)) with ((10 * acc + 10) * p) by ring.
    apply N.mul_le_mono_r. lia.
Qed.

Lemma pow10_le (a b : nat) : (a <= b)%nat -> (pow10 a <= pow10 b)%positive.
Proof.
  intros H. induction H as [|b H IH]; [lia|].
  change (pow10 (S b)) with (10 * pow10 b)%positive. lia.
Qed.

(** A number that is at least [10 ^ k] has more than [k] digits. *)
Lemma digit_count_above (k : nat) (z : Z) :
  (Zpos (pow10 k) <= z)%Z -> (k < digit_count z)%nat.
Proof.
  intros H. unfold digit_count.
  pose proof (read_digits_below _ (str_of_N_digits (Z.abs_N z)) 0) as B.
  change (fold_left _ (str_of_N (Z.abs_N z)) 0)
    with (digits_val (str_of_N (Z.abs_N z))) in B.
  rewrite digits_val_str_of_N in B.
  destruct (Nat.lt_ge_cases k (List.length (str_of_N (Z.abs_N z))))
    as [L|L]; [exact L|].
  apply pow10_le in L. lia.
Qed.

Lemma sign_text_of_N (n : N) : sign_text (Z.of_N n) = [].
Proof. now destruct n. Qed.

Lemma sign_of_N (n : N) : sign_of (Z.of_N n) = 1%Z.
Proof. now destruct n. Qed.

(** A run of [max_str_digits] digits that does not begin with zeros,
    followed by [.1], is a literal whose value has no text. *)
Lemma long_decimal_has_no_text (ds : str) :
  forallb is_digit ds = true -> ds <> [] ->
  List.length ds = max_str_digits ->
  Npos (pow10 max_str_digits) <= 10 * digits_val ds ->
  exists v, _eval (ds ++ [ch_dot; 49]) = Some v /\ _repr v = None.
Proof.
  intros Hd Hne Hlen Hbig.
  pose proof (eval_decimal_text (Z.of_N (digits_val ds)) ds [49] Hd Hne
                (eq_sym (Zabs2N.id _))) as E.
  rewrite sign_text_of_N, sign_of_N in E.
  eexists. split.
  - apply E; [reflexivity | lia |].
    unfold max_str_digits. apply Nat.leb_le. reflexivity.
  - change (pow10 (List.length [49])) with 10%positive.
    change (1 * Z.of_N (digits_val [49%N]))%Z with 1%Z.
    rewrite Qred_identity.
    + simpl _repr. unfold repr_num. cbn [Qnum Qden].
      change (10 =? 1)%positive with false. cbv iota.
      rewrite (proj2 (str_of_int_none (Z.of_N (digits_val ds) * 10 + 1)));
        [reflexivity|].
      apply digit_count_above. lia.
    + cbn [Qnum Qden]. rewrite Z.gcd_comm, Z.add_comm.
      rewrite Z.gcd_add_mult_diag_r. reflexivity.
Qed.

(** C7, as the code has it. For every token the literal evaluator
    accepts, whenever [_repr] produces the text of its value, evaluating
    that text succeeds and gives the same value back (same class, same
    content). [_repr] fails, with a ValueError, exactly on the numbers
    whose numerator or denominator has more than [max_str_digits]
    digits. *)
Theorem eval_repr_round_trip (token : str) (v : value) :
  _eval token = Some v ->
  (forall s, _repr v = Some s -> _eval s = Some v)
  /\ (_repr v = None
      <-> exists q, v = VNum q
                    /\ ((max_str_digits < digit_count (Qnum q))%nat
                        \/ (max_str_digits < digit_count (Zpos (Qden q)))%nat)).
Proof.
  intros H. split; [|apply repr_fails_iff].
  intros s. apply eval_repr.
  - exact (eval_canonical token v H).
  - intros ->. exact (eval_not_metaclass token H).
Qed.

Lemma eval_repr_round_trip_witness :
  _eval (lit "-6/4") = Some (VNum (-3 # 2))
  /\ _repr (VNum (-3 # 2)) = Some (lit "-3/2")
  /\ _eval (lit "-3/2") = Some (VNum (-3 # 2)).
Proof.
  split; [reflexivity|]. split; [reflexivity|].
  exact (proj1 (eval_repr_round_trip (lit "-6/4") (VNum (-3 # 2)) eq_refl)
           (lit "-3/2") eq_refl).
Defined.

(** C7 as stated fails: the numeral of [max_str_digits] ones, a dot and a
    one is accepted, each of its two runs of digits being short enough
    for [int], but its value has a numerator of one digit more, whose
    text [_repr] cannot produce. *)
Lemma long_numeral_counterexample :
  ~ (forall token v,
        _eval token = Some v ->
        exists s, _repr v = Some s /\ _eval s = Some v).
Proof.
  intros H.
  assert (Hne : List.repeat 49 max_str_digits <> [])
    by (unfold max_str_digits; discriminate).
  assert (Hbig : Npos (pow10 max_str_digits)
                 <= 10 * digits_val (List.repeat 49 max_str_digits)).
  { unfold digits_val.
    destruct max_str_digits as [|k] eqn:Ek; [discriminate Ek|].
    cbn [List.repeat fold_left].
    pose proof (read_digits_above (List.repeat 49 k) (10 * 0 + (49 - 48))) as B.
    rewrite repeat_length in B.
    change (Npos (pow10 (S k))) with (10 * Npos (pow10 k)).
    change (10 * 0 + (49 - 48)) with 1 in *. lia. }
  destruct (long_decimal_has_no_text (List.repeat 49 max_str_digits)
              (forallb_repeat is_digit 49 _ eq_refl) Hne
              (repeat_length _ _) Hbig) as [v [Ev Er]].
  destruct (H long_numeral v Ev) as [s [Es _]]. congruence.
Qed.

(** ** second blocks *)

Lemma exchange_exchange (m : machine) : exchange (exchange m) = m.
Proof. destruct m; reflexivity. Qed.

Lemma existsb_false {A} (f : A -> bool) (l : list A) :
  existsb f l = false -> forall x, In x l -> f x = false.
Proof.
  intros H x Hx. destruct (f x) eqn:E; [|reflexivity].
  assert (existsb f l = true) by (apply existsb_exists; eauto). congruence.
Qed.

Lemma in_firstn {A} (n : nat) (l : list A) (x : A) :
  In x (firstn n l) -> In x l.
Proof.
  intros H. rewrite <- (firstn_skipn n l). apply in_or_app. now left.
Qed.

Lemma in_skipn {A} (n : nat) (l : list A) (x : A) :
  In x (skipn n l) -> In x l.
Proof.
  intros H. rewrite <- (firstn_skipn n l). apply in_or_app. now right.
Qed.

Section Frame.

Lemma kp_ret {A} (a : A) : keeps_primary (ret a).
Proof. intros m. reflexivity. Qed.

Lemma kp_bind {A B} (c : M A) (k : A -> M B) :
  keeps_primary c -> (forall a, keeps_primary (k a)) ->
  keeps_primary (bind c k).
Proof.
  intros Hc Hk m. unfold bind. specialize (Hc m).
  destruct (c m) as [a m'| | |]; try exact Hc.
  simpl in Hc. now rewrite (Hk a m').
Qed.

Lemma kp_get {A} (t : pytype A) : keeps_primary (_get ref_secondary t).
Proof.
  intros m. unfold _get, raise, raise_str. simpl.
  destruct (secondary m) as [|x rest]; [reflexivity|].
  destruct (isinstance x t); reflexivity.
Qed.

Lemma kp_append (x : value) : keeps_primary (append ref_secondary x).
Proof. intros m. reflexivity. Qed.

Lemma kp_extend (xs : list value) : keeps_primary (extend ref_secondary xs).
Proof. intros m. reflexivity. Qed.

Lemma kp_raise {A} (c : raisable_class) (n d : string) :
  keeps_primary (@raise A c n d).
Proof. intros m. reflexivity. Qed.

Lemma kp_raise_str {A} (c : raisable_class) (n : string) (d : str) :
  keeps_primary (@raise_str A c n d).
Proof. intros m. reflexivity. Qed.

Lemma kp_randrange (n : Z) : keeps_primary (randrange n).
Proof. intros m. unfold randrange. destruct (n <=? 0)%Z; reflexivity. Qed.

Lemma kp_crash {A} (e : pyexc) : keeps_primary (@crash A e).
Proof. intros m. reflexivity. Qed.

Lemma kp_console_write (x : str) : keeps_primary (console_write x).
Proof.
  intros m. unfold console_write. destruct (existsb is_surrogate x); reflexivity.
Qed.

Lemma kp_input : keeps_primary (input_ ref_secondary).
Proof. intros m. unfold input_. destruct (stdin m); reflexivity. Qed.

Ltac kp :=
  repeat match goal with
         | |- keeps_primary (bind _ _) => apply kp_bind; [|intro]
         | |- keeps_primary (_get ref_secondary _) => apply kp_get
         | |- keeps_primary (append ref_secondary _) => apply kp_append
         | |- keeps_primary (extend ref_secondary _) => apply kp_extend
         | |- keeps_primary (ret _) => apply kp_ret
         | |- keeps_primary (raise _ _ _) => apply kp_raise
         | |- keeps_primary (raise_str _ _ _) => apply kp_raise_str
         | |- keeps_primary (crash _) => apply kp_crash
         | |- keeps_primary (randrange _) => apply kp_randrange
         | |- keeps_primary (console_write _) => apply kp_console_write
         | |- keeps_primary (if ?b then _ else _) => destruct b
         | |- keeps_primary (match ?x with _ => _ end) => destruct x
         end.

Lemma builtin_keeps_primary (o : opname) :
  o <> op_flip -> keeps_primary (builtin o ref_secondary).
Proof.
  intros Ho.
  destruct o; try congruence; try apply kp_input;
    unfold builtin, add, and_, chr_, concat, divide, drop, dupe, equal,
      eval_, greater, len_, less, multiply, not_, or_, ord_, print_,
      random, repr_, split, subtract, typeof;
    kp.
Qed.

Lemma for_each_keeps_primary (run : command -> sref -> M unit)
    (body : list command) :
  (forall c, In c body -> keeps_primary (run c ref_secondary)) ->
  keeps_primary (for_each run body ref_secondary).
Proof.
  induction body as [|c body IH]; intros H; simpl.
  - apply kp_ret.
  - apply kp_bind; [apply H; now left|].
    intros _. apply IH. intros c' Hc'. apply H. now right.
Qed.

Lemma call_keeps_primary (fuel : nat) :
  forall c, has_flip c = false -> keeps_primary (call fuel c ref_secondary).
Proof.
  induction fuel as [|fuel IH]; intros c Hc; [intros m; reflexivity|].
  destruct c as [o|v|k body]; simpl.
  - apply builtin_keeps_primary. intros ->. discriminate Hc.
  - apply kp_append.
  - simpl in Hc.
    assert (Hin : forall c, In c body ->
              keeps_primary (call fuel c ref_secondary))
      by (intros c Hin; apply IH; exact (existsb_false _ _ Hc c Hin)).
    destruct k as [| |n| |].
    + now apply for_each_keeps_primary.
    + apply kp_bind; [apply kp_get|].
      intros [|]; [now apply for_each_keeps_primary | apply kp_ret].
    + apply kp_bind; [apply kp_get|].
      intros b. apply for_each_keeps_primary. intros c Hc'. apply Hin.
      destruct b; [exact (in_firstn _ _ _ Hc') | exact (in_skipn _ _ _ Hc')].
    + now apply for_each_keeps_primary.
    + apply kp_bind; [apply kp_get|].
      intros [|]; [|apply kp_ret].
      apply kp_bind; [now apply for_each_keeps_primary|].
      intros _. now apply IH.
Qed.

End Frame.

Section Mirror.

Lemma mi_ret {A} (a : A) : mirrored (ret a) (ret a).
Proof. intros m. unfold ret. simpl. now rewrite exchange_exchange. Qed.

Lemma mi_bind {A B} (c1 c2 : M A) (k1 k2 : A -> M B) :
  mirrored c1 c2 -> (forall a, mirrored (k1 a) (k2 a)) ->
  mirrored (bind c1 k1) (bind c2 k2).
Proof.
  intros Hc Hk m. unfold bind. rewrite (Hc m).
  destruct (c1 (exchange m)) as [a m'| | |]; simpl; try reflexivity.
  rewrite (Hk a (exchange m')). now rewrite exchange_exchange.
Qed.

Lemma mi_get {A} (t : pytype A) :
  mirrored (_get ref_primary t) (_get ref_secondary t).
Proof.
  intros m. unfold _get, raise, raise_str. destruct m as [p s i o e d]. simpl.
  destruct s as [|x rest]; [reflexivity|].
  destruct (isinstance x t); reflexivity.
Qed.

Lemma mi_append (x : value) :
  mirrored (append ref_primary x) (append ref_secondary x).
Proof. intros m. destruct m; reflexivity. Qed.

Lemma mi_extend (xs : list value) :
  mirrored (extend ref_primary xs) (extend ref_secondary xs).
Proof. intros m. destruct m; reflexivity. Qed.

Lemma mi_raise {A} (c : raisable_class) (n d : string) :
  mirrored (@raise A c n d) (raise c n d).
Proof. intros m. destruct m; reflexivity. Qed.

Lemma mi_raise_str {A} (c : raisable_class) (n : string) (d : str) :
  mirrored (@raise_str A c n d) (raise_str c n d).
Proof. intros m. destruct m; reflexivity. Qed.

Lemma mi_randrange (n : Z) : mirrored (randrange n) (randrange n).
Proof.
  intros m. unfold randrange. destruct m. simpl.
  destruct (n <=? 0)%Z; reflexivity.
Qed.

Lemma mi_crash {A} (e : pyexc) : mirrored (@crash A e) (crash e).
Proof. intros m. destruct m; reflexivity. Qed.

Lemma mi_console_write (x : str) :
  mirrored (console_write x) (console_write x).
Proof.
  intros m. unfold console_write. destruct m. simpl.
  destruct (existsb is_surrogate x); reflexivity.
Qed.

Lemma mi_input : mirrored (input_ ref_primary) (input_ ref_secondary).
Proof.
  intros m. unfold input_. destruct m as [p s i o e d]. simpl.
  destruct i; reflexivity.
Qed.

Ltac mi :=
  repeat match goal with
         | |- mirrored (bind _ _) (bind _ _) => apply mi_bind; [|intro]
         | |- mirrored (_get _ _) (_get _ _) => apply mi_get
         | |- mirrored (append _ _) (append _ _) => apply mi_append
         | |- mirrored (extend _ _) (extend _ _) => apply mi_extend
         | |- mirrored (ret _) (ret _) => apply mi_ret
         | |- mirrored (raise _ _ _) (raise _ _ _) => apply mi_raise
         | |- mirrored (raise_str _ _ _) (raise_str _ _ _) => apply mi_raise_str
         | |- mirrored (crash _) (crash _) => apply mi_crash
         | |- mirrored (randrange _) (randrange _) => apply mi_randrange
         | |- mirrored (console_write _) (console_write _) =>
             apply mi_console_write
         | |- mirrored (if ?b then _ else _) (if ?b then _ else _) => destruct b
         | |- mirrored (match ?x with _ => _ end) (match ?x with _ => _ end) =>
             destruct x
         end.

Lemma builtin_mirrored (o : opname) :
  o <> op_flip ->
  mirrored (builtin o ref_primary) (builtin o ref_secondary).
Proof.
  intros Ho.
  destruct o; try congruence; try apply mi_input;
    unfold builtin, add, and_, chr_, concat, divide, drop, dupe, equal,
      eval_, greater, len_, less, multiply, not_, or_, ord_, print_,
      random, repr_, split, subtract, typeof;
    mi.
Qed.

Lemma for_each_mirrored (run : command -> sref -> M unit)
    (body : list command) :
  (forall c, In c body -> mirrored (run c ref_primary) (run c ref_secondary)) ->
  mirrored (for_each run body ref_primary) (for_each run body ref_secondary).
Proof.
  induction body as [|c body IH]; intros H; simpl.
  - apply mi_ret.
  - apply mi_bind; [apply H; now left|].
    intros _. apply IH. intros c' Hc'. apply H. now right.
Qed.

Lemma call_mirrored (fuel : nat) :
  forall c, plain c = true ->
    mirrored (call fuel c ref_primary) (call fuel c ref_secondary).
Proof.
  induction fuel as [|fuel IH]; intros c Hc;
    [intros m; simpl; now rewrite exchange_exchange|].
  destruct c as [o|v|k body]; simpl.
  - apply builtin_mirrored. intros ->. discriminate Hc.
  - apply mi_append.
  - assert (Hin : forall c, In c body ->
              mirrored (call fuel c ref_primary) (call fuel c ref_secondary)).
    { intros c Hin. apply IH. destruct k; try discriminate Hc;
        simpl in Hc; exact (proj1 (forallb_forall _ _) Hc c Hin). }
    destruct k as [| |n| |]; try discriminate Hc.
    + now apply for_each_mirrored.
    + apply mi_bind; [apply mi_get|].
      intros [|]; [now apply for_each_mirrored | apply mi_ret].
    + apply mi_bind; [apply mi_get|].
      intros b. apply for_each_mirrored. intros c Hc'. apply Hin.
      destruct b; [exact (in_firstn _ _ _ Hc') | exact (in_skipn _ _ _ Hc')].
    + apply mi_bind; [apply mi_get|].
      intros [|]; [|apply mi_ret].
      apply mi_bind; [now apply for_each_mirrored|].
      intros _. now apply IH.
Qed.

End Mirror.

(** C2, as the code has it. A [second] block calls every child with the
    secondary stack as its argument, whatever stack the block itself was
    called with. Children free of [flip] leave the primary stack
    untouched, and children free of [flip] and of further [second] blocks
    do to the secondary stack exactly what they would do to the primary
    one at top level. [flip] does not use its argument: inside a [second]
    block it still pops the primary stack and pushes to the secondary
    one. *)
Theorem second_redirects_all_but_flip (fuel : nat) (body : list command)
    (stack_ : sref) (m : machine) :
  call (S fuel) (Blk second body) stack_ m
  = for_each (call fuel) body ref_secondary m
  /\ (existsb has_flip body = false ->
      primary (final (call (S fuel) (Blk second body) stack_ m)) = primary m)
  /\ (forallb plain body = true ->
      call (S fuel) (Blk second body) stack_ m
      = on_machine exchange
          (call (S fuel) (Blk Block body) ref_primary (exchange m)))
  /\ (forall x rest,
      primary m = x :: rest ->
      call (S (S fuel)) (Blk second [Builtin op_flip]) stack_ m
      = Ok tt (mkMachine rest (x :: secondary m) (stdin m) (stdout m)
                 (entropy m) (draws m))).
Proof.
  split; [reflexivity|]. split; [|split].
  - intros Hf. simpl call. apply for_each_keeps_primary.
    intros c Hc. apply call_keeps_primary. exact (existsb_false _ _ Hf c Hc).
  - intros Hp. simpl call. apply for_each_mirrored.
    intros c Hc. apply call_mirrored.
    exact (proj1 (forallb_forall _ _) Hp c Hc).
  - intros x rest Hr. destruct m as [p s i o e d]. simpl in Hr. subst p.
    reflexivity.
Qed.

Lemma second_redirects_all_but_flip_witness :
  existsb has_flip [Builtin op_add] = false
  /\ primary (final (call 2 (Blk second [Builtin op_add]) ref_primary
                       one_two_machine))
     = [VNum 1].
Proof.
  split; [reflexivity|].
  exact (proj1 (proj2 (second_redirects_all_but_flip 1 [Builtin op_add]
                         ref_primary one_two_machine)) eq_refl).
Defined.

(** C2 as stated fails for [flip]: in a [second] block it takes its value
    from the primary stack, which therefore changes, where a redirected
    pop would have found the secondary stack empty. *)
Lemma second_flip_counterexample :
  ~ (forall fuel body stack_ m,
        forallb is_builtin body = true ->
        primary (final (call fuel (Blk second body) stack_ m)) = primary m).
Proof.
  intros H.
  specialize (H 2%nat [Builtin op_flip] ref_primary
                (mkMachine [VNum 1] [] [] [] (fun _ => 0) O) eq_refl).
  discriminate H.
Qed.

(** ** Loading *)

Lemma load_from_app (pre rest : list str) :
  forall next ln main main' ln',
    load_from pre next ln main = LoadOk main' ln' ->
    load_from (pre ++ rest) next ln main
    = load_from rest (next + List.length pre) ln' main'.
Proof.
  induction pre as [|line pre IH]; intros next ln main main' ln' H; simpl in *.
  - inversion H; subst. now rewrite Nat.add_0_r.
  - destruct (load_line line main) as [main1| |]; try discriminate H.
    rewrite (IH _ _ _ _ _ H). f_equal. lia.
Qed.

(** The value the loop variable [line_number] is left with: the number of
    the last line, whatever the program does afterwards. *)
Lemma load_from_line_number (source : list str) :
  forall next ln main main' ln',
    load_from source next ln main = LoadOk main' ln' ->
    ln' = match source with
          | [] => ln
          | _ => Some (next + List.length source - 1)%nat
          end.
Proof.
  induction source as [|line source IH]; intros next ln main main' ln' H;
    simpl in H.
  - now inversion H.
  - destruct (load_line line main) as [main1| |]; try discriminate H.
    rewrite (IH _ _ _ _ _ H). destruct source; simpl; f_equal; lia.
Qed.

Lemma descend_second_in_second (d : nat) :
  forall target items,
    cursor d target = Some (Blk second items) ->
    descend d (lit "second") target = LoadRaised SecondError.
Proof.
  induction d as [|d IH]; intros target items H; simpl in H.
  - inversion H; subst. reflexivity.
  - destruct target as [| |c body]; try discriminate H.
    simpl. destruct (last_item body) as [child|]; [|discriminate H].
    now rewrite (IH child items H).
Qed.

Lemma last_item_split (body : list command) (item : command) :
  last_item body = Some item -> body = removelast body ++ [item].
Proof.
  destruct body as [|c body]; [discriminate|].
  intros H. injection H as <-.
  rewrite (app_removelast_last c (l := c :: body)) at 1 by discriminate.
  f_equal. f_equal. destruct body; reflexivity.
Qed.

Lemma well_nested_items (k : block_class) (body : list command) :
  well_nested (Blk k body) = true ->
  forallb well_nested body = true
  /\ (k = second -> existsb is_second body = false).
Proof.
  simpl. intros H. apply andb_true_iff in H as [Hk Hb]. split; [exact Hb|].
  intros ->. now apply negb_true_iff in Hk.
Qed.

Lemma well_nested_block (k : block_class) (body : list command) :
  forallb well_nested body = true ->
  (k = second -> existsb is_second body = false) ->
  well_nested (Blk k body) = true.
Proof.
  intros Hb Hk. simpl. rewrite Hb, andb_true_r.
  destruct k; try reflexivity. now rewrite Hk.
Qed.

(** Putting [item'] in the place of the last item keeps the block well
    nested when [item'] is well nested and a [second] only where the old
    item was one. *)
Lemma well_nested_set_last (k : block_class) (body : list command)
    (item item' : command) :
  last_item body = Some item ->
  well_nested (Blk k body) = true ->
  well_nested item' = true ->
  (is_second item' = true -> is_second item = true) ->
  well_nested (Blk k (removelast body ++ [item'])) = true.
Proof.
  intros Hl Hw Hi Hs. apply last_item_split in Hl.
  apply well_nested_items in Hw as [Hb Hk]. rewrite Hl in Hb, Hk.
  rewrite forallb_app in Hb. apply andb_true_iff in Hb as [Hb1 _].
  apply well_nested_block.
  - rewrite forallb_app, Hb1. simpl. now rewrite Hi.
  - intros E. specialize (Hk E). rewrite existsb_app in Hk |- *.
    apply orb_false_iff in Hk as [Hk1 Hk2]. rewrite Hk1. simpl in *.
    destruct (is_second item'); [|reflexivity].
    rewrite (Hs eq_refl) in Hk2. discriminate Hk2.
Qed.

Lemma well_nested_append (k : block_class) (body : list command)
    (obj : command) (t : command) :
  block_append k body obj = Loaded t ->
  well_nested (Blk k body) = true -> well_nested obj = true ->
  well_nested t = true /\ same_class (Blk k body) t.
Proof.
  intros H Hw Ho. apply well_nested_items in Hw as [Hb Hk].
  assert (G : is_second obj = false \/ k <> second ->
              well_nested (Blk k (body ++ [obj])) = true).
  { intros Hc. apply well_nested_block.
    - rewrite forallb_app, Hb. simpl. now rewrite Ho.
    - intros E. rewrite existsb_app, (Hk E). simpl.
      destruct Hc as [-> | Hc]; [reflexivity | contradiction]. }
  unfold block_append in H.
  destruct k; try (injection H as <-; split; [apply G; right; discriminate
                                             | reflexivity]).
  destruct (is_second obj) eqn:E; [discriminate H|].
  injection H as <-. split; [apply G; now left | reflexivity].
Qed.

Lemma command_table_well_nested (line : str) (obj : command) :
  command_table line = Some obj -> well_nested obj = true.
Proof.
  unfold command_table. intros H.
  repeat match type of H with
         | (if ?b then _ else _) = _ => destruct b
         end; try discriminate H; injection H as <-; reflexivity.
Qed.

Lemma statement_well_nested (line : str) (target t : command) :
  statement line target = Loaded t ->
  well_nested target = true ->
  well_nested t = true /\ same_class target t.
Proof.
  intros H Hw. unfold statement in H.
  destruct target as [o|v|k body];
    try (repeat match type of H with
                | (if ?b then _ else _) = _ => destruct b
                end; discriminate H).
  destruct (startswith line (lit "push ")).
  - destruct (_eval (skipn 5 line)) as [v|]; [|discriminate H].
    exact (well_nested_append k body (Partial v) t H Hw eq_refl).
  - destruct (str_eqb line (lit "else")).
    + destruct (last_item body) as [item|] eqn:El; [|discriminate H].
      destruct item as [| |[| | | |] _if]; try discriminate H.
      assert (Hif : well_nested (Blk (if_else (List.length _if)) _if) = true).
      { pose proof (last_item_split body _ El) as Hs.
        apply well_nested_items in Hw as [Hb _]. rewrite Hs in Hb.
        rewrite forallb_app in Hb. apply andb_true_iff in Hb as [_ Hb].
        simpl in Hb. rewrite andb_true_r in Hb. exact Hb. }
      pose proof (well_nested_set_last k body _ _ El Hw Hif
                    (fun E => False_ind _ (diff_false_true E))) as G.
      unfold block_set_last in H. simpl is_second in H.
      destruct k; injection H as <-; split; try exact G; reflexivity.
    + destruct (command_table line) as [obj|] eqn:Ec; [|discriminate H].
      exact (well_nested_append k body obj t H Hw
               (command_table_well_nested line obj Ec)).
Qed.

Lemma descend_well_nested (d : nat) (line : str) :
  forall target t,
    descend d line target = Loaded t ->
    well_nested target = true ->
    well_nested t = true /\ same_class target t.
Proof.
  induction d as [|d IH]; intros target t H Hw.
  - exact (statement_well_nested line target t H Hw).
  - simpl in H. destruct target as [| |k body]; try discriminate H.
    destruct (last_item body) as [child|] eqn:El; [|discriminate H].
    destruct (descend d line child) as [child'| |] eqn:Ed; try discriminate H.
    injection H as <-.
    assert (Hc : well_nested child = true).
    { pose proof (last_item_split body _ El) as Hs.
      apply well_nested_items in Hw as [Hb _]. rewrite Hs in Hb.
      rewrite forallb_app in Hb. apply andb_true_iff in Hb as [_ Hb].
      simpl in Hb. now rewrite andb_true_r in Hb. }
    destruct (IH child child' Ed Hc) as [Hw' Hsame].
    split; [|reflexivity].
    apply (well_nested_set_last k body child child' El Hw Hw').
    destruct child as [| |kc bc], child' as [| |kc' bc'];
      simpl in Hsame; try contradiction. now subst kc'.
Qed.

(** Every program the loader accepts is free of a [second] block placed
    directly in a [second] block. *)
Lemma loaded_program_well_nested (source : list str) (prog : command)
    (ln : option nat) :
  load source = LoadOk prog ln -> well_nested prog = true.
Proof.
  unfold load.
  assert (G : forall next ln0 main,
             well_nested main = true ->
             load_from source next ln0 main = LoadOk prog ln ->
             well_nested prog = true).
  { induction source as [|line source IH]; intros next ln0 main Hw H;
      simpl in H.
    - now inversion H; subst.
    - unfold load_line in H. destruct (indentation line) as [d rest].
      destruct (descend d rest main) as [main'| |] eqn:Ed; try discriminate H.
      apply (IH _ _ main' (proj1 (descend_well_nested d rest main main' Ed Hw))
               H). }
  exact (G 1%nat None (Blk Block []) eq_refl).
Qed.

(** C3, as the code has it. A line [second] whose indentation makes a
    [second] block its container is refused: loading stops at that line
    with SecondError, only the header is written and nothing of the
    program runs. *)
Theorem second_directly_in_second_rejected (pre post : list str) (line : str)
    (d : nat) (prog : command) (ln : option nat) (items : list command)
    (fuel : nat) (input : list str) (rnd : nat -> N) :
  load pre = LoadOk prog ln ->
  indentation line = (d, lit "second") ->
  cursor d prog = Some (Blk second items) ->
  load (pre ++ line :: post) = LoadFail SecondError (S (List.length pre))
  /\ main fuel (pre ++ line :: post) input rnd
     = mkTranscript [] [header SecondError (S (List.length pre))] [] []
         (Reported SecondError).
Proof.
  intros Hpre Hind Hcur.
  assert (E : load (pre ++ line :: post)
              = LoadFail SecondError (S (List.length pre))).
  { unfold load in *. rewrite (load_from_app pre (line :: post) _ _ _ _ _ Hpre).
    simpl. unfold load_line. rewrite Hind.
    now rewrite (descend_second_in_second d prog items Hcur). }
  split; [exact E|]. unfold main. now rewrite E.
Qed.

Lemma second_directly_in_second_rejected_witness :
  load [lit "second"] = LoadOk (Blk Block [Blk second []]) (Some 1%nat)
  /\ indentation (lit "  second") = (1%nat, lit "second")
  /\ cursor 1 (Blk Block [Blk second []]) = Some (Blk second [])
  /\ load ([lit "second"] ++ [lit "  second"])
     = LoadFail SecondError 2.
Proof.
  do 3 (split; [reflexivity|]).
  exact (proj1 (second_directly_in_second_rejected [lit "second"] []
                  (lit "  second") 1 (Blk Block [Blk second []])
                  (Some 1%nat) [] O [] (fun _ => 0)
                  eq_refl eq_refl eq_refl)).
Defined.

(** C3 as stated fails: a [second] inside an [if] inside a [second] is
    loaded, and the program then runs to its end. *)
Lemma second_in_if_in_second_counterexample :
  ~ (forall source prog ln,
        load source = LoadOk prog ln -> nested_second false prog = false)
  /\ load second_if_second
     = LoadOk (Blk Block [Blk second [Blk if_ [Blk second []]]]) (Some 3%nat)
  /\ t_ending (main 5 (lit "push true" :: lit "flip" :: second_if_second)
                 [] (fun _ => 0))
     = Finished.
Proof.
  split; [|split; reflexivity].
  intros H.
  specialize (H second_if_second _ _ eq_refl). discriminate H.
Qed.

(** ** else *)

(** What an [else] line does in a container that is not empty: a last
    item that is an [if_] block is replaced by an [if_else] holding the
    same items, every other last item is an ElseError. *)
Lemma else_in_nonempty_container (c : block_class) (body : list command)
    (item : command) :
  last_item body = Some item ->
  statement (lit "else") (Blk c body)
  = match item with
    | Blk if_ _if =>
        Loaded (Blk c (removelast body ++ [Blk (if_else (List.length _if)) _if]))
    | _ => program_error "ElseError" (lit "else must have a matching if")
    end.
Proof.
  intros H.
  change (statement (lit "else") (Blk c body))
    with (match last_item body with
          | None => LoadUncaught IndexError
          | Some (Blk if_ _if) =>
              block_set_last c body (Blk (if_else (List.length _if)) _if)
          | Some _ =>
              program_error "ElseError" (lit "else must have a matching if")
          end).
  rewrite H. destruct item as [| |[| | | |] b]; try reflexivity.
  destruct c; reflexivity.
Qed.

(** C6, where the code departs from it. An [else] line whose container is
    empty is not an ElseError: [target[-1]] raises IndexError outside any
    handler, so the interpreter ends with a traceback and prints no
    diagnostic of its own. The descent loop catches the same exception of
    the same expression. *)
Theorem else_in_empty_container_crashes (c : block_class) (fuel : nat)
    (input : list str) (rnd : nat -> N) :
  statement (lit "else") (Blk c []) = LoadUncaught IndexError
  /\ load [lit "else"] = LoadCrash IndexError 1
  /\ main fuel [lit "else"] input rnd = mkTranscript [] [] [] [] (Crashed IndexError)
  /\ load [lit "if"; lit "  else"] = LoadCrash IndexError 2.
Proof. repeat split; reflexivity. Qed.

(** ** Line numbers in diagnostics *)

(** The line number of a run-time header is the number of the last source
    line: [line_number] is the loop variable of the loader, and the
    program runs after the loop has ended. *)
Lemma runtime_header_line (fuel : nat) (source input : list str)
    (rnd : nat -> N) (prog : command) (ln : option nat)
    (e : ProgramRaisable) (m : machine) :
  load source = LoadOk prog ln ->
  call fuel prog ref_primary (boot input rnd) = Raised e m ->
  t_stderr (main fuel source input rnd)
  = fst (handler e (List.length source) m).
Proof.
  intros Hl Hc. unfold main. rewrite Hl, Hc.
  unfold load in Hl. pose proof (load_from_line_number _ _ _ _ _ _ Hl) as E.
  destruct source as [|line source].
  - simpl in Hl. inversion Hl; subst.
    destruct fuel; simpl in Hc; discriminate Hc.
  - subst ln.
    replace (1 + List.length (line :: source) - 1)%nat
      with (List.length (line :: source)) by lia.
    destruct (handler e (List.length (line :: source)) m). reflexivity.
Qed.

(** C1, where the code departs from it. The program [add], [push 1]
    loads; running it fails in [add], the statement of line 1, on an empty
    stack; the header written names line 2, the last line read by the
    loader. *)
Theorem runtime_header_names_last_line (input : list str) (rnd : nat -> N) :
  load add_then_push
  = LoadOk (Blk Block [Builtin op_add; Partial (VNum 1)]) (Some 2%nat)
  /\ call 2 (Builtin op_add) ref_primary (boot input rnd)
     = Raised PopException (boot input rnd)
  /\ t_ending (main 2 add_then_push input rnd) = Reported PopException
  /\ List.hd [] (t_stderr (main 2 add_then_push input rnd))
     = lit "PopException#2: cannot pop from empty stack".
Proof. repeat split; reflexivity. Qed.

(** * Further properties *)

(** ** Values and built-ins *)

Lemma write_read (stack_ : sref) (m : machine) :
  write stack_ (read stack_ m) m = m.
Proof. destruct stack_, m; reflexivity. Qed.

Lemma write_same (stack_ : sref) (s : stack) (m : machine) :
  read stack_ m = s -> write stack_ s m = m.
Proof. intros <-. apply write_read. Qed.

Ltac stacks :=
  unfold append, extend, ret; cbv beta iota;
  repeat first [rewrite read_write | rewrite write_write].

Lemma str_eqb_eq (a b : str) : str_eqb a b = true <-> a = b.
Proof.
  revert b. induction a as [|x a IH]; intros [|y b]; simpl;
    try (split; [discriminate | discriminate]); try tauto.
  rewrite andb_true_iff, N.eqb_eq, IH. split.
  - intros [-> ->]. reflexivity.
  - intros E. inversion E. auto.
Qed.

Lemma Qeq_bool_canonical (a b : Q) :
  Qred a = a -> Qred b = b -> (Qeq_bool a b = true <-> a = b).
Proof.
  intros Ha Hb. rewrite Qeq_bool_iff. split.
  - intros E. rewrite <- Ha, <- Hb. now apply Qred_complete.
  - intros ->. reflexivity.
Qed.

Lemma value_eqb_eq (a b : value) :
  canonical a -> canonical b -> (value_eqb a b = true <-> a = b).
Proof.
  destruct a as [x|x|x|x], b as [y|y|y|y]; simpl; intros Ha Hb;
    try (split; [discriminate | discriminate]).
  - rewrite eqb_true_iff. split; [now intros -> | now intros [= ->]].
  - rewrite (Qeq_bool_canonical x y Ha Hb).
    split; [now intros -> | now intros [= ->]].
  - rewrite str_eqb_eq. split; [now intros -> | now intros [= ->]].
  - destruct x, y; simpl; split; try discriminate; reflexivity.
Qed.

Lemma str_eqb_sym (a b : str) : str_eqb a b = str_eqb b a.
Proof.
  revert b. induction a as [|x a IH]; intros [|y b]; simpl; try reflexivity.
  now rewrite N.eqb_sym, IH.
Qed.

Lemma Qeq_bool_sym (a b : Q) : Qeq_bool a b = Qeq_bool b a.
Proof.
  destruct (Qeq_bool a b) eqn:E1, (Qeq_bool b a) eqn:E2; try reflexivity.
  - apply Qeq_bool_iff in E1. symmetry in E1. apply Qeq_bool_iff in E1. congruence.
  - apply Qeq_bool_iff in E2. symmetry in E2. apply Qeq_bool_iff in E2. congruence.
Qed.

Lemma value_eqb_sym (a b : value) : value_eqb a b = value_eqb b a.
Proof.
  destruct a as [x|x|x|x], b as [y|y|y|y]; simpl; try reflexivity.
  - destruct x, y; reflexivity.
  - apply Qeq_bool_sym.
  - apply str_eqb_sym.
  - destruct x, y; reflexivity.
Qed.

Lemma value_eqb_refl (a : value) : value_eqb a a = true.
Proof.
  destruct a as [x|x|x|x]; simpl.
  - now destruct x.
  - now apply Qeq_bool_iff.
  - now apply str_eqb_eq.
  - now destruct x.
Qed.

Lemma get_object (stack_ : sref) (m : machine) (x : value) (rest : stack) :
  read stack_ m = x :: rest ->
  _get stack_ t_object m = Ok x (write stack_ rest m).
Proof. intros H. exact (get_cons stack_ t_object m x rest x H eq_refl). Qed.

(** X1. [equal] pops two values and pushes one boolean, the same whichever
    of the two was on top; it is false whenever their classes differ,
    and for values in lowest terms it is true exactly when the two values
    are the same. *)
Theorem equal_decides_identity (stack_ : sref) (m : machine) (a b : value)
    (rest : stack) :
  read stack_ m = a :: b :: rest ->
  exists r,
    equal stack_ m = Ok tt (write stack_ (VBool r :: rest) m)
    /\ r = value_eqb b a
    /\ (type_of a <> type_of b -> r = false)
    /\ (canonical a -> canonical b -> (r = true <-> a = b)).
Proof.
  intros Hr. exists (value_eqb a b). repeat split.
  - unfold equal, bind. rewrite (get_object _ _ _ _ Hr).
    rewrite (get_object _ _ b rest (read_write _ _ _)).
    now stacks.
  - apply value_eqb_sym.
  - intros Ht.
    destruct a as [| | |[]], b as [| | |[]]; simpl in *; try reflexivity;
      congruence.
  - now apply value_eqb_eq.
  - now apply value_eqb_eq.
Qed.

Lemma equal_decides_identity_witness :
  read ref_primary seven_two_machine = [VNum 7; VNum 2]
  /\ exists r,
       equal ref_primary seven_two_machine
       = Ok tt (write ref_primary [VBool r] seven_two_machine)
       /\ r = false.
Proof.
  split; [reflexivity|].
  destruct (equal_decides_identity ref_primary seven_two_machine
              (VNum 7) (VNum 2) [] eq_refl) as [r [E [Hr _]]].
  exists r. split; [exact E | exact Hr].
Defined.

(** X2. [chr] and [ord] undo each other: on an integer from 0 to 1114111
    [chr] pushes the one-character string of that code point and [ord]
    after it restores the machine; on a one-character string [ord] pushes
    its code point and [chr] after it restores the machine. *)
Theorem chr_ord_round_trip (stack_ : sref) (m : machine) (rest : stack) :
  (forall z : Z,
      (0 <= z <= 1114111)%Z -> read stack_ m = VNum (z # 1) :: rest ->
      chr_ stack_ m = Ok tt (write stack_ (VStr [Z.to_N z] :: rest) m)
      /\ (chr_ stack_ ;;; ord_ stack_) m = Ok tt m)
  /\ (forall c : char,
      c <= 1114111 -> read stack_ m = VStr [c] :: rest ->
      ord_ stack_ m = Ok tt (write stack_ (VNum (Z.of_N c # 1) :: rest) m)
      /\ (ord_ stack_ ;;; chr_ stack_) m = Ok tt m).
Proof.
  split.
  - intros z Hz Hr.
    assert (E : chr_ stack_ m
                = Ok tt (write stack_ (VStr [Z.to_N z] :: rest) m)).
    { unfold chr_, bind.
      rewrite (get_cons stack_ t_num m _ rest _ Hr eq_refl).
      cbn [Qden Qnum Pos.eqb negb].
      rewrite (proj2 (Z.leb_le 0 z)), (proj2 (Z.leb_le z 1114111)) by lia.
      cbn [negb orb andb]. now stacks. }
    split; [exact E|]. unfold bind at 1. rewrite E. unfold ord_, bind.
    rewrite (get_cons stack_ t_str _ (VStr [Z.to_N z]) rest _
               (read_write _ _ _) eq_refl).
    unfold num_of_Z. stacks. rewrite Z2N.id by lia.
    f_equal. now apply write_same.
  - intros c Hc Hr.
    assert (E : ord_ stack_ m
                = Ok tt (write stack_ (VNum (Z.of_N c # 1) :: rest) m)).
    { unfold ord_, bind.
      rewrite (get_cons stack_ t_str m _ rest _ Hr eq_refl).
      unfold num_of_Z. now stacks. }
    split; [exact E|]. unfold bind at 1. rewrite E. unfold chr_, bind.
    rewrite (get_cons stack_ t_num _ (VNum (Z.of_N c # 1)) rest _
               (read_write _ _ _) eq_refl).
    cbn [Qden Qnum Pos.eqb negb].
    rewrite (proj2 (Z.leb_le 0 (Z.of_N c))),
      (proj2 (Z.leb_le (Z.of_N c) 1114111)) by lia.
    cbn [negb orb andb]. stacks. rewrite N2Z.id.
    f_equal. now apply write_same.
Qed.

Lemma chr_ord_round_trip_witness :
  (0 <= 97 <= 1114111)%Z
  /\ read ref_primary letter_machine = [VNum 97]
  /\ (chr_ ref_primary ;;; ord_ ref_primary) letter_machine
     = Ok tt letter_machine.
Proof.
  assert (H : (0 <= 97 <= 1114111)%Z) by (split; discriminate).
  split; [exact H|]. split; [reflexivity|].
  exact (proj2 (proj1 (chr_ord_round_trip ref_primary letter_machine [])
                  97%Z H eq_refl)).
Defined.

Lemma concat_run (stack_ : sref) (cs : str) :
  forall (p : str) (rest : stack) (m : machine),
    read stack_ m = VStr p :: List.map (fun c => VStr [c]) cs ++ rest ->
    times (List.length cs) (concat stack_) m
    = Ok tt (write stack_ (VStr (p ++ cs) :: rest) m).
Proof.
  induction cs as [|c cs IH]; intros p rest m Hr; simpl in *.
  - unfold ret. rewrite app_nil_r. f_equal. symmetry. now apply write_same.
  - unfold bind at 1. unfold concat at 1. unfold bind.
    rewrite (get_cons stack_ t_str m _ _ _ Hr eq_refl).
    rewrite (get_cons stack_ t_str _ (VStr [c]) _ _ (read_write _ _ _) eq_refl).
    stacks.
    rewrite (IH (p ++ [c]) rest); [|apply read_write].
    now rewrite write_write, <- app_assoc.
Qed.

(** X3. [split] of the empty string pushes nothing; [split] of a string of
    n > 0 characters followed by n - 1 [concat] puts the string back and
    leaves the machine as it was. *)
Theorem split_then_concat_restores (stack_ : sref) (m : machine) (s : str)
    (rest : stack) :
  read stack_ m = VStr s :: rest ->
  (s = [] -> split stack_ m = Ok tt (write stack_ rest m))
  /\ (s <> [] ->
      (split stack_ ;;; times (List.length s - 1) (concat stack_)) m = Ok tt m).
Proof.
  intros Hr.
  assert (E : split stack_ m
              = Ok tt (write stack_ (List.map (fun c => VStr [c]) s ++ rest) m)).
  { unfold split, bind.
    rewrite (get_cons stack_ t_str m (VStr s) rest s Hr eq_refl).
    stacks. now rewrite <- map_rev, rev_involutive. }
  split.
  - intros ->. exact E.
  - intros Hs. destruct s as [|c cs]; [contradiction|].
    unfold bind. rewrite E.
    replace (List.length (c :: cs) - 1)%nat with (List.length cs)
      by (simpl; lia).
    rewrite (concat_run stack_ cs [c] rest); [|apply read_write].
    rewrite write_write. simpl app. f_equal. now apply write_same.
Qed.

Lemma split_then_concat_restores_witness :
  read ref_primary abc_machine = [VStr (lit "abc"); VBool true]
  /\ lit "abc" <> []
  /\ (split ref_primary ;;; times 2 (concat ref_primary)) abc_machine
     = Ok tt abc_machine.
Proof.
  assert (H : lit "abc" <> []) by discriminate.
  split; [reflexivity|]. split; [exact H|].
  exact (proj2 (split_then_concat_restores ref_primary abc_machine
                  (lit "abc") [VBool true] eq_refl) H).
Defined.

(** X4. [and] with false on top and [or] with true on top pop and push
    that one value only: the machine is unchanged and nothing below is
    looked at, even when nothing is there. Otherwise the result is the
    second boolean. *)
Theorem and_or_short_circuit (stack_ : sref) (m : machine) (rest : stack) :
  (read stack_ m = VBool false :: rest -> and_ stack_ m = Ok tt m)
  /\ (read stack_ m = VBool true :: rest -> or_ stack_ m = Ok tt m)
  /\ (forall b rest', read stack_ m = VBool true :: VBool b :: rest' ->
        and_ stack_ m = Ok tt (write stack_ (VBool b :: rest') m))
  /\ (forall b rest', read stack_ m = VBool false :: VBool b :: rest' ->
        or_ stack_ m = Ok tt (write stack_ (VBool b :: rest') m)).
Proof.
  repeat split.
  - intros Hr. unfold and_, bind.
    rewrite (get_cons stack_ t_bool m _ rest _ Hr eq_refl).
    stacks. f_equal. now apply write_same.
  - intros Hr. unfold or_, bind.
    rewrite (get_cons stack_ t_bool m _ rest _ Hr eq_refl).
    stacks. f_equal. now apply write_same.
  - intros b rest' Hr. unfold and_, bind.
    rewrite (get_cons stack_ t_bool m _ _ _ Hr eq_refl).
    rewrite (get_cons stack_ t_bool _ (VBool b) rest' _ (read_write _ _ _) eq_refl).
    now stacks.
  - intros b rest' Hr. unfold or_, bind.
    rewrite (get_cons stack_ t_bool m _ _ _ Hr eq_refl).
    rewrite (get_cons stack_ t_bool _ (VBool b) rest' _ (read_write _ _ _) eq_refl).
    now stacks.
Qed.

Lemma and_or_short_circuit_witness :
  read ref_primary lone_false_machine = [VBool false]
  /\ and_ ref_primary lone_false_machine = Ok tt lone_false_machine.
Proof.
  split; [reflexivity|].
  exact (proj1 (and_or_short_circuit ref_primary lone_false_machine [])
           eq_refl).
Defined.

Lemma dupe_cons (stack_ : sref) (m : machine) (x : value) (rest : stack) :
  read stack_ m = x :: rest ->
  dupe stack_ m = Ok tt (write stack_ (x :: x :: rest) m).
Proof.
  intros Hr. unfold dupe, bind. rewrite (get_object _ _ _ _ Hr).
  now stacks.
Qed.

(** X5. [dupe] puts a second copy of the top value on the stack: [drop]
    after it restores the machine and [equal] after it replaces the value
    by true. *)
Theorem dupe_copies_top (stack_ : sref) (m : machine) (x : value)
    (rest : stack) :
  read stack_ m = x :: rest ->
  dupe stack_ m = Ok tt (write stack_ (x :: x :: rest) m)
  /\ (dupe stack_ ;;; drop stack_) m = Ok tt m
  /\ (dupe stack_ ;;; equal stack_) m
     = Ok tt (write stack_ (VBool true :: rest) m).
Proof.
  intros Hr. pose proof (dupe_cons _ _ _ _ Hr) as E. repeat split.
  - exact E.
  - unfold bind at 1. rewrite E. unfold drop, bind.
    rewrite (get_object _ _ x (x :: rest) (read_write _ _ _)).
    stacks. f_equal. now apply write_same.
  - unfold bind at 1. rewrite E. unfold equal, bind.
    rewrite (get_object _ _ x (x :: rest) (read_write _ _ _)).
    rewrite write_write.
    rewrite (get_object _ _ x rest (read_write _ _ _)).
    stacks. now rewrite value_eqb_refl.
Qed.

Lemma dupe_copies_top_witness :
  read ref_primary lone_string_machine = [VStr (lit "x")]
  /\ (dupe ref_primary ;;; drop ref_primary) lone_string_machine
     = Ok tt lone_string_machine.
Proof.
  split; [reflexivity|].
  exact (proj1 (proj2 (dupe_copies_top ref_primary lone_string_machine
                         (VStr (lit "x")) [] eq_refl))).
Defined.

(** X6. [repr] replaces the value on top of the stack by its text, and
    ends in the ValueError of [_repr] when there is no text. [eval] after
    it restores the machine for every value in lowest terms but one: the
    class ABCMeta, which [typeof] gives for [num], has a name that is not
    a literal, and [eval] raises a LiteralException on it. *)
Theorem repr_then_eval_restores (stack_ : sref) (m : machine) (x : value)
    (rest : stack) :
  read stack_ m = x :: rest ->
  (forall s,
      _repr x = Some s ->
      repr_ stack_ m = Ok tt (write stack_ (VStr s :: rest) m)
      /\ (canonical x -> x <> VType TABCMeta ->
          (repr_ stack_ ;;; eval_ stack_) m = Ok tt m))
  /\ (_repr x = None ->
      repr_ stack_ m = Uncaught ValueError (write stack_ rest m))
  /\ (x = VType TABCMeta ->
      (repr_ stack_ ;;; eval_ stack_) m
      = Raised (LiteralProblem ProgramException "LiteralException"
                  (lit "ABCMeta"))
          (write stack_ rest m)).
Proof.
  intros Hr.
  assert (E : forall s, _repr x = Some s ->
              repr_ stack_ m = Ok tt (write stack_ (VStr s :: rest) m)).
  { intros s Hs. unfold repr_, bind. rewrite (get_object _ _ _ _ Hr), Hs.
    now stacks. }
  split; [|split].
  - intros s Hs. split; [exact (E s Hs)|]. intros Hc Hm.
    unfold bind at 1. rewrite (E s Hs). unfold eval_, bind.
    rewrite (get_cons stack_ t_str _ (VStr s) rest _
               (read_write _ _ _) eq_refl).
    rewrite (eval_repr x s Hc Hm Hs). stacks. f_equal. now apply write_same.
  - intros Hs. unfold repr_, bind. now rewrite (get_object _ _ _ _ Hr), Hs.
  - intros ->. unfold bind at 1. rewrite (E (lit "ABCMeta") eq_refl).
    unfold eval_, bind.
    rewrite (get_cons stack_ t_str _ (VStr (lit "ABCMeta")) rest _
               (read_write _ _ _) eq_refl).
    change (_eval (lit "ABCMeta")) with (@None value).
    unfold raise_str, LiteralProblem. now rewrite write_write.
Qed.

Lemma repr_then_eval_restores_witness :
  read ref_primary seven_two_machine = [VNum 7; VNum 2]
  /\ _repr (VNum 7) = Some (lit "7")
  /\ canonical (VNum 7)
  /\ VNum 7 <> VType TABCMeta
  /\ (repr_ ref_primary ;;; eval_ ref_primary) seven_two_machine
     = Ok tt seven_two_machine.
Proof.
  assert (H : VNum 7 <> VType TABCMeta) by discriminate.
  split; [reflexivity|]. split; [reflexivity|]. split; [reflexivity|].
  split; [exact H|].
  exact (proj2 (proj1 (repr_then_eval_restores ref_primary seven_two_machine
                         (VNum 7) [VNum 2] eq_refl)
                  (lit "7") eq_refl)
           eq_refl H).
Defined.

(** X7. [add] and [multiply] give the same result whichever of the two
    operands is on top. *)
Theorem add_multiply_commute (stack_ : sref) (m : machine) (a b : Q)
    (rest : stack) :
  read stack_ m = VNum a :: VNum b :: rest ->
  add stack_ m = Ok tt (write stack_ (VNum (Qred (b + a)) :: rest) m)
  /\ multiply stack_ m = Ok tt (write stack_ (VNum (Qred (b * a)) :: rest) m).
Proof.
  intros Hr.
  assert (G1 : _get stack_ t_num m = Ok a (write stack_ (VNum b :: rest) m))
    by (apply (get_cons stack_ t_num m (VNum a)); [exact Hr | reflexivity]).
  assert (G2 : _get stack_ t_num (write stack_ (VNum b :: rest) m)
               = Ok b (write stack_ rest m)).
  { rewrite (get_cons stack_ t_num _ (VNum b) rest b);
      [now rewrite write_write | apply read_write | reflexivity]. }
  split.
  - unfold add, bind. rewrite G1, G2. stacks.
    now rewrite (Qred_complete _ _ (Qplus_comm a b)).
  - unfold multiply, bind. rewrite G1, G2. stacks.
    now rewrite (Qred_complete _ _ (Qmult_comm a b)).
Qed.

Lemma add_multiply_commute_witness :
  read ref_primary seven_two_machine = [VNum 7; VNum 2]
  /\ add ref_primary seven_two_machine
     = Ok tt (write ref_primary [VNum (Qred (2 + 7))] seven_two_machine).
Proof.
  split; [reflexivity|].
  exact (proj1 (add_multiply_commute ref_primary seven_two_machine
                  7%Q 2%Q [] eq_refl)).
Defined.

Lemma random_success (stack_ : sref) (m : machine) (a b s : Q) (rest : stack) :
  read stack_ m = VNum a :: VNum b :: VNum s :: rest ->
  Qeq_bool a b = false -> Qeq_bool s 0 = false ->
  Bool.eqb (Qltb a b) (Qltb 0 s) = true ->
  random stack_ m
  = Ok tt (drawn (write stack_
       (VNum (Qred (a + ((Z.of_N (entropy m (draws m))
                          mod Qceiling ((b - a) / s))%Z # 1) * s)) :: rest) m)).
Proof.
  intros Hr Hab Hs Hsign.
  assert (G1 : _get stack_ t_num m
               = Ok a (write stack_ (VNum b :: VNum s :: rest) m))
    by (apply (get_cons stack_ t_num m (VNum a)); [exact Hr | reflexivity]).
  assert (G2 : _get stack_ t_num (write stack_ (VNum b :: VNum s :: rest) m)
               = Ok b (write stack_ (VNum s :: rest) m)).
  { rewrite (get_cons stack_ t_num _ (VNum b) (VNum s :: rest) b);
      [now rewrite write_write | apply read_write | reflexivity]. }
  assert (G3 : _get stack_ t_num (write stack_ (VNum s :: rest) m)
               = Ok s (write stack_ rest m)).
  { rewrite (get_cons stack_ t_num _ (VNum s) rest s);
      [now rewrite write_write | apply read_write | reflexivity]. }
  pose proof (range_size_positive a b s Hab Hs Hsign) as Hn.
  apply Z.leb_gt in Hn.
  unfold random, bind. rewrite G1, G2, Hab, G3, Hs, Hsign.
  unfold randrange. rewrite Hn. unfold append.
  destruct stack_, m; reflexivity.
Qed.

(** X8. When [random] succeeds, the value pushed is the start plus a
    non-negative whole number of steps, it is in lowest terms, and it lies
    between the start (included) and the end (excluded), on the side the
    step points to. *)
Theorem random_in_half_open_range (stack_ : sref) (m : machine) (a b s : Q)
    (rest : stack) :
  read stack_ m = VNum a :: VNum b :: VNum s :: rest ->
  Qeq_bool a b = false -> Qeq_bool s 0 = false ->
  Bool.eqb (Qltb a b) (Qltb 0 s) = true ->
  exists (r : Q) (k : Z),
    random stack_ m = Ok tt (drawn (write stack_ (VNum r :: rest) m))
    /\ Qred r = r
    /\ (0 <= k)%Z
    /\ (r == a + inject_Z k * s)%Q
    /\ ((0 < s)%Q -> (a <= r /\ r < b)%Q)
    /\ ((s < 0)%Q -> (b < r /\ r <= a)%Q).
Proof.
  intros Hr Hab Hs Hsign.
  pose proof (range_size_positive a b s Hab Hs Hsign) as Hn.
  set (n := Qceiling ((b - a) / s)) in *.
  set (k := (Z.of_N (entropy m (draws m)) mod n)%Z).
  assert (Hk : (0 <= k < n)%Z) by (apply Z.mod_pos_bound; exact Hn).
  exists (Qred (a + (k # 1) * s)), k.
  assert (Er : (Qred (a + (k # 1) * s) == a + inject_Z k * s)%Q)
    by (rewrite Qred_correct; reflexivity).
  assert (Hs0 : ~ (s == 0)%Q) by now apply Qeq_bool_false.
  assert (Hx : ((b - a) / s * s == b - a)%Q) by (field; exact Hs0).
  assert (Hkx : (inject_Z k < (b - a) / s)%Q).
  { apply Qle_lt_trans with (inject_Z (n - 1)).
    - rewrite <- Zle_Qle. lia.
    - apply Qceiling_lt. }
  assert (Hk0 : (0 <= inject_Z k)%Q) by (rewrite (Zle_Qle 0 k) in Hk; tauto).
  split; [exact (random_success stack_ m a b s rest Hr Hab Hs Hsign)|].
  split; [apply Qred_involutive|].
  split; [lia|]. split; [exact Er|].
  set (x := ((b - a) / s)%Q) in *. set (q := inject_Z k) in *.
  split; intros Hsg; rewrite Er; split; nra.
Qed.

Lemma random_in_half_open_range_witness :
  read ref_primary countdown_machine = [VNum 5; VNum 1; VNum (-1 # 1)]
  /\ Qeq_bool 5 1 = false /\ Qeq_bool (-1 # 1) 0 = false
  /\ Bool.eqb (Qltb 5 1) (Qltb 0 (-1 # 1)) = true
  /\ exists r,
       random ref_primary countdown_machine
       = Ok tt (drawn (write ref_primary [VNum r] countdown_machine))
       /\ (1 < r /\ r <= 5)%Q.
Proof.
  do 4 (split; [reflexivity|]).
  destruct (random_in_half_open_range ref_primary countdown_machine
              5%Q 1%Q (-1 # 1)%Q [] eq_refl eq_refl eq_refl eq_refl)
    as [r [k [E [_ [_ [_ [_ Hneg]]]]]]].
  exists r. split; [exact E | apply Hneg; reflexivity].
Defined.

(** ** Fuel and the reach of the stacks *)

(** ** Fuel *)

Lemma bind_finished {A B} (c : M A) (k : A -> M B) (m : machine) :
  finished (bind c k m) ->
  finished (c m)
  /\ forall a m', c m = Ok a m' -> finished (k a m').
Proof.
  unfold bind. destruct (c m) as [a m'| | |]; simpl; intros H; split;
    try exact I; try exact H; try discriminate.
  intros a0 m0 [= -> ->]. exact H.
Qed.

Lemma bind_more {A B} (c c' : M A) (k k' : A -> M B) (m : machine) :
  finished (bind c k m) ->
  (finished (c m) -> c' m = c m) ->
  (forall a m', c m = Ok a m' -> finished (k a m') -> k' a m' = k a m') ->
  bind c' k' m = bind c k m.
Proof.
  intros Hf Hc Hk. destruct (bind_finished c k m Hf) as [H1 H2].
  unfold bind. rewrite (Hc H1). destruct (c m) as [a m'| | |]; try reflexivity.
  apply Hk; [reflexivity|]. now apply H2.
Qed.

Lemma for_each_more (run run' : command -> sref -> M unit)
    (body : list command) (stack_ : sref) :
  (forall c m, In c body -> finished (run c stack_ m) ->
               run' c stack_ m = run c stack_ m) ->
  forall m, finished (for_each run body stack_ m) ->
            for_each run' body stack_ m = for_each run body stack_ m.
Proof.
  induction body as [|c body IH]; intros H m Hf; simpl in *; [reflexivity|].
  apply bind_more; [exact Hf | |].
  - apply H. now left.
  - intros _ m' _ Hf'. apply IH; [|exact Hf'].
    intros c' m0 Hin. apply H. now right.
Qed.

Lemma call_one_more (fuel : nat) :
  forall c stack_ m,
    finished (call fuel c stack_ m) ->
    call (S fuel) c stack_ m = call fuel c stack_ m.
Proof.
  induction fuel as [|fuel IH]; intros c stack_ m Hf; [contradiction|].
  assert (Hfe : forall body s m0,
             finished (for_each (call fuel) body s m0) ->
             for_each (call (S fuel)) body s m0
             = for_each (call fuel) body s m0).
  { intros body s m0. apply for_each_more. intros c0 m1 _. apply IH. }
  destruct c as [o|v|[| |n| |] body]; try reflexivity.
  - change (finished (for_each (call fuel) body stack_ m)) in Hf.
    change (for_each (call (S fuel)) body stack_ m
            = for_each (call fuel) body stack_ m).
    now apply Hfe.
  - change (finished ((b <- _get stack_ t_bool ;;
              if b then for_each (call fuel) body stack_ else ret tt) m)) in Hf.
    change ((b <- _get stack_ t_bool ;;
              if b then for_each (call (S fuel)) body stack_ else ret tt) m
            = (b <- _get stack_ t_bool ;;
              if b then for_each (call fuel) body stack_ else ret tt) m).
    apply bind_more; [exact Hf | reflexivity |].
    intros [|] m' _ Hf'; [now apply Hfe | reflexivity].
  - change (finished ((b <- _get stack_ t_bool ;;
              for_each (call fuel)
                (if b then firstn n body else skipn n body) stack_) m)) in Hf.
    change ((b <- _get stack_ t_bool ;;
              for_each (call (S fuel))
                (if b then firstn n body else skipn n body) stack_) m
            = (b <- _get stack_ t_bool ;;
              for_each (call fuel)
                (if b then firstn n body else skipn n body) stack_) m).
    apply bind_more; [exact Hf | reflexivity |].
    intros b m' _ Hf'. now apply Hfe.
  - change (finished (for_each (call fuel) body ref_secondary m)) in Hf.
    change (for_each (call (S fuel)) body ref_secondary m
            = for_each (call fuel) body ref_secondary m).
    now apply Hfe.
  - change (finished ((b <- _get stack_ t_bool ;;
              if b then for_each (call fuel) body stack_ ;;;
                        call fuel (Blk while_ body) stack_
              else ret tt) m)) in Hf.
    change ((b <- _get stack_ t_bool ;;
              if b then for_each (call (S fuel)) body stack_ ;;;
                        call (S fuel) (Blk while_ body) stack_
              else ret tt) m
            = (b <- _get stack_ t_bool ;;
              if b then for_each (call fuel) body stack_ ;;;
                        call fuel (Blk while_ body) stack_
              else ret tt) m).
    apply bind_more; [exact Hf | reflexivity |].
    intros [|] m' _ Hf'; [|reflexivity].
    apply bind_more; [exact Hf' | apply Hfe |].
    intros _ m2 _ Hf2. now apply IH.
Qed.

(** ** The secondary stack at top level *)

Lemma command_tree_ind (P : command -> Prop) :
  (forall o, P (Builtin o)) ->
  (forall v, P (Partial v)) ->
  (forall k body, Forall P body -> P (Blk k body)) ->
  forall c, P c.
Proof.
  intros Hb Hp Hk.
  fix F 1. intros [o|v|k body]; [apply Hb | apply Hp |].
  apply Hk. induction body as [|c body IH]; constructor; [apply F | exact IH].
Qed.

Lemma plain_has_no_flip (c : command) : plain c = true -> has_flip c = false.
Proof.
  induction c as [o|v|k body IH] using command_tree_ind; intros H.
  - destruct o; try reflexivity. discriminate H.
  - reflexivity.
  - assert (Hb : forallb plain body = true) by (destruct k; try exact H; discriminate H).
    simpl. clear H. induction IH as [|c body Hc _ IHb]; [reflexivity|].
    simpl in *. apply andb_true_iff in Hb as [H1 H2].
    now rewrite (Hc H1), (IHb H2).
Qed.

(** X10. A command that contains neither [flip] nor a [second] block,
    called with the primary stack, leaves the secondary stack as it
    was, however the run ends. *)
Theorem plain_program_keeps_secondary (fuel : nat) (c : command) (m : machine) :
  plain c = true ->
  secondary (final (call fuel c ref_primary m)) = secondary m.
Proof.
  intros Hp.
  pose proof (call_keeps_primary fuel c (plain_has_no_flip c Hp) (exchange m))
    as Hk.
  rewrite (call_mirrored fuel c Hp (exchange m)), exchange_exchange in Hk.
  destruct (call fuel c ref_primary m); exact Hk.
Qed.

Lemma plain_program_keeps_secondary_witness :
  plain (Blk if_ [Builtin op_add]) = true
  /\ secondary (final (call 3 (Blk if_ [Builtin op_add]) ref_primary
                         one_two_machine))
     = [VNum 2; VNum 3].
Proof.
  split; [reflexivity|].
  exact (plain_program_keeps_secondary 3 (Blk if_ [Builtin op_add])
           one_two_machine eq_refl).
Defined.

(** ** How runs end *)

Lemma continues_refl (m : machine) : continues m m.
Proof.
  repeat split; [exists []; now rewrite app_nil_r | now exists O | lia].
Qed.

Lemma continues_trans (m1 m2 m3 : machine) :
  continues m1 m2 -> continues m2 m3 -> continues m1 m3.
Proof.
  intros [[o1 H1] [[n1 H2] [H3 H4]]] [[o2 G1] [[n2 G2] [G3 G4]]].
  repeat split.
  - exists (o1 ++ o2). now rewrite G1, H1, app_assoc.
  - exists (n1 + n2)%nat. rewrite G2, H2, skipn_skipn. f_equal. lia.
  - lia.
  - congruence.
Qed.

Lemma continues_write (stack_ : sref) (s : stack) (m : machine) :
  continues m (write stack_ s m).
Proof.
  destruct stack_; repeat split; simpl;
    try (exists []; now rewrite app_nil_r); try (now exists O); lia.
Qed.

Section Tame.

Lemma tame_ret {A} (a : A) : tame (ret a).
Proof. intros m. split; [apply continues_refl | exact I]. Qed.

Lemma tame_bind {A B} (c : M A) (k : A -> M B) :
  tame c -> (forall a, tame (k a)) -> tame (bind c k).
Proof.
  intros Hc Hk m. unfold bind. destruct (Hc m) as [H1 H2].
  destruct (c m) as [a m'| | |]; try (split; assumption).
  destruct (Hk a m') as [G1 G2]. split; [|exact G2].
  exact (continues_trans _ _ _ H1 G1).
Qed.

Lemma tame_get {A} (stack_ : sref) (t : pytype A) : tame (_get stack_ t).
Proof.
  intros m. unfold _get, raise, raise_str.
  destruct (read stack_ m) as [|x rest]; [split; [apply continues_refl | reflexivity]|].
  destruct (isinstance x t);
    (split; [apply continues_write | reflexivity || exact I]).
Qed.

Lemma tame_crash {A} (e : pyexc) :
  e = UnicodeEncodeError \/ e = ValueError -> tame (@crash A e).
Proof. intros He m. split; [apply continues_refl | now right]. Qed.

Lemma tame_append (stack_ : sref) (x : value) : tame (append stack_ x).
Proof. intros m. split; [apply continues_write | exact I]. Qed.

Lemma tame_extend (stack_ : sref) (xs : list value) : tame (extend stack_ xs).
Proof. intros m. split; [apply continues_write | exact I]. Qed.

Lemma tame_raise {A} (n d : string) : tame (@raise A ProgramException n d).
Proof. intros m. split; [apply continues_refl | reflexivity]. Qed.

Lemma tame_raise_str {A} (n : string) (d : str) :
  tame (@raise_str A ProgramException n d).
Proof. intros m. split; [apply continues_refl | reflexivity]. Qed.

Lemma tame_randrange (n : Z) : (0 < n)%Z -> tame (randrange n).
Proof.
  intros Hn m. unfold randrange. apply Z.leb_gt in Hn. rewrite Hn.
  split; [|exact I]. repeat split; simpl;
    [exists []; now rewrite app_nil_r | now exists O | lia].
Qed.

Lemma tame_console_write (x : str) : tame (console_write x).
Proof.
  intros m. unfold console_write. destruct (existsb is_surrogate x).
  - apply tame_crash. now left.
  - split; [|exact I]. repeat split; simpl;
      [now exists x | now exists O | lia].
Qed.

Lemma tame_input (stack_ : sref) : tame (input_ stack_).
Proof.
  intros m. unfold input_. destruct (stdin m) as [|l ls] eqn:E.
  - split; [apply continues_refl | left; now split].
  - split; [|exact I]. unfold append.
    eapply continues_trans; [|apply continues_write].
    repeat split; simpl;
      [exists []; now rewrite app_nil_r | exists 1%nat; now rewrite E | lia].
Qed.

Ltac tame_step :=
  match goal with
  | |- tame (bind _ _) => apply tame_bind; [|intro]
  | |- tame (_get _ _) => apply tame_get
  | |- tame (append _ _) => apply tame_append
  | |- tame (extend _ _) => apply tame_extend
  | |- tame (ret _) => apply tame_ret
  | |- tame (raise _ _ _) => apply tame_raise
  | |- tame (raise_str _ _ _) => apply tame_raise_str
  | |- tame (console_write _) => apply tame_console_write
  | |- tame (crash _) => apply tame_crash; now right
  | |- tame (randrange _) =>
      apply tame_randrange; apply range_size_positive; assumption
  | |- tame (if ?b then _ else _) => destruct b eqn:?
  | |- tame (match ?x with _ => _ end) => destruct x
  end.

Lemma builtin_tame (o : opname) (stack_ : sref) : tame (builtin o stack_).
Proof.
  destruct o; try apply tame_input;
    unfold builtin, add, and_, chr_, concat, divide, drop, dupe, equal,
      eval_, flip, greater, len_, less, multiply, not_, or_, ord_, print_,
      random, repr_, split, subtract, typeof;
    repeat tame_step.
Qed.

Lemma for_each_tame (run : command -> sref -> M unit) (body : list command)
    (stack_ : sref) :
  (forall c s, tame (run c s)) -> tame (for_each run body stack_).
Proof.
  intros H. induction body as [|c body IH]; simpl.
  - apply tame_ret.
  - apply tame_bind; [apply H | intros _; exact IH].
Qed.

Lemma call_tame (fuel : nat) : forall c stack_, tame (call fuel c stack_).
Proof.
  induction fuel as [|fuel IH]; intros c stack_.
  - intros m. split; [apply continues_refl | exact I].
  - destruct c as [o|v|[| |n| |] body]; simpl.
    + apply builtin_tame.
    + apply tame_append.
    + now apply for_each_tame.
    + apply tame_bind; [apply tame_get|].
      intros [|]; [now apply for_each_tame | apply tame_ret].
    + apply tame_bind; [apply tame_get|]. intros b. now apply for_each_tame.
    + now apply for_each_tame.
    + apply tame_bind; [apply tame_get|].
      intros [|]; [|apply tame_ret].
      apply tame_bind; [now apply for_each_tame | intros _; apply IH].
Qed.

End Tame.



(** X12. A run only adds to the end of standard output, only consumes
    standard input from the front, and only counts its random draws up;
    this holds however it ends. *)
Theorem run_continues_console (fuel : nat) (c : command) (stack_ : sref)
    (m : machine) :
  let m' := final (call fuel c stack_ m) in
  (exists out, stdout m' = stdout m ++ out)
  /\ (exists n, stdin m' = skipn n (stdin m))
  /\ (draws m <= draws m')%nat
  /\ entropy m' = entropy m.
Proof. exact (proj1 (call_tame fuel c stack_ m)). Qed.

(** ** Numbers stay in lowest terms *)

Lemma canonical_blk (k : block_class) (body : list command) :
  canonical_command (Blk k body) <-> Forall canonical_command body.
Proof.
  simpl. induction body as [|c body IH].
  - split; [constructor | trivial].
  - split.
    + intros [H1 H2]. constructor; [exact H1 | now apply IH].
    + intros H. inversion H; subst. split; [assumption | now apply IH].
Qed.

Lemma canonical_integer (z : Z) : Qred (z # 1) = z # 1.
Proof. apply Qred_identity. simpl. apply Z.gcd_1_r. Qed.

Lemma canonical_read (stack_ : sref) (m : machine) :
  canonical_machine m -> Forall canonical (read stack_ m).
Proof. intros [H1 H2]. now destruct stack_. Qed.

Lemma canonical_write (stack_ : sref) (s : stack) (m : machine) :
  canonical_machine m -> Forall canonical s ->
  canonical_machine (write stack_ s m).
Proof. intros [H1 H2] Hs. destruct stack_; split; assumption. Qed.

Section Sane.

Lemma sane_ret {A} (g : A -> Prop) (a : A) : g a -> sane g (ret a).
Proof. intros Ha m Hm. split; [exact Hm|]. now intros a' m' [= <- _]. Qed.

Lemma sane_bind {A B} (g : A -> Prop) (h : B -> Prop) (c : M A)
    (k : A -> M B) :
  sane g c -> (forall a, g a -> sane h (k a)) -> sane h (bind c k).
Proof.
  intros Hc Hk m Hm. unfold bind. destruct (Hc m Hm) as [H1 H2].
  destruct (c m) as [a m'| | |] eqn:E;
    try (split; [exact H1 | intros; discriminate]).
  exact (Hk a (H2 a m' eq_refl) m' H1).
Qed.

Lemma sane_get {A} (stack_ : sref) (t : pytype A) :
  sane (canonical_as t) (_get stack_ t).
Proof.
  intros m Hm. unfold _get, raise, raise_str.
  pose proof (canonical_read stack_ m Hm) as Hr.
  destruct (read stack_ m) as [|x rest]; [split; [exact Hm | intros; discriminate]|].
  inversion Hr as [|? ? Hx Hrest]; subst.
  destruct (isinstance x t) as [a|] eqn:E; simpl.
  - split; [now apply canonical_write|].
    intros a' m' [= <- _].
    destruct t, x; simpl in E; try discriminate E; injection E as <-;
      try exact I; exact Hx.
  - split; [now apply canonical_write | intros; discriminate].
Qed.

Lemma sane_append (stack_ : sref) (x : value) :
  canonical x -> sane (fun _ => True) (append stack_ x).
Proof.
  intros Hx m Hm. split; [|trivial]. apply canonical_write; [exact Hm|].
  constructor; [exact Hx | now apply canonical_read].
Qed.

Lemma sane_extend (stack_ : sref) (xs : list value) :
  Forall canonical xs -> sane (fun _ => True) (extend stack_ xs).
Proof.
  intros Hx m Hm. split; [|trivial]. apply canonical_write; [exact Hm|].
  apply Forall_app. split; [now apply Forall_rev | now apply canonical_read].
Qed.

Lemma sane_raise {A} (g : A -> Prop) (c : raisable_class) (n d : string) :
  sane g (@raise A c n d).
Proof. intros m Hm. split; [exact Hm | intros; discriminate]. Qed.

Lemma sane_raise_str {A} (g : A -> Prop) (c : raisable_class) (n : string)
    (d : str) :
  sane g (@raise_str A c n d).
Proof. intros m Hm. split; [exact Hm | intros; discriminate]. Qed.

Lemma sane_randrange (n : Z) : sane (fun _ => True) (randrange n).
Proof.
  intros m Hm. unfold randrange. destruct (n <=? 0)%Z; (split; [exact Hm | trivial]).
Qed.

Lemma sane_crash {A} (g : A -> Prop) (e : pyexc) : sane g (@crash A e).
Proof. intros m Hm. split; [exact Hm | intros; discriminate]. Qed.

Lemma sane_console_write (x : str) : sane (fun _ => True) (console_write x).
Proof.
  intros m Hm. unfold console_write.
  destruct (existsb is_surrogate x); (split; [exact Hm | trivial]).
Qed.

Lemma sane_input (stack_ : sref) : sane (fun _ => True) (input_ stack_).
Proof.
  intros m Hm. unfold input_. destruct (stdin m) as [|l ls].
  - split; [exact Hm | trivial].
  - apply (sane_append stack_ (VStr l) I). exact Hm.
Qed.

Lemma strings_canonical (xs : list str) :
  Forall canonical (List.map VStr xs).
Proof. induction xs; constructor; [exact I | assumption]. Qed.

Ltac sane_step :=
  match goal with
  | |- sane _ (bind (_get _ _) _) =>
      eapply sane_bind; [apply sane_get | intros ? ?]
  | |- sane _ (bind (randrange _) _) =>
      eapply sane_bind; [apply sane_randrange | intros ? ?]
  | |- sane _ (append _ _) => apply sane_append
  | |- sane _ (extend _ _) => apply sane_extend
  | |- sane _ (ret _) => apply sane_ret; exact I
  | |- sane _ (raise _ _ _) => apply sane_raise
  | |- sane _ (raise_str _ _ _) => apply sane_raise_str
  | |- sane _ (console_write _) => apply sane_console_write
  | |- sane _ (crash _) => apply sane_crash
  | |- sane _ (if ?b then _ else _) => destruct b eqn:?
  | |- sane _ (match ?x with _ => _ end) => destruct x eqn:?
  end.

Lemma builtin_sane (o : opname) (stack_ : sref) :
  sane (fun _ => True) (builtin o stack_).
Proof.
  destruct o; try apply sane_input;
    unfold builtin, add, and_, chr_, concat, divide, drop, dupe, equal,
      eval_, flip, greater, len_, less, multiply, not_, or_, ord_, print_,
      random, repr_, split, subtract, typeof, num_of_Z;
    repeat sane_step;
    cbn [canonical canonical_as] in *;
    try exact I; try apply Qred_involutive; try apply canonical_integer;
    try assumption.
  - repeat constructor; assumption.
  - eapply eval_canonical; eassumption.
  - apply Forall_forall. intros v Hv. apply in_map_iff in Hv as [c [<- _]].
    exact I.
Qed.

Lemma for_each_sane (run : command -> sref -> M unit) (body : list command)
    (stack_ : sref) :
  (forall c, In c body -> sane (fun _ => True) (run c stack_)) ->
  sane (fun _ => True) (for_each run body stack_).
Proof.
  induction body as [|c body IH]; intros H; simpl.
  - apply sane_ret. exact I.
  - eapply sane_bind; [apply H; now left|].
    intros _ _. apply IH. intros c' Hc'. apply H. now right.
Qed.

Lemma call_sane (fuel : nat) :
  forall c stack_, canonical_command c ->
    sane (fun _ => True) (call fuel c stack_).
Proof.
  induction fuel as [|fuel IH]; intros c stack_ Hc.
  - intros m Hm. split; [exact Hm | trivial].
  - destruct c as [o|v|k body].
    + apply builtin_sane.
    + now apply sane_append.
    + apply canonical_blk in Hc.
      assert (Hin : forall s c, In c body ->
                sane (fun _ => True) (call fuel c s)).
      { intros s c Hin. apply IH. exact (proj1 (Forall_forall _ _) Hc c Hin). }
      destruct k as [| |n| |]; simpl.
      * apply for_each_sane. apply Hin.
      * eapply sane_bind; [apply sane_get|].
        intros [|] _; [apply for_each_sane; apply Hin | apply sane_ret; exact I].
      * eapply sane_bind; [apply sane_get|].
        intros b _. apply for_each_sane. intros c Hc'. apply Hin.
        destruct b; [exact (in_firstn _ _ _ Hc') | exact (in_skipn _ _ _ Hc')].
      * apply for_each_sane. apply Hin.
      * eapply sane_bind; [apply sane_get|].
        intros [|] _; [|apply sane_ret; exact I].
        eapply sane_bind; [apply for_each_sane; apply Hin|].
        intros _ _. apply IH. now apply canonical_blk.
Qed.

End Sane.

(** ** What one line does to the block it targets *)

Lemma last_item_app (body : list command) (x : command) :
  last_item (body ++ [x]) = Some x.
Proof.
  destruct body as [|c body]; [reflexivity|].
  simpl. f_equal. apply (last_last body x c).
Qed.

Lemma last_item_in (body : list command) (x : command) :
  last_item body = Some x -> In x body.
Proof.
  intros H. rewrite (last_item_split body x H). apply in_or_app. right. now left.
Qed.

(** The effect of a line that is accepted at a block: a new item at the
    end (a literal that evaluates, or an entry of the command table, never a
    [second] in a [second]), or the last [if_] turned into an [if_else]. *)
Lemma statement_loaded (line : str) (c : block_class) (body : list command)
    (t : command) :
  statement line (Blk c body) = Loaded t ->
  (exists obj,
      t = Blk c (body ++ [obj])
      /\ (c = second -> is_second obj = false)
      /\ ((exists v, obj = Partial v /\ _eval (skipn 5 line) = Some v)
          \/ command_table line = Some obj))
  \/ (exists _if,
      last_item body = Some (Blk if_ _if)
      /\ t = Blk c (removelast body ++ [Blk (if_else (List.length _if)) _if])).
Proof.
  unfold statement. intros H.
  assert (A : forall obj, block_append c body obj = Loaded t ->
              t = Blk c (body ++ [obj]) /\ (c = second -> is_second obj = false)).
  { intros obj E. unfold block_append in E.
    destruct c; try (injection E as <-; split; [reflexivity | discriminate]).
    destruct (is_second obj); [discriminate E|].
    injection E as <-. split; [reflexivity | trivial]. }
  destruct (startswith line (lit "push ")).
  - destruct (_eval (skipn 5 line)) as [v|] eqn:Ev; [|discriminate H].
    left. exists (Partial v). destruct (A _ H) as [-> Hs].
    split; [reflexivity|]. split; [exact Hs|]. left. now exists v.
  - destruct (str_eqb line (lit "else")).
    + destruct (last_item body) as [[| |[| | | |] _if]|] eqn:El; try discriminate H.
      right. exists _if. split; [reflexivity|].
      unfold block_set_last in H. simpl is_second in H.
      destruct c; now injection H as <-.
    + destruct (command_table line) as [obj|] eqn:Ec; [|discriminate H].
      left. exists obj. destruct (A _ H) as [-> Hs].
      split; [reflexivity|]. split; [exact Hs|]. now right.
Qed.

Lemma statement_needs_block (line : str) (target t : command) :
  statement line target = Loaded t -> exists c body, target = Blk c body.
Proof.
  destruct target as [o|v|c body]; [| |intros _; now exists c, body];
    unfold statement; intros H;
    repeat match type of H with
           | (if ?b then _ else _) = _ => destruct b
           end; discriminate H.
Qed.

(** ** Induction over the loader *)

Section LoaderInvariant.

Variable Inv : command -> Prop.

Hypothesis inv_empty :
  forall c, (forall n, c <> if_else n) -> Inv (Blk c []).
Hypothesis inv_builtin : forall o, Inv (Builtin o).
Hypothesis inv_item :
  forall c body x, Inv (Blk c body) -> In x body -> Inv x.
Hypothesis inv_append :
  forall c body obj,
    Inv (Blk c body) -> Inv obj -> (c = second -> is_second obj = false) ->
    Inv (Blk c (body ++ [obj])).
Hypothesis inv_upgrade :
  forall c body _if,
    Inv (Blk c body) -> last_item body = Some (Blk if_ _if) ->
    Inv (Blk c (removelast body ++ [Blk (if_else (List.length _if)) _if])).
Hypothesis inv_replace :
  forall c body child child',
    Inv (Blk c body) -> last_item body = Some child ->
    Inv child' -> same_class child child' ->
    Inv (Blk c (removelast body ++ [child'])).
Hypothesis inv_literal :
  forall x v, _eval x = Some v -> Inv (Partial v).

Lemma command_table_entry (line : str) (obj : command) :
  command_table line = Some obj ->
  (exists o, obj = Builtin o)
  \/ (exists c, obj = Blk c [] /\ forall n, c <> if_else n).
Proof.
  unfold command_table. intros H.
  repeat match type of H with
         | (if ?b then _ else _) = _ => destruct b
         end; try discriminate H; injection H as <-;
    first [left; eexists; reflexivity
          | right; eexists; split; [reflexivity | discriminate]].
Qed.

Lemma statement_inv (line : str) (target t : command) :
  statement line target = Loaded t -> Inv target ->
  Inv t /\ same_class target t.
Proof.
  intros H Hi.
  destruct (statement_needs_block _ _ _ H) as [c [body ->]].
  destruct (statement_loaded _ _ _ _ H)
    as [[obj [-> [Hs Hobj]]] | [_if [Hl ->]]].
  - split; [|reflexivity]. apply inv_append; [exact Hi | | exact Hs].
    destruct Hobj as [[v [-> Hv]] | Hc]; [exact (inv_literal _ _ Hv)|].
    destruct (command_table_entry _ _ Hc) as [[o ->] | [k [-> Hk]]];
      [apply inv_builtin | now apply inv_empty].
  - split; [|reflexivity]. now apply inv_upgrade.
Qed.

Lemma descend_inv (d : nat) (line : str) :
  forall target t,
    descend d line target = Loaded t -> Inv target ->
    Inv t /\ same_class target t.
Proof.
  induction d as [|d IH]; intros target t H Hi.
  - exact (statement_inv line target t H Hi).
  - simpl in H. destruct target as [| |k body]; try discriminate H.
    destruct (last_item body) as [child|] eqn:El; [|discriminate H].
    destruct (descend d line child) as [child'| |] eqn:Ed; try discriminate H.
    injection H as <-.
    destruct (IH child child' Ed (inv_item _ _ _ Hi (last_item_in _ _ El)))
      as [Hc Hsame].
    split; [|reflexivity]. now apply (inv_replace k body child child').
Qed.

Lemma load_from_inv (source : list str) :
  forall next ln main prog ln',
    load_from source next ln main = LoadOk prog ln' -> Inv main -> Inv prog.
Proof.
  induction source as [|line source IH]; intros next ln main prog ln' H Hi;
    simpl in H.
  - now injection H as <- _.
  - unfold load_line in H. destruct (indentation line) as [d rest].
    destruct (descend d rest main) as [main'| |] eqn:Ed; try discriminate H.
    exact (IH _ _ _ _ _ H (proj1 (descend_inv d rest main main' Ed Hi))).
Qed.

(** Whatever holds of the empty program and is kept by the three ways a
    line changes a block holds of every program the loader accepts. *)
Lemma load_inv (source : list str) (prog : command) (ln : option nat) :
  load source = LoadOk prog ln -> Inv prog.
Proof.
  intros H. apply (load_from_inv source _ _ _ _ _ H).
  apply inv_empty. discriminate.
Qed.

End LoaderInvariant.

Lemma removelast_items (body : list command) (x : command) (P : command -> Prop) :
  last_item body = Some x -> Forall P body ->
  Forall P (removelast body) /\ P x.
Proof.
  intros Hl Hb. rewrite (last_item_split body x Hl) in Hb.
  apply Forall_app in Hb as [H1 H2]. split; [exact H1 | now inversion H2].
Qed.

Lemma loaded_program_canonical (source : list str) (prog : command)
    (ln : option nat) :
  load source = LoadOk prog ln -> canonical_command prog.
Proof.
  apply (load_inv canonical_command).
  - intros c _. exact I.
  - intros o. exact I.
  - intros c body x H Hin. apply canonical_blk in H.
    exact (proj1 (Forall_forall _ _) H x Hin).
  - intros c body obj H Ho _. apply canonical_blk. apply canonical_blk in H.
    apply Forall_app. split; [exact H | now constructor].
  - intros c body _if H Hl. apply canonical_blk. apply canonical_blk in H.
    destruct (removelast_items body _ _ Hl H) as [H1 H2].
    apply Forall_app. split; [exact H1|]. constructor; [|constructor].
    apply canonical_blk. now apply canonical_blk in H2.
  - intros c body child child' H Hl Hc _. apply canonical_blk.
    apply canonical_blk in H.
    destruct (removelast_items body _ _ Hl H) as [H1 _].
    apply Forall_app. split; [exact H1 | now constructor].
  - intros x v Hv. exact (eval_canonical x v Hv).
Qed.

(** X13. Every value left on either stack by the run of a source, however
    the run ends, is in lowest terms, and whenever [_repr] produces its
    text [_eval] gives the value back from it, unless the value is the
    class ABCMeta: but for that class, the lines of a stack dump can be
    read back. *)
Theorem final_stacks_read_back (fuel : nat) (source input : list str)
    (rnd : nat -> N) (v : value) :
  In v (t_primary (main fuel source input rnd))
  \/ In v (t_secondary (main fuel source input rnd)) ->
  canonical v
  /\ (forall s, _repr v = Some s -> v <> VType TABCMeta -> _eval s = Some v).
Proof.
  intros Hin.
  assert (Hc : canonical v);
    [|split; [exact Hc | intros s Hs Hm; now apply eval_repr]].
  unfold main in Hin.
  destruct (load source) as [prog ln|e n|] eqn:El;
    [|destruct (handler e n (boot input rnd)); destruct Hin as [[]|[]]
     |destruct Hin as [[]|[]]].
  pose proof (call_sane fuel prog ref_primary
                (loaded_program_canonical _ _ _ El) (boot input rnd)
                (conj (Forall_nil _) (Forall_nil _))) as [[H1 H2] _].
  destruct (call fuel prog ref_primary (boot input rnd)) as [u m|e m|e m|m];
    simpl in H1, H2;
    try (destruct ln as [n|]; [destruct (handler e n m)|]);
    simpl in Hin;
    (destruct Hin as [Hin|Hin];
     [exact (proj1 (Forall_forall _ _) H1 v Hin)
     | exact (proj1 (Forall_forall _ _) H2 v Hin)]).
Qed.

Lemma final_stacks_read_back_witness :
  In (VNum (1 # 2)) (t_primary (main 2 [lit "push 2/4"] [] (fun _ => 0)))
  /\ _repr (VNum (1 # 2)) = Some (lit "1/2")
  /\ VNum (1 # 2) <> VType TABCMeta
  /\ _eval (lit "1/2") = Some (VNum (1 # 2)).
Proof.
  assert (H : VNum (1 # 2) <> VType TABCMeta) by discriminate.
  split; [left; reflexivity|]. split; [reflexivity|]. split; [exact H|].
  exact (proj2 (final_stacks_read_back 2 [lit "push 2/4"] [] (fun _ => 0)
                  (VNum (1 # 2)) (or_introl (or_introl eq_refl)))
           (lit "1/2") eq_refl H).
Defined.

Lemma slices_blk (k : block_class) (body : list command) :
  slices_in_bounds (Blk k body) = true <->
  (forall n, k = if_else n -> (n <= List.length body)%nat)
  /\ Forall (fun c => slices_in_bounds c = true) body.
Proof.
  simpl. rewrite andb_true_iff, forallb_forall, Forall_forall. split.
  - intros [H1 H2]. split; [|exact H2]. intros n ->. now apply Nat.leb_le.
  - intros [H1 H2]. split; [|exact H2].
    destruct k; try reflexivity. apply Nat.leb_le. now apply H1.
Qed.

Lemma length_set_last (body : list command) (x y : command) :
  last_item body = Some x ->
  List.length (removelast body ++ [y]) = List.length body.
Proof.
  intros Hl. rewrite (last_item_split body x Hl) at 2.
  now rewrite !length_app.
Qed.

Lemma loaded_program_slices (source : list str) (prog : command)
    (ln : option nat) :
  load source = LoadOk prog ln -> slices_in_bounds prog = true.
Proof.
  apply (load_inv (fun c => slices_in_bounds c = true)).
  - intros c Hc. destruct c; try reflexivity. now destruct (Hc len_if).
  - intros o. reflexivity.
  - intros c body x H Hin. apply slices_blk in H as [_ H].
    exact (proj1 (Forall_forall _ _) H x Hin).
  - intros c body obj H Ho _. apply slices_blk. apply slices_blk in H as [H1 H2].
    split.
    + intros n E. rewrite length_app. specialize (H1 n E). lia.
    + apply Forall_app. split; [exact H2 | now constructor].
  - intros c body _if H Hl. apply slices_blk. apply slices_blk in H as [H1 H2].
    destruct (removelast_items body _ _ Hl H2) as [G1 G2].
    split.
    + intros n E. rewrite (length_set_last body _ _ Hl). now apply H1.
    + apply Forall_app. split; [exact G1|]. constructor; [|constructor].
      apply slices_blk. apply slices_blk in G2 as [_ G2].
      split; [|exact G2]. intros n [= <-]. lia.
  - intros c body child child' H Hl Hc _. apply slices_blk.
    apply slices_blk in H as [H1 H2].
    destruct (removelast_items body _ _ Hl H2) as [G1 _].
    split.
    + intros n E. rewrite (length_set_last body _ _ Hl). now apply H1.
    + apply Forall_app. split; [exact G1 | now constructor].
  - intros x v _. reflexivity.
Qed.

(** ** Top-level shape *)

Lemma descend_same_class (d : nat) (line : str) (target t : command) :
  descend d line target = Loaded t -> same_class target t.
Proof.
  intros H.
  refine (proj2 (descend_inv (fun _ => True) _ _ _ _ _ _ _ d line target t H I));
    intros; exact I.
Qed.

Lemma loaded_program_is_block (source : list str) (prog : command)
    (ln : option nat) :
  load source = LoadOk prog ln -> exists body, prog = Blk Block body.
Proof.
  unfold load.
  assert (G : forall next ln0 body0,
             load_from source next ln0 (Blk Block body0) = LoadOk prog ln ->
             exists body, prog = Blk Block body).
  { induction source as [|line source IH]; intros next ln0 body0 H; simpl in H.
    - injection H as <- _. now exists body0.
    - unfold load_line in H. destruct (indentation line) as [d rest].
      destruct (descend d rest (Blk Block body0)) as [main'| |] eqn:Ed;
        try discriminate H.
      pose proof (descend_same_class _ _ _ _ Ed) as Hs.
      destruct main' as [| |k body1]; try contradiction.
      simpl in Hs. subst k. exact (IH _ _ _ H). }
  apply G.
Qed.

(** X14. Every program the loader accepts is a plain [Block] whose
    [if_else] blocks hold at least the items their [if] had, whose
    literals are in lowest terms, and in which no [second] block holds a
    [second] block as an item. *)
Theorem loaded_program_shape (source : list str) (prog : command)
    (ln : option nat) :
  load source = LoadOk prog ln ->
  (exists body, prog = Blk Block body)
  /\ slices_in_bounds prog = true
  /\ canonical_command prog
  /\ well_nested prog = true.
Proof.
  intros H. split; [exact (loaded_program_is_block _ _ _ H)|].
  split; [exact (loaded_program_slices _ _ _ H)|].
  split; [exact (loaded_program_canonical _ _ _ H)
         | exact (loaded_program_well_nested _ _ _ H)].
Qed.

Lemma loaded_program_shape_witness :
  load second_if_second
  = LoadOk (Blk Block [Blk second [Blk if_ [Blk second []]]]) (Some 3%nat)
  /\ well_nested (Blk Block [Blk second [Blk if_ [Blk second []]]]) = true.
Proof.
  split; [reflexivity|].
  exact (proj2 (proj2 (proj2 (loaded_program_shape second_if_second _ _
                                eq_refl)))).
Defined.

(** ** Where loading stops *)

(** X15. When the lines before a line load and that line raises a
    ProgramError, loading the whole source fails with that error at the
    number of that line, whatever follows: only the header is written, no
    stack is dumped and nothing has run. When the line raises an uncaught
    exception instead, nothing is written at all. *)
Theorem load_error_at_first_bad_line (pre post : list str) (line : str)
    (prog : command) (ln : option nat) (fuel : nat) (input : list str)
    (rnd : nat -> N) :
  load pre = LoadOk prog ln ->
  (forall e,
      load_line line prog = LoadRaised e ->
      load (pre ++ line :: post) = LoadFail e (S (List.length pre))
      /\ main fuel (pre ++ line :: post) input rnd
         = mkTranscript [] [header e (S (List.length pre))] [] []
             (Reported e))
  /\ (forall e,
      load_line line prog = LoadUncaught e ->
      main fuel (pre ++ line :: post) input rnd
      = mkTranscript [] [] [] [] (Crashed e)).
Proof.
  intros Hpre. unfold load in Hpre. split; intros e He.
  - assert (E : load (pre ++ line :: post) = LoadFail e (S (List.length pre))).
    { unfold load. rewrite (load_from_app pre (line :: post) _ _ _ _ _ Hpre).
      simpl. now rewrite He. }
    split; [exact E|]. unfold main. rewrite E. unfold handler.
    assert (Hc : cls e = ProgramError).
    { unfold load_line in He. destruct (indentation line) as [d rest].
      exact (descend_raises_program_error _ _ _ _ He). }
    now rewrite Hc.
  - unfold main, load.
    rewrite (load_from_app pre (line :: post) _ _ _ _ _ Hpre).
    simpl. now rewrite He.
Qed.

Lemma load_error_at_first_bad_line_witness :
  load [lit "if"] = LoadOk (Blk Block [Blk if_ []]) (Some 1%nat)
  /\ load_line (lit "    add") (Blk Block [Blk if_ []])
     = LoadRaised IndentationError
  /\ load ([lit "if"] ++ lit "    add" :: [lit "add"])
     = LoadFail IndentationError 2.
Proof.
  split; [reflexivity|]. split; [reflexivity|].
  exact (proj1 (proj1 (load_error_at_first_bad_line [lit "if"] [lit "add"]
                         (lit "    add") (Blk Block [Blk if_ []])
                         (Some 1%nat) O [] (fun _ => 0) eq_refl)
                  IndentationError eq_refl)).
Defined.

(** ** Indentation *)

Lemma statement_never_indentation_error (line : str) (target : command)
    (e : ProgramRaisable) :
  statement line target = LoadRaised e -> name e <> lit "IndentationError".
Proof.
  unfold statement, block_append, block_set_last, program_error. intros H.
  repeat match type of H with
         | context [if ?b then _ else _] => destruct b
         | context [match ?x with _ => _ end] => destruct x
         end; try discriminate H; injection H as <-; discriminate.
Qed.

(** X16. A line raises IndentationError exactly when it is indented
    deeper than the last items of the program go: some step of the
    descent finds an empty block or an item that is not a block. The text
    of the line plays no part. *)
Theorem indentation_error_iff (d : nat) (line : str) :
  forall target,
    (cursor d target = None <->
     descend d line target = LoadRaised IndentationError)
    /\ (forall e, descend d line target = LoadRaised e ->
          name e = lit "IndentationError" -> cursor d target = None).
Proof.
  induction d as [|d IH]; intros target.
  - simpl. split; [split; [discriminate|] |].
    + intros H. now destruct (statement_never_indentation_error _ _ _ H).
    + intros e H Hn. now destruct (statement_never_indentation_error _ _ _ H).
  - simpl. destruct target as [o|v|k body]; try (split; [split|]; reflexivity).
    destruct (last_item body) as [child|]; [|split; [split|]; reflexivity].
    destruct (IH child) as [[H1 H2] H3]. split; [split|].
    + intros Hc. now rewrite (H1 Hc).
    + intros Hd. destruct (descend d line child) eqn:E; try discriminate Hd.
      injection Hd as ->. now apply H2.
    + intros e Hd Hn. destruct (descend d line child) eqn:E; try discriminate Hd.
      injection Hd as ->. exact (H3 e eq_refl Hn).
Qed.

Lemma indentation_error_iff_witness :
  cursor 2 (Blk Block [Blk if_ []]) = None
  /\ descend 2 (lit "add") (Blk Block [Blk if_ []])
     = LoadRaised IndentationError.
Proof.
  split; [reflexivity|].
  exact (proj1 (proj1 (indentation_error_iff 2 (lit "add")
                         (Blk Block [Blk if_ []]))) eq_refl).
Defined.

(** X17. A line whose indentation ends the descent on an item that is
    not a block (a built-in or a push) raises no ProgramError: the
    statement branches use the item as a list, which is an uncaught
    TypeError for [else] and an uncaught AttributeError for every other
    line. *)
Theorem line_under_a_non_block (d : nat) (line : str) :
  forall target x,
    cursor d target = Some x -> (forall c body, x <> Blk c body) ->
    descend d line target
    = LoadUncaught (if str_eqb line (lit "else") then TypeError
                    else AttributeError).
Proof.
  induction d as [|d IH]; intros target x Hc Hx; simpl in Hc.
  - injection Hc as ->.
    change (descend 0 line x) with (statement line x).
    destruct (str_eqb line (lit "else")) eqn:E.
    + apply str_eqb_eq in E. subst line.
      destruct x as [o|v|c body]; [| |now destruct (Hx c body)]; reflexivity.
    + unfold statement. rewrite E.
      destruct x as [o|v|c body]; [| |now destruct (Hx c body)];
        destruct (startswith line (lit "push ")); reflexivity.
  - destruct target as [| |k body]; try discriminate Hc. simpl.
    destruct (last_item body) as [child|]; [|discriminate Hc].
    now rewrite (IH child x Hc Hx).
Qed.

Lemma line_under_a_non_block_witness :
  cursor 1 (Blk Block [Builtin op_add]) = Some (Builtin op_add)
  /\ (forall c body, Builtin op_add <> Blk c body)
  /\ descend 1 (lit "push 1") (Blk Block [Builtin op_add])
     = LoadUncaught AttributeError.
Proof.
  assert (H : forall c body, Builtin op_add <> Blk c body)
    by (intros c body; discriminate).
  split; [reflexivity|]. split; [exact H|].
  exact (line_under_a_non_block 1 (lit "push 1")
           (Blk Block [Builtin op_add]) (Builtin op_add) eq_refl H).
Defined.

(** ** Blank lines *)

Lemma read_source_app (a b : list str) :
  read_source (a ++ b) = read_source a ++ read_source b.
Proof. unfold read_source. now rewrite filter_app, map_app. Qed.

Lemma replace1_removes (old : char) (x : str) :
  ~ In old (replace1 old [] x).
Proof.
  induction x as [|c x IH]; simpl; [tauto|].
  destruct (c =? old) eqn:E; simpl; [exact IH|].
  intros [H|H]; [|now apply IH]. apply N.eqb_neq in E. congruence.
Qed.

(** X18. A line that is a lone newline changes nothing: the run of a file
    with such a line added anywhere is the run of the file without it,
    line numbers of diagnostics included. No line that reaches the loader
    contains a newline, and there are no more of them than lines in the
    file. *)
Theorem blank_lines_are_invisible (fuel : nat) (pre post input : list str)
    (rnd : nat -> N) :
  run_file fuel (pre ++ [ch_newline] :: post) input rnd
  = run_file fuel (pre ++ post) input rnd
  /\ (forall line, In line (read_source (pre ++ post)) ->
        ~ In ch_newline line)
  /\ (List.length (read_source (pre ++ post))
      <= List.length (pre ++ post))%nat.
Proof.
  split; [|split].
  - unfold run_file. now rewrite !read_source_app.
  - intros line Hin. unfold read_source in Hin.
    apply in_map_iff in Hin as [l [<- _]]. apply replace1_removes.
  - unfold read_source. rewrite length_map. apply filter_length_le.
Qed.

Lemma blank_lines_are_invisible_witness :
  In (lit "add") (read_source ([lit "add" ++ [ch_newline]] ++ []))
  /\ ~ In ch_newline (lit "add").
Proof.
  assert (H : In (lit "add") (read_source ([lit "add" ++ [ch_newline]] ++ [])))
    by (left; reflexivity).
  split; [exact H|].
  exact (proj1 (proj2 (blank_lines_are_invisible O
                         [lit "add" ++ [ch_newline]] [] [] (fun _ => 0)))
           (lit "add") H).
Defined.

(** ** From text to run *)

Lemma command_name_facts (line : str) (obj : command) :
  command_table line = Some obj ->
  startswith line (lit "push ") = false
  /\ str_eqb line (lit "else") = false
  /\ indentation line = (O, line).
Proof.
  unfold command_table. intros H.
  repeat match type of H with
         | (if ?b then _ else _) = _ =>
             let E := fresh "E" in
             destruct b eqn:E;
             [apply str_eqb_eq in E; subst line; repeat split; reflexivity|];
             clear E
         end.
  discriminate H.
Qed.

Lemma plain_statement_loads (line : str) (obj : command) :
  plain_statement line obj ->
  indentation line = (O, line)
  /\ forall c body,
       statement line (Blk c body) = Loaded (Blk c (body ++ [obj])).
Proof.
  intros [[tok [v [-> [Hv ->]]]] | [o [Hc ->]]].
  - split; [reflexivity|]. intros c body.
    change (statement (lit "push " ++ tok) (Blk c body))
      with (match _eval tok with
            | Some v => block_append c body (Partial v)
            | None =>
                program_error "LiteralError"
                  ([ch_quote] ++ tok ++ [ch_quote]
                   ++ lit " is not a valid literal")
            end).
    rewrite Hv. now destruct c.
  - destruct (command_name_facts _ _ Hc) as [H1 [H2 H3]].
    split; [exact H3|]. intros c body. unfold statement.
    rewrite H1, H2, Hc. now destruct c.
Qed.

Lemma indentation_indented (line : str) :
  indentation (indented line)
  = (S (fst (indentation line)), snd (indentation line)).
Proof.
  unfold indented. simpl. now destruct (indentation line).
Qed.

Lemma removelast_app_one (body : list command) (x : command) :
  removelast (body ++ [x]) = body.
Proof. apply removelast_last. Qed.

Lemma load_from_cons (line : str) (rest : list str) (next : nat)
    (ln : option nat) (main : command) :
  load_from (line :: rest) next ln main
  = match load_line line main with
    | Loaded main' => load_from rest (S next) (Some next) main'
    | LoadRaised e => LoadFail e next
    | LoadUncaught e => LoadCrash e next
    end.
Proof. reflexivity. Qed.

(** Plain statements at top level are appended in order. *)
Lemma load_plain_lines (lines : list str) (objs : list command) :
  Forall2 plain_statement lines objs ->
  forall next ln c body,
    exists ln',
      load_from lines next ln (Blk c body) = LoadOk (Blk c (body ++ objs)) ln'.
Proof.
  induction 1 as [|line obj lines objs Hp _ IH]; intros next ln c body.
  - exists ln. simpl. now rewrite app_nil_r.
  - destruct (plain_statement_loads _ _ Hp) as [Hi Hs].
    simpl. unfold load_line. rewrite Hi. simpl. rewrite Hs.
    destruct (IH (S next) (Some next) c (body ++ [obj])) as [ln' E].
    exists ln'. rewrite E. now rewrite <- app_assoc.
Qed.

(** Plain statements one level down go to the last block, in order. *)
Lemma load_indented_lines (lines : list str) (objs : list command) :
  Forall2 plain_statement lines objs ->
  forall next ln c body k items,
    exists ln',
      load_from (List.map indented lines) next ln
        (Blk c (body ++ [Blk k items]))
      = LoadOk (Blk c (body ++ [Blk k (items ++ objs)])) ln'.
Proof.
  induction 1 as [|line obj lines objs Hp _ IH]; intros next ln c body k items.
  - exists ln. simpl. now rewrite app_nil_r.
  - destruct (plain_statement_loads _ _ Hp) as [Hi Hs].
    simpl. unfold load_line. rewrite indentation_indented, Hi. simpl.
    rewrite last_item_app, Hs, removelast_app_one.
    destruct (IH (S next) (Some next) c body k (items ++ [obj])) as [ln' E].
    exists ln'. rewrite E. now rewrite <- app_assoc.
Qed.

Lemma if_else_runs_one_branch (fuel : nat) (T E : list command)
    (stack_ : sref) (m : machine) (b : bool) (rest : stack) :
  read stack_ m = VBool b :: rest ->
  call (S fuel) (Blk (if_else (List.length T)) (T ++ E)) stack_ m
  = for_each (call fuel) (if b then T else E) stack_ (write stack_ rest m).
Proof.
  intros Hr. simpl. unfold bind.
  rewrite (get_cons stack_ t_bool m _ rest b Hr eq_refl).
  destruct b.
  - now rewrite firstn_app, Nat.sub_diag, firstn_all, app_nil_r.
  - now rewrite skipn_app, Nat.sub_diag, skipn_all, app_nil_l.
Qed.

(** X19. After lines that load, the text [if], indented plain statements,
    [else], indented plain statements loads as one more item: an
    [if_else] block holding the commands of both groups. Called with a
    boolean on top, that block pops it and runs the commands of the first
    group when it is true, of the second group when it is false, and no
    others. *)
Theorem if_else_text_runs_one_branch (pre thens elses : list str)
    (T E body : list command) (ln : option nat) :
  load pre = LoadOk (Blk Block body) ln ->
  Forall2 plain_statement thens T ->
  Forall2 plain_statement elses E ->
  (exists ln',
      load (pre ++ [lit "if"] ++ List.map indented thens
                ++ [lit "else"] ++ List.map indented elses)
      = LoadOk (Blk Block (body ++ [Blk (if_else (List.length T)) (T ++ E)]))
          ln')
  /\ forall fuel stack_ m b rest,
       read stack_ m = VBool b :: rest ->
       call (S fuel) (Blk (if_else (List.length T)) (T ++ E)) stack_ m
       = for_each (call fuel) (if b then T else E) stack_
           (write stack_ rest m).
Proof.
  intros Hpre HT HE. split; [|intros; now apply if_else_runs_one_branch].
  unfold load in *.
  rewrite (load_from_app pre _ _ _ _ _ _ Hpre).
  change ([lit "if"] ++ List.map indented thens
          ++ [lit "else"] ++ List.map indented elses)
    with (lit "if" :: List.map indented thens
          ++ lit "else" :: List.map indented elses).
  rewrite load_from_cons.
  change (load_line (lit "if") (Blk Block body))
    with (Loaded (Blk Block (body ++ [Blk if_ []]))).
  destruct (load_indented_lines thens T HT (S (1 + List.length pre))
              (Some (1 + List.length pre)%nat) Block body if_ [])
    as [ln1 E1].
  rewrite (load_from_app _ _ _ _ _ _ _ E1).
  rewrite load_from_cons. simpl app.
  assert (Eelse : load_line (lit "else") (Blk Block (body ++ [Blk if_ T]))
                  = Loaded (Blk Block
                      (body ++ [Blk (if_else (List.length T)) T]))).
  { change (load_line (lit "else") (Blk Block (body ++ [Blk if_ T])))
      with (statement (lit "else") (Blk Block (body ++ [Blk if_ T]))).
    rewrite (else_in_nonempty_container Block _ _ (last_item_app body _)).
    now rewrite removelast_app_one. }
  rewrite Eelse.
  destruct (load_indented_lines elses E HE
              (S (S (1 + List.length pre)
                  + List.length (List.map indented thens)))
              (Some (S (1 + List.length pre)
                     + List.length (List.map indented thens))%nat)
              Block body (if_else (List.length T)) T) as [ln2 E2].
  exists ln2. exact E2.
Qed.

Lemma if_else_text_runs_one_branch_witness :
  load [lit "push true"] = LoadOk (Blk Block [Partial (VBool true)]) (Some 1%nat)
  /\ Forall2 plain_statement [lit "push 1"] [Partial (VNum 1)]
  /\ Forall2 plain_statement [lit "push 0"] [Partial (VNum 0)]
  /\ exists ln,
       load ([lit "push true"] ++ [lit "if"]
             ++ List.map indented [lit "push 1"]
             ++ [lit "else"] ++ List.map indented [lit "push 0"])
       = LoadOk (Blk Block [Partial (VBool true);
                            Blk (if_else 1) [Partial (VNum 1); Partial (VNum 0)]])
           ln.
Proof.
  assert (H1 : Forall2 plain_statement [lit "push 1"] [Partial (VNum 1)]).
  { constructor; [|constructor]. left. exists (lit "1"), (VNum 1).
    repeat split. }
  assert (H0 : Forall2 plain_statement [lit "push 0"] [Partial (VNum 0)]).
  { constructor; [|constructor]. left. exists (lit "0"), (VNum 0).
    repeat split. }
  split; [reflexivity|]. split; [exact H1|]. split; [exact H0|].
  exact (proj1 (if_else_text_runs_one_branch [lit "push true"]
                  [lit "push 1"] [lit "push 0"]
                  [Partial (VNum 1)] [Partial (VNum 0)]
                  [Partial (VBool true)] (Some 1%nat) eq_refl H1 H0)).
Defined.

Section Total.

Lemma total_bind {A B} (c : M A) (k : A -> M B) :
  total c -> (forall a, total (k a)) -> total (bind c k).
Proof.
  intros Hc Hk m. unfold bind. specialize (Hc m).
  destruct (c m) as [a m'| | |]; try exact I; [apply Hk | contradiction].
Qed.

Lemma total_get {A} (stack_ : sref) (t : pytype A) : total (_get stack_ t).
Proof.
  intros m. unfold _get, raise, raise_str.
  destruct (read stack_ m) as [|x rest]; [exact I|].
  destruct (isinstance x t); exact I.
Qed.

Lemma total_randrange (n : Z) : total (randrange n).
Proof. intros m. unfold randrange. destruct (n <=? 0)%Z; exact I. Qed.

Lemma total_input (stack_ : sref) : total (input_ stack_).
Proof. intros m. unfold input_. destruct (stdin m); exact I. Qed.

Lemma total_console_write (x : str) : total (console_write x).
Proof.
  intros m. unfold console_write. destruct (existsb is_surrogate x); exact I.
Qed.

Ltac total_step :=
  match goal with
  | |- total (bind _ _) => apply total_bind; [|intro]
  | |- total (_get _ _) => apply total_get
  | |- total (randrange _) => apply total_randrange
  | |- total (console_write _) => apply total_console_write
  | |- total (if ?b then _ else _) => destruct b
  | |- total (match ?x with _ => _ end) => destruct x
  | |- total _ => intros ?; exact I
  end.

Lemma builtin_total (o : opname) (stack_ : sref) : total (builtin o stack_).
Proof.
  destruct o; try apply total_input;
    unfold builtin, add, and_, chr_, concat, divide, drop, dupe, equal,
      eval_, flip, greater, len_, less, multiply, not_, or_, ord_, print_,
      random, repr_, split, subtract, typeof;
    repeat total_step.
Qed.

End Total.

Lemma plain_statement_command (line : str) (obj : command) :
  plain_statement line obj ->
  (exists v, obj = Partial v) \/ (exists o, obj = Builtin o).
Proof.
  intros [[tok [v [_ [_ ->]]]] | [o [_ ->]]]; [left | right]; eauto.
Qed.

Lemma straight_line_total (objs : list command) (stack_ : sref) :
  Forall (fun obj => (exists v, obj = Partial v) \/ (exists o, obj = Builtin o))
    objs ->
  total (for_each (call 1) objs stack_).
Proof.
  induction 1 as [|obj objs Ho _ IH]; simpl.
  - intros m. exact I.
  - apply total_bind; [|intros _; exact IH].
    destruct Ho as [[v ->] | [o ->]]; [intros m; exact I | apply builtin_total].
Qed.

(** X20. A source made of unindented pushes of valid literals and names
    of built-ins loads as the block of these commands in the order of the
    lines; its run always ends, and the bound 2 is enough. *)
Theorem straight_line_text_runs (lines : list str) (objs : list command) :
  Forall2 plain_statement lines objs ->
  (exists ln, load lines = LoadOk (Blk Block objs) ln)
  /\ forall fuel stack_ m,
       finished (call 2 (Blk Block objs) stack_ m)
       /\ call (2 + fuel) (Blk Block objs) stack_ m
          = call 2 (Blk Block objs) stack_ m.
Proof.
  intros H. split.
  - destruct (load_plain_lines lines objs H 1%nat None Block []) as [ln E].
    exists ln. exact E.
  - intros fuel stack_ m.
    assert (Hf : finished (call 2 (Blk Block objs) stack_ m)).
    { apply (straight_line_total objs stack_).
      clear -H. induction H; constructor;
        [now apply (plain_statement_command x) | assumption]. }
    split; [exact Hf|].
    clear H. induction fuel as [|fuel IH]; [reflexivity|].
    change (2 + S fuel)%nat with (S (2 + fuel)).
    rewrite call_one_more; [exact IH | now rewrite IH].
Qed.

Lemma straight_line_text_runs_witness :
  Forall2 plain_statement [lit "push 1"; lit "dupe"]
    [Partial (VNum 1); Builtin op_dupe]
  /\ exists ln,
       load [lit "push 1"; lit "dupe"]
       = LoadOk (Blk Block [Partial (VNum 1); Builtin op_dupe]) ln.
Proof.
  assert (H : Forall2 plain_statement [lit "push 1"; lit "dupe"]
                [Partial (VNum 1); Builtin op_dupe]).
  { constructor; [|constructor; [|constructor]].
    - left. exists (lit "1"), (VNum 1). repeat split.
    - right. exists op_dupe. split; reflexivity. }
  split; [exact H|].
  exact (proj1 (straight_line_text_runs _ _ H)).
Defined.

Lemma for_each_total (run : command -> sref -> M unit) (body : list command)
    (stack_ : sref) :
  (forall c, In c body -> total (run c stack_)) ->
  total (for_each run body stack_).
Proof.
  induction body as [|c body IH]; intros H; simpl.
  - intros m. exact I.
  - apply total_bind; [apply H; now left|].
    intros _. apply IH. intros c' Hc'. apply H. now right.
Qed.

Lemma depth_item (k : block_class) (body : list command) (c : command) :
  In c body -> (depth c < depth (Blk k body))%nat.
Proof.
  intros Hin. simpl. apply Nat.lt_succ_r.
  assert (H : Forall (fun n => (n <= list_max (List.map depth body))%nat)
                (List.map depth body)) by (apply list_max_le; lia).
  exact (proj1 (Forall_forall _ _) H _ (in_map depth _ _ Hin)).
Qed.

Lemma while_free_total (fuel : nat) :
  forall c stack_,
    while_free c = true -> (depth c < fuel)%nat ->
    total (call fuel c stack_).
Proof.
  induction fuel as [|fuel IH]; intros c stack_ Hw Hd; [lia|].
  destruct c as [o|v|k body].
  - apply builtin_total.
  - intros m. exact I.
  - assert (Hb : forallb while_free body = true)
      by (destruct k; try exact Hw; discriminate Hw).
    assert (Hin : forall s c, In c body -> total (call fuel c s)).
    { intros s c Hc. apply IH.
      - exact (proj1 (forallb_forall _ _) Hb c Hc).
      - pose proof (depth_item k body c Hc). lia. }
    destruct k as [| |n| |]; simpl.
    + apply for_each_total. apply Hin.
    + apply total_bind; [apply total_get|].
      intros [|]; [apply for_each_total; apply Hin | intros m; exact I].
    + apply total_bind; [apply total_get|].
      intros b. apply for_each_total. intros c Hc. apply Hin.
      destruct b; [exact (in_firstn _ _ _ Hc) | exact (in_skipn _ _ _ Hc)].
    + apply for_each_total. apply Hin.
    + discriminate Hw.
Qed.

(** X21. A command without any [while_] block always ends: a bound one
    above its nesting depth is enough, and a larger bound gives the same
    result. *)
Theorem while_free_program_ends (fuel : nat) (c : command) (stack_ : sref)
    (m : machine) :
  while_free c = true ->
  finished (call (S (depth c)) c stack_ m)
  /\ call (S (depth c) + fuel) c stack_ m = call (S (depth c)) c stack_ m.
Proof.
  intros Hw.
  assert (Hf : finished (call (S (depth c)) c stack_ m))
    by (apply while_free_total; [exact Hw | lia]).
  split; [exact Hf|].
  induction fuel as [|fuel IH]; [now rewrite Nat.add_0_r|].
  rewrite Nat.add_succ_r. rewrite call_one_more; [exact IH | now rewrite IH].
Qed.

Lemma while_free_program_ends_witness :
  while_free (Blk second [Blk if_ [Builtin op_add]]) = true
  /\ finished (call 3 (Blk second [Blk if_ [Builtin op_add]]) ref_primary
                 one_two_machine).
Proof.
  split; [reflexivity|].
  exact (proj1 (while_free_program_ends O (Blk second [Blk if_ [Builtin op_add]])
                  ref_primary one_two_machine eq_refl)).
Defined.

(** ** Numerals and texts *)

(** X22. What numerals mean. For digits [ds] (leading zeros allowed) that
    read as the absolute value of [z], written after a minus sign when
    [z] is negative, and with no run of more than [max_str_digits]
    digits: alone they evaluate to [z]; followed by [/] and digits they
    evaluate to the fraction in lowest terms, and to nothing when the
    denominator is 0; followed by [.] and digits they evaluate to the
    decimal number. A numeral with a longer run of digits is not a
    literal. *)
Theorem numeral_values (z : Z) (ds : str) :
  forallb is_digit ds = true -> ds <> [] -> digits_val ds = Z.abs_N z ->
  ((List.length ds <= max_str_digits)%nat ->
   _eval (sign_text z ++ ds) = Some (VNum (Qred (z # 1))))
  /\ ((max_str_digits < List.length ds)%nat ->
      _eval (sign_text z ++ ds) = None)
  /\ forall de,
       forallb is_digit de = true ->
       (digits_val de = 0 ->
        _eval (sign_text z ++ ds ++ ch_slash :: de) = None)
       /\ ((List.length ds <= max_str_digits)%nat ->
           (List.length de <= max_str_digits)%nat ->
           (forall d, digits_val de = Npos d ->
              _eval (sign_text z ++ ds ++ ch_slash :: de)
              = Some (VNum (Qred (z # d))))
           /\ _eval (sign_text z ++ ds ++ ch_dot :: de)
              = Some (VNum (Qred ((z * Zpos (pow10 (List.length de))
                                   + sign_of z * Z.of_N (digits_val de))
                                  # pow10 (List.length de)))))
       /\ ((max_str_digits < List.length ds)%nat
           \/ (max_str_digits < List.length de)%nat ->
           _eval (sign_text z ++ ds ++ ch_slash :: de) = None
           /\ _eval (sign_text z ++ ds ++ ch_dot :: de) = None).
Proof.
  intros Hds Hne Hval.
  split; [exact (eval_int_text z ds Hds Hne Hval)|].
  split; [exact (eval_long_int_text z ds Hds Hne Hval)|].
  intros de Hde. split; [|split].
  - intros Hd. exact (eval_zero_denominator z ds de Hds Hne Hval Hde Hd).
  - intros Hs He. split.
    + intros d Hd. exact (eval_ratio_text z ds Hds Hne Hval de d Hde Hd Hs He).
    + exact (eval_decimal_text z ds de Hds Hne Hval Hde Hs He).
  - intros Hlong. split.
    + exact (eval_long_run z ds de ch_slash Hds Hne Hval Hde
               (or_introl eq_refl) Hlong).
    + exact (eval_long_run z ds de ch_dot Hds Hne Hval Hde
               (or_intror eq_refl) Hlong).
Qed.

Lemma numeral_values_witness :
  forallb is_digit (lit "007") = true /\ lit "007" <> []
  /\ digits_val (lit "007") = Z.abs_N (-7)
  /\ (List.length (lit "007") <= max_str_digits)%nat
  /\ _eval (lit "-007") = Some (VNum (Qred (-7 # 1))).
Proof.
  assert (H : lit "007" <> []) by discriminate.
  assert (L : (List.length (lit "007") <= max_str_digits)%nat)
    by (apply Nat.leb_le; reflexivity).
  split; [reflexivity|]. split; [exact H|]. split; [reflexivity|].
  split; [exact L|].
  exact (proj1 (numeral_values (-7) (lit "007") eq_refl H eq_refl) L).
Defined.

(** ** Texts of values *)

Lemma replace1_no_old (old : char) (new x : str) :
  ~ In old new -> ~ In old (replace1 old new x).
Proof.
  intros Hn. induction x as [|c x IH]; simpl; [tauto|].
  intros H. apply in_app_or in H as [H|H]; [|now apply IH].
  destruct (c =? old) eqn:E; [now apply Hn|].
  destruct H as [H|[]]. apply N.eqb_neq in E. congruence.
Qed.

Lemma digits_no_newline (x : str) :
  forallb is_digit x = true -> ~ In ch_newline x.
Proof.
  intros H Hin. rewrite forallb_forall in H. specialize (H _ Hin).
  discriminate H.
Qed.

Lemma int_text_no_newline (z : Z) : ~ In ch_newline (int_text z).
Proof.
  rewrite int_text_parts. intros H. apply in_app_or in H as [H|H].
  - destruct z; simpl in H; try tauto. destruct H as [H|[]]. discriminate H.
  - exact (digits_no_newline _ (str_of_N_digits _) H).
Qed.

Lemma repr_no_newline (v : value) (s : str) :
  _repr v = Some s -> ~ In ch_newline s.
Proof.
  destruct v as [[|]|q|t|[| | | |]]; simpl; intros E;
    try (injection E as <-; intros H;
         repeat (destruct H as [H|H]; [discriminate H|]); exact H).
  - unfold repr_num in E.
    destruct (str_of_int (Qnum q)) as [n|] eqn:En;
      [|destruct (Qden q =? 1)%positive; discriminate].
    apply str_of_int_some in En as [-> _].
    destruct (Qden q =? 1)%positive.
    + injection E as <-. apply int_text_no_newline.
    + destruct (str_of_int (Z.pos (Qden q))) as [d|] eqn:Ed; [|discriminate].
      apply str_of_int_some in Ed as [-> _]. injection E as <-.
      intros H. apply in_app_or in H as [H|H];
        [exact (int_text_no_newline _ H)|].
      destruct H as [H|H]; [discriminate H|].
      exact (int_text_no_newline (Z.pos (Qden q)) H).
  - injection E as <-.
    intros [H|H]; [discriminate H|]. revert H. apply replace1_no_old.
    intros [H|[H|[]]]; discriminate H.
Qed.

(** The name of the class ABCMeta is the text of no other value. *)
Lemma repr_metaclass (v : value) :
  _repr v = Some (lit "ABCMeta") -> v = VType TABCMeta.
Proof.
  intros E. destruct v as [[|]|q|t|[| | | |]]; simpl in E;
    try discriminate E; try reflexivity.
  unfold repr_num in E.
  destruct (str_of_int (Qnum q)) as [n|] eqn:En;
    [|destruct (Qden q =? 1)%positive; discriminate].
  apply str_of_int_some in En as [-> _].
  assert (F : forall rest, int_text (Qnum q) ++ rest <> lit "ABCMeta").
  { intros rest. rewrite int_text_parts.
    pose proof (str_of_N_digits (Z.abs_N (Qnum q))) as Hd.
    pose proof (str_of_N_not_empty (Z.abs_N (Qnum q))) as Hn.
    destruct (str_of_N (Z.abs_N (Qnum q))) as [|c ds]; [contradiction|].
    simpl in Hd. apply andb_true_iff in Hd as [Hc _].
    apply digit_bounds in Hc.
    destruct (Qnum q); simpl; intros [= E1]; try discriminate; lia. }
  destruct (Qden q =? 1)%positive.
  - injection E as E. destruct (F []). now rewrite app_nil_r.
  - destruct (str_of_int (Z.pos (Qden q))); [|discriminate].
    injection E as E. now destruct (F _ E).
Qed.

(** X23. The text of a value never contains a newline, so it fills one
    line of a dump, and two values in lowest terms with the same text are
    the same value. *)
Theorem repr_is_one_line_and_faithful (v w : value) (s : str) :
  _repr v = Some s ->
  ~ In ch_newline s
  /\ (canonical v -> canonical w -> _repr w = Some s -> v = w).
Proof.
  intros Ev. split; [exact (repr_no_newline v s Ev)|].
  intros Hv Hw Ew.
  destruct (value_eqb v (VType TABCMeta)) eqn:Em.
  - apply (value_eqb_eq v (VType TABCMeta) Hv I) in Em. subst v.
    injection Ev as <-. symmetry. now apply repr_metaclass.
  - assert (Hm : v <> VType TABCMeta).
    { intros ->. simpl in Em. discriminate Em. }
    assert (Hm' : w <> VType TABCMeta).
    { intros ->. injection Ew as <-. now apply repr_metaclass in Ev. }
    pose proof (eval_repr v s Hv Hm Ev) as E1.
    rewrite (eval_repr w s Hw Hm' Ew) in E1. now injection E1 as <-.
Qed.

Lemma repr_is_one_line_and_faithful_witness :
  _repr (VNum 1) = Some (lit "1")
  /\ ~ In ch_newline (lit "1").
Proof.
  split; [reflexivity|].
  exact (proj1 (repr_is_one_line_and_faithful (VNum 1) (VBool true) (lit "1")
                  eq_refl)).
Defined.

(** ** Classes of classes *)

(** X24. [typeof] replaces the value on top of the stack by its class.
    The class of a class is [type], except for [num], whose class is
    ABCMeta: [typeof] twice gives ABCMeta on a number and [type] on every
    other value, and [typeof] three times gives [type] on every value. *)
Theorem typeof_classes (stack_ : sref) (m : machine) (x : value)
    (rest : stack) :
  read stack_ m = x :: rest ->
  typeof stack_ m = Ok tt (write stack_ (VType (type_of x) :: rest) m)
  /\ (typeof stack_ ;;; typeof stack_) m
     = Ok tt (write stack_
                (VType (if ty_eqb (type_of x) TNum then TABCMeta else TType)
                 :: rest) m)
  /\ (typeof stack_ ;;; typeof stack_ ;;; typeof stack_) m
     = Ok tt (write stack_ (VType TType :: rest) m).
Proof.
  intros Hr.
  assert (E : forall m' y rest',
             read stack_ m' = y :: rest' ->
             typeof stack_ m'
             = Ok tt (write stack_ (VType (type_of y) :: rest') m')).
  { intros m' y rest' H. unfold typeof, bind.
    rewrite (get_object _ _ _ _ H). now stacks. }
  split; [exact (E m x rest Hr)|]. split.
  - unfold bind. rewrite (E m x rest Hr).
    rewrite (E _ _ rest (read_write _ _ _)), write_write.
    destruct x as [b|q|s|[]]; reflexivity.
  - unfold bind. rewrite (E m x rest Hr).
    rewrite (E _ _ rest (read_write _ _ _)), write_write.
    rewrite (E _ _ rest (read_write _ _ _)), write_write.
    destruct x as [b|q|s|[]]; reflexivity.
Qed.

Lemma typeof_classes_witness :
  read ref_primary seven_two_machine = [VNum 7; VNum 2]
  /\ (typeof ref_primary ;;; typeof ref_primary) seven_two_machine
     = Ok tt (write ref_primary [VType TABCMeta; VNum 2] seven_two_machine).
Proof.
  split; [reflexivity|].
  exact (proj1 (proj2 (typeof_classes ref_primary seven_two_machine
                         (VNum 7) [VNum 2] eq_refl))).
Defined.

(** ** The dump of the stacks *)

Lemma dump_stack_done (s : stack) :
  (snd (dump_stack s) = true <-> forall v, In v s -> _repr v <> None)
  /\ (snd (dump_stack s) = true ->
      List.length (fst (dump_stack s)) = List.length s).
Proof.
  induction s as [|v s [IH1 IH2]]; simpl.
  - split; [|reflexivity]. split; [intros _ v [] | reflexivity].
  - destruct (_repr v) as [r|] eqn:Er.
    + destruct (dump_stack s) as [lines done]. simpl in *. split.
      * rewrite IH1. split.
        -- intros H w [<-|Hw]; [congruence | now apply H].
        -- intros H w Hw. apply H. now right.
      * intros H. now rewrite (IH2 H).
    + simpl. split; [|discriminate]. split; [discriminate|].
      intros H. destruct (H v (or_introl eq_refl) Er).
Qed.

(** X25. The report of a ProgramException begins with the header, and it
    gets to its end, with one line for each value of the two stacks
    between the four lines that frame them, exactly when [_repr] produces
    a text for every value on the two stacks; otherwise the dump stops
    short and the ValueError of [_repr] ends the interpreter. *)
Theorem dump_ends_iff_all_printable (e : ProgramRaisable) (n : nat)
    (m : machine) :
  cls e = ProgramException ->
  List.hd [] (fst (handler e n m)) = header e n
  /\ (snd (handler e n m) = true
      <-> forall v, In v (primary m ++ secondary m) -> _repr v <> None)
  /\ (snd (handler e n m) = true ->
      List.length (fst (handler e n m))
      = (4 + List.length (primary m) + List.length (secondary m))%nat).
Proof.
  intros Hc. unfold handler, dump. rewrite Hc.
  destruct (dump_stack_done (primary m)) as [P1 P2].
  destruct (dump_stack_done (secondary m)) as [S1 S2].
  destruct (dump_stack (primary m)) as [top done].
  destruct (dump_stack (secondary m)) as [bottom done'].
  simpl in *. destruct done; simpl.
  - split; [reflexivity|]. split.
    + rewrite S1. split.
      * intros H v Hv. apply in_app_or in Hv as [Hv|Hv];
          [now apply P1 | now apply H].
      * intros H v Hv. apply H. apply in_or_app. now right.
    + intros H. subst done'. cbn [List.length].
      repeat (rewrite length_app; cbn [List.length]).
      rewrite (P2 eq_refl), (S2 eq_refl). lia.
  - split; [reflexivity|]. split; [|discriminate]. split; [discriminate|].
    intros H. apply P1. intros v Hv. apply H. apply in_or_app. now left.
Qed.

Lemma dump_ends_iff_all_printable_witness :
  cls PopException = ProgramException
  /\ fst (handler PopException 2 one_two_machine)
     = [lit "PopException#2: cannot pop from empty stack";
        lit "Primary stack_ ["; lit "  1";
        lit "]" ++ [ch_newline] ++ lit "Secondary stack: [";
        lit "  2"; lit "  3"; lit "]"]
  /\ List.hd [] (fst (handler PopException 2 one_two_machine))
     = header PopException 2.
Proof.
  split; [reflexivity|]. split; [reflexivity|].
  exact (proj1 (dump_ends_iff_all_printable PopException 2 one_two_machine
                  eq_refl)).
Defined.

End Ow.
